(** * The Pintos thread scheduler (threads/thread.c): model and properties

    The scheduler of threads/thread.c is embedded as state-passing
    functions over a record holding the file's static variables and the
    memory it reaches through pointers (thread pages, locks).  Every
    function lives in a small state-and-failure monad: a failed ASSERT, a
    dereference of a pointer that names no object, NOT_REACHED and an
    exhausted loop budget all give no result.

    The build modelled is the one of the threads directory (USERPROG is
    not defined).  Stack frames and the register switch are memory layout
    and are not part of the model: a context switch is the change of the
    page the stack pointer lies in. *)

From Stdlib Require Import ZArith Lia.
From stdpp Require Import base option list sorting gmap strings.

Local Open Scope Z_scope.

(** ** Collaborators that are not part of thread.c *)

(** threads/fixed-point.h: the operations thread.c calls, as an interface.
    The scheduler is verified for every implementation of it. *)
Class FixedPoint := {
  fixed_point_t : Type;
  fix_int : Z → fixed_point_t;
  fix_frac : Z → Z → fixed_point_t;
  fix_add : fixed_point_t → fixed_point_t → fixed_point_t;
  fix_mul : fixed_point_t → fixed_point_t → fixed_point_t;
  fix_div : fixed_point_t → fixed_point_t → fixed_point_t;
  fix_round : fixed_point_t → Z;
  fix_increment : fixed_point_t → fixed_point_t;
}.

(** Constants of headers outside thread.c whose value the scheduler does
    not depend on: devices/timer.h (TIMER_FREQ, a positive number of ticks
    per second, so the remainder in [thread_tick] is defined) and
    threads/thread.h (TID_ERROR). *)
Class Constants := {
  TIMER_FREQ : Z;
  TIMER_FREQ_pos : 0 < TIMER_FREQ;
  TID_ERROR : Z;
}.

(** Modelled from the spec: threads/thread.h is missing; the glossary gives
    PRI_MIN / PRI_DEFAULT / PRI_MAX as 0 / 31 / 63. *)
Definition PRI_MIN : Z := 0.
Definition PRI_DEFAULT : Z := 31.
Definition PRI_MAX : Z := 63.

Definition THREAD_MAGIC : Z := 0xcd6abf4b.
Definition MLFQ_QUEUE_SIZE : Z := PRI_MAX - PRI_MIN + 1.
Definition TIME_SLICE : Z := 4.

(** ** Data *)

(** A [struct thread *] is the address of the thread's page, a
    [struct lock *] the address of the lock; NULL is [None] at type
    [option _]. *)
Definition thread_ptr := positive.
Definition lock_ptr := positive.

Inductive thread_status :=
  THREAD_RUNNING | THREAD_READY | THREAD_BLOCKED | THREAD_DYING.

Inductive blocked_reason := UNKNOWN | SLEEPING | WAITING_ON_LOCK.

Inductive intr_level_t := INTR_OFF | INTR_ON.

#[global] Instance thread_status_eq_dec : EqDecision thread_status.
Proof. solve_decision. Defined.
#[global] Instance blocked_reason_eq_dec : EqDecision blocked_reason.
Proof. solve_decision. Defined.
#[global] Instance intr_level_eq_dec : EqDecision intr_level_t.
Proof. solve_decision. Defined.

(** [struct thread_blocked]: the reason and what it refers to.  thread.c
    writes [reason], [sleeping_wakeup_time] and [lock]. *)
Record thread_blocked := {
  reason : blocked_reason;
  sleeping_wakeup_time : Z;
  lock : option lock_ptr;
}.

(** [struct semaphore] and [struct lock] (threads/synch.h), as far as
    thread.c reads them: [lock->holder] and [lock->semaphore.waiters].
    The waiters are threads linked through their [elem]. *)
Record semaphore := {
  waiters : list thread_ptr;
}.

Record lock_t := {
  holder : option thread_ptr;
  lock_semaphore : semaphore;
}.

(** The three intrusive lists of a thread ([elem], [allelem], [mlfq_elem])
    are not fields here: membership of a list is the occurrence of the
    thread's pointer in that list. *)
Record thread `{FixedPoint} := {
  tid : Z;
  status : thread_status;
  name : string;
  priority : Z;
  donated_priority : Z;
  nice : Z;
  recent_cpu : fixed_point_t;
  blocked : thread_blocked;
  owned_locks : list lock_ptr;
  magic : Z;
}.

(** [struct mlfq]. *)
Record mlfq := {
  mlfq_size : Z;
  queues : list (list thread_ptr);
}.

(** The static variables of thread.c, the memory behind its pointers and
    the state of the collaborators it calls: the page the stack pointer
    is in ([running_thread]), the timer's tick count ([timer_ticks]), the
    interrupt gate and the page allocator. *)
Record state `{FixedPoint} := {
  thread_mem : gmap thread_ptr thread;
  lock_mem : gmap lock_ptr lock_t;
  ready_list : list thread_ptr;
  all_list : list thread_ptr;
  blocked_sleeping_list : list thread_ptr;
  thread_mlfq : mlfq;
  idle_thread : option thread_ptr;
  initial_thread : option thread_ptr;
  load_avg : fixed_point_t;
  idle_ticks : Z;
  kernel_ticks : Z;
  user_ticks : Z;
  thread_ticks : Z;
  thread_mlfqs : bool;
  next_tid : Z;
  esp_page : thread_ptr;
  ticks : Z;
  intr_level : intr_level_t;
  in_external_intr : bool;
  yield_on_return : bool;
  free_pages : list thread_ptr;
}.

Section Scheduler.
Context `{FP : FixedPoint} `{CS : Constants}.

(** *** Field updates *)

Definition set_status (v : thread_status) (t : thread) : thread :=
  {| tid := tid t; status := v; name := name t; priority := priority t;
     donated_priority := donated_priority t; nice := nice t;
     recent_cpu := recent_cpu t; blocked := blocked t;
     owned_locks := owned_locks t; magic := magic t |}.

Definition set_tid (v : Z) (t : thread) : thread :=
  {| tid := v; status := status t; name := name t; priority := priority t;
     donated_priority := donated_priority t; nice := nice t;
     recent_cpu := recent_cpu t; blocked := blocked t;
     owned_locks := owned_locks t; magic := magic t |}.

Definition set_priority (v : Z) (t : thread) : thread :=
  {| tid := tid t; status := status t; name := name t; priority := v;
     donated_priority := donated_priority t; nice := nice t;
     recent_cpu := recent_cpu t; blocked := blocked t;
     owned_locks := owned_locks t; magic := magic t |}.

Definition set_donated_priority (v : Z) (t : thread) : thread :=
  {| tid := tid t; status := status t; name := name t; priority := priority t;
     donated_priority := v; nice := nice t;
     recent_cpu := recent_cpu t; blocked := blocked t;
     owned_locks := owned_locks t; magic := magic t |}.

Definition set_nice (v : Z) (t : thread) : thread :=
  {| tid := tid t; status := status t; name := name t; priority := priority t;
     donated_priority := donated_priority t; nice := v;
     recent_cpu := recent_cpu t; blocked := blocked t;
     owned_locks := owned_locks t; magic := magic t |}.

Definition set_recent_cpu (v : fixed_point_t) (t : thread) : thread :=
  {| tid := tid t; status := status t; name := name t; priority := priority t;
     donated_priority := donated_priority t; nice := nice t;
     recent_cpu := v; blocked := blocked t;
     owned_locks := owned_locks t; magic := magic t |}.

Definition set_blocked (v : thread_blocked) (t : thread) : thread :=
  {| tid := tid t; status := status t; name := name t; priority := priority t;
     donated_priority := donated_priority t; nice := nice t;
     recent_cpu := recent_cpu t; blocked := v;
     owned_locks := owned_locks t; magic := magic t |}.

Definition set_reason (v : blocked_reason) (b : thread_blocked) : thread_blocked :=
  {| reason := v; sleeping_wakeup_time := sleeping_wakeup_time b; lock := lock b |}.

Definition set_sleeping_wakeup_time (v : Z) (b : thread_blocked) : thread_blocked :=
  {| reason := reason b; sleeping_wakeup_time := v; lock := lock b |}.

Definition set_waiters (v : list thread_ptr) (l : lock_t) : lock_t :=
  {| holder := holder l; lock_semaphore := {| waiters := v |} |}.

Definition with_thread_mem (v : gmap thread_ptr thread) (s : state) : state :=
  {| thread_mem := v; lock_mem := lock_mem s; ready_list := ready_list s;
     all_list := all_list s; blocked_sleeping_list := blocked_sleeping_list s;
     thread_mlfq := thread_mlfq s; idle_thread := idle_thread s;
     initial_thread := initial_thread s; load_avg := load_avg s;
     idle_ticks := idle_ticks s; kernel_ticks := kernel_ticks s;
     user_ticks := user_ticks s; thread_ticks := thread_ticks s;
     thread_mlfqs := thread_mlfqs s; next_tid := next_tid s;
     esp_page := esp_page s; ticks := ticks s; intr_level := intr_level s;
     in_external_intr := in_external_intr s;
     yield_on_return := yield_on_return s; free_pages := free_pages s |}.

Definition with_lock_mem (v : gmap lock_ptr lock_t) (s : state) : state :=
  {| thread_mem := thread_mem s; lock_mem := v; ready_list := ready_list s;
     all_list := all_list s; blocked_sleeping_list := blocked_sleeping_list s;
     thread_mlfq := thread_mlfq s; idle_thread := idle_thread s;
     initial_thread := initial_thread s; load_avg := load_avg s;
     idle_ticks := idle_ticks s; kernel_ticks := kernel_ticks s;
     user_ticks := user_ticks s; thread_ticks := thread_ticks s;
     thread_mlfqs := thread_mlfqs s; next_tid := next_tid s;
     esp_page := esp_page s; ticks := ticks s; intr_level := intr_level s;
     in_external_intr := in_external_intr s;
     yield_on_return := yield_on_return s; free_pages := free_pages s |}.

Definition with_ready_list (v : list thread_ptr) (s : state) : state :=
  {| thread_mem := thread_mem s; lock_mem := lock_mem s; ready_list := v;
     all_list := all_list s; blocked_sleeping_list := blocked_sleeping_list s;
     thread_mlfq := thread_mlfq s; idle_thread := idle_thread s;
     initial_thread := initial_thread s; load_avg := load_avg s;
     idle_ticks := idle_ticks s; kernel_ticks := kernel_ticks s;
     user_ticks := user_ticks s; thread_ticks := thread_ticks s;
     thread_mlfqs := thread_mlfqs s; next_tid := next_tid s;
     esp_page := esp_page s; ticks := ticks s; intr_level := intr_level s;
     in_external_intr := in_external_intr s;
     yield_on_return := yield_on_return s; free_pages := free_pages s |}.

Definition with_all_list (v : list thread_ptr) (s : state) : state :=
  {| thread_mem := thread_mem s; lock_mem := lock_mem s; ready_list := ready_list s;
     all_list := v; blocked_sleeping_list := blocked_sleeping_list s;
     thread_mlfq := thread_mlfq s; idle_thread := idle_thread s;
     initial_thread := initial_thread s; load_avg := load_avg s;
     idle_ticks := idle_ticks s; kernel_ticks := kernel_ticks s;
     user_ticks := user_ticks s; thread_ticks := thread_ticks s;
     thread_mlfqs := thread_mlfqs s; next_tid := next_tid s;
     esp_page := esp_page s; ticks := ticks s; intr_level := intr_level s;
     in_external_intr := in_external_intr s;
     yield_on_return := yield_on_return s; free_pages := free_pages s |}.

Definition with_blocked_sleeping_list (v : list thread_ptr) (s : state) : state :=
  {| thread_mem := thread_mem s; lock_mem := lock_mem s; ready_list := ready_list s;
     all_list := all_list s; blocked_sleeping_list := v;
     thread_mlfq := thread_mlfq s; idle_thread := idle_thread s;
     initial_thread := initial_thread s; load_avg := load_avg s;
     idle_ticks := idle_ticks s; kernel_ticks := kernel_ticks s;
     user_ticks := user_ticks s; thread_ticks := thread_ticks s;
     thread_mlfqs := thread_mlfqs s; next_tid := next_tid s;
     esp_page := esp_page s; ticks := ticks s; intr_level := intr_level s;
     in_external_intr := in_external_intr s;
     yield_on_return := yield_on_return s; free_pages := free_pages s |}.

Definition with_thread_mlfq (v : mlfq) (s : state) : state :=
  {| thread_mem := thread_mem s; lock_mem := lock_mem s; ready_list := ready_list s;
     all_list := all_list s; blocked_sleeping_list := blocked_sleeping_list s;
     thread_mlfq := v; idle_thread := idle_thread s;
     initial_thread := initial_thread s; load_avg := load_avg s;
     idle_ticks := idle_ticks s; kernel_ticks := kernel_ticks s;
     user_ticks := user_ticks s; thread_ticks := thread_ticks s;
     thread_mlfqs := thread_mlfqs s; next_tid := next_tid s;
     esp_page := esp_page s; ticks := ticks s; intr_level := intr_level s;
     in_external_intr := in_external_intr s;
     yield_on_return := yield_on_return s; free_pages := free_pages s |}.

Definition with_load_avg (v : fixed_point_t) (s : state) : state :=
  {| thread_mem := thread_mem s; lock_mem := lock_mem s; ready_list := ready_list s;
     all_list := all_list s; blocked_sleeping_list := blocked_sleeping_list s;
     thread_mlfq := thread_mlfq s; idle_thread := idle_thread s;
     initial_thread := initial_thread s; load_avg := v;
     idle_ticks := idle_ticks s; kernel_ticks := kernel_ticks s;
     user_ticks := user_ticks s; thread_ticks := thread_ticks s;
     thread_mlfqs := thread_mlfqs s; next_tid := next_tid s;
     esp_page := esp_page s; ticks := ticks s; intr_level := intr_level s;
     in_external_intr := in_external_intr s;
     yield_on_return := yield_on_return s; free_pages := free_pages s |}.

Definition with_idle_ticks (v : Z) (s : state) : state :=
  {| thread_mem := thread_mem s; lock_mem := lock_mem s; ready_list := ready_list s;
     all_list := all_list s; blocked_sleeping_list := blocked_sleeping_list s;
     thread_mlfq := thread_mlfq s; idle_thread := idle_thread s;
     initial_thread := initial_thread s; load_avg := load_avg s;
     idle_ticks := v; kernel_ticks := kernel_ticks s;
     user_ticks := user_ticks s; thread_ticks := thread_ticks s;
     thread_mlfqs := thread_mlfqs s; next_tid := next_tid s;
     esp_page := esp_page s; ticks := ticks s; intr_level := intr_level s;
     in_external_intr := in_external_intr s;
     yield_on_return := yield_on_return s; free_pages := free_pages s |}.

Definition with_kernel_ticks (v : Z) (s : state) : state :=
  {| thread_mem := thread_mem s; lock_mem := lock_mem s; ready_list := ready_list s;
     all_list := all_list s; blocked_sleeping_list := blocked_sleeping_list s;
     thread_mlfq := thread_mlfq s; idle_thread := idle_thread s;
     initial_thread := initial_thread s; load_avg := load_avg s;
     idle_ticks := idle_ticks s; kernel_ticks := v;
     user_ticks := user_ticks s; thread_ticks := thread_ticks s;
     thread_mlfqs := thread_mlfqs s; next_tid := next_tid s;
     esp_page := esp_page s; ticks := ticks s; intr_level := intr_level s;
     in_external_intr := in_external_intr s;
     yield_on_return := yield_on_return s; free_pages := free_pages s |}.

Definition with_thread_ticks (v : Z) (s : state) : state :=
  {| thread_mem := thread_mem s; lock_mem := lock_mem s; ready_list := ready_list s;
     all_list := all_list s; blocked_sleeping_list := blocked_sleeping_list s;
     thread_mlfq := thread_mlfq s; idle_thread := idle_thread s;
     initial_thread := initial_thread s; load_avg := load_avg s;
     idle_ticks := idle_ticks s; kernel_ticks := kernel_ticks s;
     user_ticks := user_ticks s; thread_ticks := v;
     thread_mlfqs := thread_mlfqs s; next_tid := next_tid s;
     esp_page := esp_page s; ticks := ticks s; intr_level := intr_level s;
     in_external_intr := in_external_intr s;
     yield_on_return := yield_on_return s; free_pages := free_pages s |}.

Definition with_next_tid (v : Z) (s : state) : state :=
  {| thread_mem := thread_mem s; lock_mem := lock_mem s; ready_list := ready_list s;
     all_list := all_list s; blocked_sleeping_list := blocked_sleeping_list s;
     thread_mlfq := thread_mlfq s; idle_thread := idle_thread s;
     initial_thread := initial_thread s; load_avg := load_avg s;
     idle_ticks := idle_ticks s; kernel_ticks := kernel_ticks s;
     user_ticks := user_ticks s; thread_ticks := thread_ticks s;
     thread_mlfqs := thread_mlfqs s; next_tid := v;
     esp_page := esp_page s; ticks := ticks s; intr_level := intr_level s;
     in_external_intr := in_external_intr s;
     yield_on_return := yield_on_return s; free_pages := free_pages s |}.

Definition with_esp_page (v : thread_ptr) (s : state) : state :=
  {| thread_mem := thread_mem s; lock_mem := lock_mem s; ready_list := ready_list s;
     all_list := all_list s; blocked_sleeping_list := blocked_sleeping_list s;
     thread_mlfq := thread_mlfq s; idle_thread := idle_thread s;
     initial_thread := initial_thread s; load_avg := load_avg s;
     idle_ticks := idle_ticks s; kernel_ticks := kernel_ticks s;
     user_ticks := user_ticks s; thread_ticks := thread_ticks s;
     thread_mlfqs := thread_mlfqs s; next_tid := next_tid s;
     esp_page := v; ticks := ticks s; intr_level := intr_level s;
     in_external_intr := in_external_intr s;
     yield_on_return := yield_on_return s; free_pages := free_pages s |}.

Definition with_intr_level (v : intr_level_t) (s : state) : state :=
  {| thread_mem := thread_mem s; lock_mem := lock_mem s; ready_list := ready_list s;
     all_list := all_list s; blocked_sleeping_list := blocked_sleeping_list s;
     thread_mlfq := thread_mlfq s; idle_thread := idle_thread s;
     initial_thread := initial_thread s; load_avg := load_avg s;
     idle_ticks := idle_ticks s; kernel_ticks := kernel_ticks s;
     user_ticks := user_ticks s; thread_ticks := thread_ticks s;
     thread_mlfqs := thread_mlfqs s; next_tid := next_tid s;
     esp_page := esp_page s; ticks := ticks s; intr_level := v;
     in_external_intr := in_external_intr s;
     yield_on_return := yield_on_return s; free_pages := free_pages s |}.

Definition with_yield_on_return (v : bool) (s : state) : state :=
  {| thread_mem := thread_mem s; lock_mem := lock_mem s; ready_list := ready_list s;
     all_list := all_list s; blocked_sleeping_list := blocked_sleeping_list s;
     thread_mlfq := thread_mlfq s; idle_thread := idle_thread s;
     initial_thread := initial_thread s; load_avg := load_avg s;
     idle_ticks := idle_ticks s; kernel_ticks := kernel_ticks s;
     user_ticks := user_ticks s; thread_ticks := thread_ticks s;
     thread_mlfqs := thread_mlfqs s; next_tid := next_tid s;
     esp_page := esp_page s; ticks := ticks s; intr_level := intr_level s;
     in_external_intr := in_external_intr s;
     yield_on_return := v; free_pages := free_pages s |}.

Definition with_free_pages (v : list thread_ptr) (s : state) : state :=
  {| thread_mem := thread_mem s; lock_mem := lock_mem s; ready_list := ready_list s;
     all_list := all_list s; blocked_sleeping_list := blocked_sleeping_list s;
     thread_mlfq := thread_mlfq s; idle_thread := idle_thread s;
     initial_thread := initial_thread s; load_avg := load_avg s;
     idle_ticks := idle_ticks s; kernel_ticks := kernel_ticks s;
     user_ticks := user_ticks s; thread_ticks := thread_ticks s;
     thread_mlfqs := thread_mlfqs s; next_tid := next_tid s;
     esp_page := esp_page s; ticks := ticks s; intr_level := intr_level s;
     in_external_intr := in_external_intr s;
     yield_on_return := yield_on_return s; free_pages := v |}.

Definition with_initial_thread (v : option thread_ptr) (s : state) : state :=
  {| thread_mem := thread_mem s; lock_mem := lock_mem s; ready_list := ready_list s;
     all_list := all_list s; blocked_sleeping_list := blocked_sleeping_list s;
     thread_mlfq := thread_mlfq s; idle_thread := idle_thread s;
     initial_thread := v; load_avg := load_avg s;
     idle_ticks := idle_ticks s; kernel_ticks := kernel_ticks s;
     user_ticks := user_ticks s; thread_ticks := thread_ticks s;
     thread_mlfqs := thread_mlfqs s; next_tid := next_tid s;
     esp_page := esp_page s; ticks := ticks s; intr_level := intr_level s;
     in_external_intr := in_external_intr s;
     yield_on_return := yield_on_return s; free_pages := free_pages s |}.

(** *** The monad of kernel code *)

Definition M (A : Type) : Type := state → option (A * state).

Definition ret {A} (a : A) : M A := λ s, Some (a, s).

Definition bind {A B} (m : M A) (k : A → M B) : M B :=
  λ s, match m s with
       | Some (a, s') => k a s'
       | None => None
       end.

Definition panic {A} : M A := λ _, None.

Definition ASSERT (b : bool) : M unit :=
  λ s, if b then Some (tt, s) else None.

Definition gets {A} (f : state → A) : M A := λ s, Some (f s, s).

Definition modify (f : state → state) : M unit := λ s, Some (tt, f s).

End Scheduler.

Declare Scope kernel_scope.
Delimit Scope kernel_scope with kernel.
Notation "x <- m ;; k" := (bind m (λ x, k))
  (at level 100, m at next level, right associativity) : kernel_scope.
Notation "m ;; k" := (bind m (λ _, k))
  (at level 100, right associativity) : kernel_scope.

Local Open Scope kernel_scope.

Section Operations.
Context `{FP : FixedPoint} `{CS : Constants}.

(** *** Memory access *)

Definition deref (t : thread_ptr) : M thread :=
  λ s, match thread_mem s !! t with
       | Some th => Some (th, s)
       | None => None
       end.

Definition deref_lock (l : lock_ptr) : M lock_t :=
  λ s, match lock_mem s !! l with
       | Some lk => Some (lk, s)
       | None => None
       end.

(** [t->field = v]: the thread must exist. *)
Definition update (t : thread_ptr) (f : thread → thread) : M unit :=
  th <- deref t;;
  modify (λ s, with_thread_mem (<[t := f th]> (thread_mem s)) s).

(** Following a pointer that may be NULL. *)
Definition nonnull {A} (p : option A) : M A :=
  match p with
  | Some a => ret a
  | None => panic
  end.

(** *** lib/kernel/list.c

    Modelled from the spec: lib/kernel/list.c is missing.  Section 4.B: a
    list with push-back, pop-front, remove-by-node and ordered insertion;
    insertion with a comparator puts the node before the first element it
    is strictly less than, so ties go after existing equals.  A list is
    the sequence of the threads whose node is linked in it. *)

Fixpoint list_insert_ordered (less : thread_ptr → thread_ptr → M bool)
    (elem : thread_ptr) (l : list thread_ptr) : M (list thread_ptr) :=
  match l with
  | [] => ret [elem]
  | e :: l' =>
      b <- less elem e;;
      if b then ret (elem :: e :: l')
      else (r <- list_insert_ordered less elem l';; ret (e :: r))
  end.

Definition list_push_back (l : list thread_ptr) (elem : thread_ptr) : list thread_ptr :=
  l ++ [elem].

Definition list_remove (elem : thread_ptr) (l : list thread_ptr) : list thread_ptr :=
  filter (λ e, e ≠ elem) l.

(** A thread has one node, [elem], for the ready list, the sleep list and
    the waiters of a semaphore together.  [list_insert] links a node by
    writing its two pointers and those of its new neighbours; the former
    neighbours of a node that was still linked are left pointing at it.
    So, walked from its head, a list that held [t] when [t->elem] was
    linked somewhere else shows the nodes up to [t] and then those that
    follow [t] in its new place: [relink_in t new_next l] is that walk,
    [after_elem t l] the nodes that follow [t] in [l].  Of the functions
    of thread.c that link [elem], [thread_yield] and [thread_sleep_until]
    link the node of the running thread and
    [thread_receive_donated_priority] unlinks the node first;
    [thread_unblock] links the node of whatever thread it is given. *)
Fixpoint relink_in (t : thread_ptr) (new_next l : list thread_ptr) : list thread_ptr :=
  match l with
  | [] => []
  | e :: l' =>
      if bool_decide (e = t) then t :: new_next else e :: relink_in t new_next l'
  end.

Fixpoint after_elem (t : thread_ptr) (l : list thread_ptr) : list thread_ptr :=
  match l with
  | [] => []
  | e :: l' => if bool_decide (e = t) then l' else after_elem t l'
  end.

(** The sleep list and the waiters once [t->elem] has been linked into
    the ready list. *)
Definition elem_relinked (t : thread_ptr) (s : state) : state :=
  with_lock_mem
    ((λ lk, set_waiters
              (relink_in t (after_elem t (ready_list s)) (waiters (lock_semaphore lk))) lk)
       <$> lock_mem s)
    (with_blocked_sleeping_list
       (relink_in t (after_elem t (ready_list s)) (blocked_sleeping_list s)) s).

(** *** threads/interrupt.c

    Modelled from the spec: threads/interrupt.c is missing.  Section 4.D:
    disable, enable, get-level, in-interrupt-context, yield-on-return. *)

Definition intr_get_level : M intr_level_t := gets intr_level.

Definition intr_set_level (level : intr_level_t) : M intr_level_t :=
  old_level <- gets intr_level;;
  modify (with_intr_level level);;
  ret old_level.

Definition intr_disable : M intr_level_t := intr_set_level INTR_OFF.
Definition intr_enable : M intr_level_t := intr_set_level INTR_ON.
Definition intr_context : M bool := gets in_external_intr.
Definition intr_yield_on_return : M unit := modify (with_yield_on_return true).

(** *** devices/timer.c and threads/palloc.c

    Modelled from the spec: both files are missing.  Section 6: a timer
    with a tick count; a page allocator handing out zeroed pages and
    taking single pages back. *)

Definition timer_ticks : M Z := gets ticks.

Definition palloc_get_page : M (option thread_ptr) :=
  l <- gets free_pages;;
  match l with
  | [] => ret None
  | p :: l' => modify (with_free_pages l');; ret (Some p)
  end.

Definition palloc_free_page (p : thread_ptr) : M unit :=
  modify (λ s, with_free_pages (p :: free_pages s)
                 (with_thread_mem (delete p (thread_mem s)) s)).

(** *** thread.c *)

Definition running_thread : M thread_ptr := gets esp_page.

Definition is_thread (t : option thread_ptr) : M bool :=
  match t with
  | None => ret false
  | Some p => th <- deref p;; ret (bool_decide (magic th = THREAD_MAGIC))
  end.

Definition thread_current : M thread_ptr :=
  t <- running_thread;;
  b <- is_thread (Some t);;
  ASSERT b;;
  th <- deref t;;
  ASSERT (bool_decide (status th = THREAD_RUNNING));;
  ret t.

(** [thread_get_effective_priority], on the record and through the
    pointer. *)
Definition effective_priority (th : thread) : Z :=
  if donated_priority th >? priority th then donated_priority th else priority th.

Definition thread_get_effective_priority (t : thread_ptr) : M Z :=
  th <- deref t;;
  ret (effective_priority th).

Definition sleeping_thread_less_func (a b : thread_ptr) : M bool :=
  thread_a <- deref a;;
  thread_b <- deref b;;
  ret (sleeping_wakeup_time (blocked thread_a) <? sleeping_wakeup_time (blocked thread_b)).

Definition priority_thread_less_func (a b : thread_ptr) : M bool :=
  pa <- thread_get_effective_priority a;;
  pb <- thread_get_effective_priority b;;
  ret (pa >? pb).

(** [mlfq_get_priority], on the record and through the pointer.  The C
    expression is evaluated in [int]; the model computes in Z. *)
Definition mlfq_priority (th : thread) : Z :=
  let unbound_priority :=
    PRI_MAX - fix_round (fix_div (recent_cpu th) (fix_int 4)) - nice th * 2 in
  if unbound_priority >? PRI_MAX then PRI_MAX
  else if unbound_priority <? 0 then 0
  else unbound_priority.

Definition mlfq_get_priority (t : thread_ptr) : M Z :=
  th <- deref t;;
  ret (mlfq_priority th).

(** [thread_mlfq.queues[i]]: an index outside the array has no meaning. *)
Definition queue_at (i : Z) : M (list thread_ptr) :=
  if bool_decide (0 ≤ i) then
    q <- gets (λ s, queues (thread_mlfq s) !! Z.to_nat i);;
    nonnull q
  else panic.

Definition queue_set (i : Z) (q : list thread_ptr) : M unit :=
  queue_at i;;
  modify (λ s, with_thread_mlfq
                 {| mlfq_size := mlfq_size (thread_mlfq s);
                    queues := <[Z.to_nat i := q]> (queues (thread_mlfq s)) |} s).

Definition mlfq_size_add (d : Z) : M unit :=
  modify (λ s, with_thread_mlfq
                 {| mlfq_size := mlfq_size (thread_mlfq s) + d;
                    queues := queues (thread_mlfq s) |} s).

(** The inner loop of [mlfq_update] walks queue [i] with a cursor whose
    successor is read before the node is moved.  The only change the loop
    makes to queue [i] is the removal of the node under the cursor (a
    moved node goes to a queue other than [i]), so the nodes visited are
    those of queue [i] at the start of the walk. *)
Fixpoint mlfq_update_queue (i : Z) (elems : list thread_ptr) : M unit :=
  match elems with
  | [] => ret tt
  | t :: next_elem =>
      new_priority <- mlfq_get_priority t;;
      (if bool_decide (new_priority ≠ i) then
         q <- queue_at i;;
         queue_set i (list_remove t q);;
         q' <- queue_at new_priority;;
         queue_set new_priority (list_push_back q' t)
       else ret tt);;
      mlfq_update_queue i next_elem
  end.

Fixpoint mlfq_update_from (indices : list Z) : M unit :=
  match indices with
  | [] => ret tt
  | i :: rest =>
      q <- queue_at i;;
      mlfq_update_queue i q;;
      mlfq_update_from rest
  end.

Definition mlfq_update : M unit :=
  mlfq_update_from (seqZ PRI_MIN MLFQ_QUEUE_SIZE).

Definition mlfq_add_thread (t : thread_ptr) : M unit :=
  mlfq_size_add 1;;
  prio <- mlfq_get_priority t;;
  q <- queue_at prio;;
  queue_set prio (list_push_back q t).

(** [thread_unblock] links [t->elem] into the ready list whether or not
    the node is still in the sleep list or among the waiters of a
    semaphore; its callers unlink it first.  Under MLFQ it links
    [t->mlfq_elem], which is in no other list. *)
Definition thread_unblock (t : thread_ptr) : M unit :=
  b <- is_thread (Some t);;
  ASSERT b;;
  old_level <- intr_disable;;
  th <- deref t;;
  ASSERT (bool_decide (status th = THREAD_BLOCKED));;
  mlfqs <- gets thread_mlfqs;;
  (if mlfqs then mlfq_add_thread t
   else
     l <- gets ready_list;;
     l' <- list_insert_ordered priority_thread_less_func t l;;
     modify (with_ready_list l');;
     modify (elem_relinked t));;
  update t (set_status THREAD_READY);;
  update t (λ th, set_blocked (set_reason UNKNOWN (blocked th)) th);;
  intr_set_level old_level;;
  ret tt.

(** Each round of the loop in [try_wake_up_sleeping_threads] that does not
    return pops one node of the sleep list, and [thread_unblock] adds
    none, so the number of rounds is at most the length of the list plus
    one; that is the budget the loop is given. *)
Fixpoint try_wake_up_loop (budget : nat) (now : Z) : M unit :=
  match budget with
  | O => panic
  | S budget' =>
      l <- gets blocked_sleeping_list;;
      match l with
      | [] => ret tt
      | t :: rest =>
          th <- deref t;;
          if sleeping_wakeup_time (blocked th) >? now then ret tt
          else
            modify (with_blocked_sleeping_list rest);;
            thread_unblock t;;
            try_wake_up_loop budget' now
      end
  end.

Definition try_wake_up_sleeping_threads : M unit :=
  now <- timer_ticks;;
  n <- gets (λ s, length (blocked_sleeping_list s));;
  try_wake_up_loop (S n) now.

(** The loop of [thread_tick] over [all_list], which it does not change. *)
Fixpoint recent_cpu_update_all (elems : list thread_ptr) : M unit :=
  match elems with
  | [] => ret tt
  | thread_it :: rest =>
      idle <- gets idle_thread;;
      (if bool_decide (Some thread_it = idle) then ret tt
       else
         la <- gets load_avg;;
         let recent_cpu_scale :=
           fix_div (fix_mul (fix_int 2) la)
                   (fix_add (fix_mul (fix_int 2) la) (fix_int 1)) in
         th <- deref thread_it;;
         update thread_it
           (set_recent_cpu
              (fix_add (fix_mul recent_cpu_scale (recent_cpu th))
                       (fix_int (nice th)))));;
      recent_cpu_update_all rest
  end.

(** [thread_ticks] is [unsigned]: the increment wraps at 2^32.  The tick
    statistics are [long long] and counted in Z. *)
Definition thread_tick : M unit :=
  t <- thread_current;;
  idle <- gets idle_thread;;
  (if bool_decide (Some t = idle)
   then modify (λ s, with_idle_ticks (idle_ticks s + 1) s)
   else modify (λ s, with_kernel_ticks (kernel_ticks s + 1) s));;
  (if bool_decide (Some t ≠ idle) then
     th <- deref t;;
     update t (set_recent_cpu (fix_increment (recent_cpu th)))
   else ret tt);;
  now <- timer_ticks;;
  mlfqs <- gets thread_mlfqs;;
  (if bool_decide (Z.rem now TIMER_FREQ = 0) && mlfqs then
     size <- gets (λ s, mlfq_size (thread_mlfq s));;
     let threads_ready_to_run :=
       if bool_decide (Some t ≠ idle) then size + 1 else size in
     la <- gets load_avg;;
     modify (with_load_avg
               (fix_add (fix_mul (fix_frac 59 60) la)
                        (fix_mul (fix_frac 1 60) (fix_int threads_ready_to_run))));;
     all <- gets all_list;;
     recent_cpu_update_all all;;
     mlfq_update
   else ret tt);;
  try_wake_up_sleeping_threads;;
  n <- gets thread_ticks;;
  modify (with_thread_ticks ((n + 1) mod 2 ^ 32));;
  if (n + 1) mod 2 ^ 32 >=? TIME_SLICE then intr_yield_on_return else ret tt.

(** [strlcpy (t->name, name, sizeof t->name)] with a 16-byte field. *)
Definition strlcpy_name (name : string) : string := String.substring 0 15 name.

(** [memset] leaves every field zero.  Both callers of [init_thread] set
    [recent_cpu] right after it; until then it holds [fix_int 0]. *)
Definition init_thread (t : thread_ptr) (name : string) (prio : Z) : M unit :=
  ASSERT (bool_decide (PRI_MIN ≤ prio ∧ prio ≤ PRI_MAX));;
  modify (λ s, with_thread_mem
    (<[t := {| tid := 0; status := THREAD_BLOCKED; name := strlcpy_name name;
               priority := prio; donated_priority := 0; nice := 0;
               recent_cpu := fix_int 0;
               blocked := {| reason := UNKNOWN; sleeping_wakeup_time := 0;
                             lock := None |};
               owned_locks := []; magic := THREAD_MAGIC |}]> (thread_mem s)) s);;
  old_level <- intr_disable;;
  modify (λ s, with_all_list (list_push_back (all_list s) t) s);;
  intr_set_level old_level;;
  ret tt.

(** [tid_lock] (threads/synch.c, missing) only serialises the counter; the
    model takes the increment as one step.  [tid_t] is [int], of 32
    bits: the counter is counted in Z, which is what the code computes as
    long as the counter is below 2^31 - 1. *)
Definition allocate_tid : M Z :=
  tid <- gets next_tid;;
  modify (with_next_tid (tid + 1));;
  ret tid.

Fixpoint mlfq_scan (indices : list Z) : M (option thread_ptr) :=
  match indices with
  | [] => panic
  | i :: rest =>
      q <- queue_at i;;
      match q with
      | [] => mlfq_scan rest
      | t :: q' =>
          mlfq_size_add (-1);;
          queue_set i q';;
          ret (Some t)
      end
  end.

Definition next_thread_to_run : M (option thread_ptr) :=
  mlfqs <- gets thread_mlfqs;;
  if mlfqs then
    size <- gets (λ s, mlfq_size (thread_mlfq s));;
    if size =? 0 then gets idle_thread
    else mlfq_scan (reverse (seqZ PRI_MIN MLFQ_QUEUE_SIZE))
  else
    l <- gets ready_list;;
    match l with
    | [] => gets idle_thread
    | t :: l' => modify (with_ready_list l');; ret (Some t)
    end.

Definition thread_schedule_tail (prev : option thread_ptr) : M unit :=
  cur <- running_thread;;
  level <- intr_get_level;;
  ASSERT (bool_decide (level = INTR_OFF));;
  update cur (set_status THREAD_RUNNING);;
  modify (with_thread_ticks 0);;
  match prev with
  | None => ret tt
  | Some p =>
      pth <- deref p;;
      init <- gets initial_thread;;
      if bool_decide (status pth = THREAD_DYING) && bool_decide (Some p ≠ init) then
        ASSERT (bool_decide (p ≠ cur));;
        palloc_free_page p
      else ret tt
  end.

(** [switch_threads (cur, next)]: the stack pointer moves to the page of
    [next]; the thread that resumes sees [cur] as the previous one. *)
Definition switch_threads (cur next : thread_ptr) : M (option thread_ptr) :=
  modify (with_esp_page next);;
  ret (Some cur).

Definition schedule : M unit :=
  cur <- running_thread;;
  next <- next_thread_to_run;;
  level <- intr_get_level;;
  ASSERT (bool_decide (level = INTR_OFF));;
  c <- deref cur;;
  ASSERT (bool_decide (status c ≠ THREAD_RUNNING));;
  b <- is_thread next;;
  ASSERT b;;
  next <- nonnull next;;
  prev <- (if bool_decide (cur ≠ next) then switch_threads cur next else ret None);;
  thread_schedule_tail prev.

(** What a function does after its call of [schedule] happens when its
    thread has the CPU again.  The model follows the kernel until
    [schedule] has handed the CPU over, so the rest of the caller is run
    only when [schedule] kept the caller running. *)
Definition after_schedule (cur : thread_ptr) (rest : M unit) : M unit :=
  t <- running_thread;;
  if bool_decide (t = cur) then rest else ret tt.

Definition thread_block : M unit :=
  c <- intr_context;;
  ASSERT (negb c);;
  level <- intr_get_level;;
  ASSERT (bool_decide (level = INTR_OFF));;
  cur <- thread_current;;
  update cur (set_status THREAD_BLOCKED);;
  schedule.

(** The initialiser names [reason] and [lock]; the other member is zero. *)
Definition thread_set_block_reason_waiting_on_lock (l : option lock_ptr) : M unit :=
  cur <- thread_current;;
  update cur (set_blocked {| reason := WAITING_ON_LOCK;
                             sleeping_wakeup_time := 0; lock := l |}).

Definition thread_sleep_until (wakeup : Z) : M unit :=
  cur <- thread_current;;
  c <- intr_context;;
  ASSERT (negb c);;
  old_level <- intr_disable;;
  update cur (set_status THREAD_BLOCKED);;
  update cur (λ th, set_blocked (set_reason SLEEPING (blocked th)) th);;
  update cur (λ th, set_blocked (set_sleeping_wakeup_time wakeup (blocked th)) th);;
  idle <- gets idle_thread;;
  (if bool_decide (Some cur ≠ idle) then
     l <- gets blocked_sleeping_list;;
     l' <- list_insert_ordered sleeping_thread_less_func cur l;;
     modify (with_blocked_sleeping_list l')
   else ret tt);;
  schedule;;
  after_schedule cur (intr_set_level old_level;; ret tt).

Definition thread_yield : M unit :=
  cur <- thread_current;;
  c <- intr_context;;
  ASSERT (negb c);;
  old_level <- intr_disable;;
  idle <- gets idle_thread;;
  (if bool_decide (Some cur ≠ idle) then
     mlfqs <- gets thread_mlfqs;;
     if mlfqs then mlfq_add_thread cur
     else
       l <- gets ready_list;;
       l' <- list_insert_ordered priority_thread_less_func cur l;;
       modify (with_ready_list l')
   else ret tt);;
  update cur (set_status THREAD_READY);;
  schedule;;
  after_schedule cur (intr_set_level old_level;; ret tt).

Definition thread_exit : M unit :=
  c <- intr_context;;
  ASSERT (negb c);;
  intr_disable;;
  cur <- thread_current;;
  modify (λ s, with_all_list (list_remove cur (all_list s)) s);;
  cur <- thread_current;;
  update cur (set_status THREAD_DYING);;
  schedule;;
  after_schedule cur panic.

(** [function] is the entry point ([None] for NULL); the three frames laid
    on the new stack are not modelled. *)
Definition thread_create (name : string) (prio : Z)
    (function : option positive) (aux : Z) : M Z :=
  ASSERT (bool_decide (function ≠ None));;
  t <- palloc_get_page;;
  match t with
  | None => ret TID_ERROR
  | Some t =>
      init_thread t name prio;;
      cur <- thread_current;;
      c <- deref cur;;
      update t (set_recent_cpu (recent_cpu c));;
      cur <- thread_current;;
      c <- deref cur;;
      update t (set_nice (nice c));;
      tid <- allocate_tid;;
      update t (set_tid tid);;
      thread_unblock t;;
      cur <- thread_current;;
      c <- deref cur;;
      mlfqs <- gets thread_mlfqs;;
      (if (prio >? priority c) && negb mlfqs then thread_yield else ret tt);;
      ret tid
  end.

Definition thread_set_priority (new_priority : Z) : M unit :=
  cur <- thread_current;;
  update cur (set_priority new_priority);;
  thread_yield.

Definition thread_get_priority : M Z :=
  cur <- thread_current;;
  thread_get_effective_priority cur.

(** [list_remove (&t->elem)] does not name the list: the node is unlinked
    from the list it is in.  A thread's [elem] is in the ready list, in
    the sleep list or among the waiters of a semaphore; unlinking a node
    that is in no list has no meaning. *)
Definition list_remove_elem (t : thread_ptr) : M unit :=
  λ s,
    if bool_decide (t ∈ ready_list s) then
      Some (tt, with_ready_list (list_remove t (ready_list s)) s)
    else if bool_decide (t ∈ blocked_sleeping_list s) then
      Some (tt, with_blocked_sleeping_list
                  (list_remove t (blocked_sleeping_list s)) s)
    else if bool_decide
              (map_Exists (λ _ lk, t ∈ waiters (lock_semaphore lk)) (lock_mem s)) then
      Some (tt, with_lock_mem
                  ((λ lk, set_waiters (list_remove t (waiters (lock_semaphore lk))) lk)
                     <$> lock_mem s) s)
    else None.

Definition thread_receive_donated_priority (t : thread_ptr) (donated : Z) : M unit :=
  th <- deref t;;
  if donated >? donated_priority th then
    update t (set_donated_priority donated);;
    if bool_decide (status th = THREAD_READY) then
      list_remove_elem t;;
      l <- gets ready_list;;
      l' <- list_insert_ordered priority_thread_less_func t l;;
      modify (with_ready_list l')
    else ret tt
  else ret tt.

(** The loop of [thread_donate_priority] follows holders for as long as
    they wait on a lock; [budget] bounds the number of its rounds. *)
Fixpoint thread_donate_loop (budget : nat) (cur_thread : thread_ptr) (prio : Z) : M unit :=
  match budget with
  | O => panic
  | S budget' =>
      c <- deref cur_thread;;
      if bool_decide (status c = THREAD_BLOCKED)
         && bool_decide (reason (blocked c) = WAITING_ON_LOCK) then
        l <- nonnull (lock (blocked c));;
        lk <- deref_lock l;;
        next <- nonnull (holder lk);;
        thread_receive_donated_priority next prio;;
        thread_donate_loop budget' next prio
      else ret tt
  end.

Definition thread_donate_priority (budget : nat) (receiver : thread_ptr) (prio : Z) : M unit :=
  thread_receive_donated_priority receiver prio;;
  thread_donate_loop budget receiver prio.

(** The two loops of [thread_calculate_donated_priority]; neither list
    changes while it is walked. *)
Fixpoint waiters_max (waiting : list thread_ptr) (max_priority : Z) : M Z :=
  match waiting with
  | [] => ret max_priority
  | waiting_thread :: rest =>
      waiter_effective_priority <- thread_get_effective_priority waiting_thread;;
      waiters_max rest
        (if waiter_effective_priority >? max_priority
         then waiter_effective_priority else max_priority)
  end.

Fixpoint owned_locks_max (owned : list lock_ptr) (max_priority : Z) : M Z :=
  match owned with
  | [] => ret max_priority
  | l :: rest =>
      lk <- deref_lock l;;
      m <- waiters_max (waiters (lock_semaphore lk)) max_priority;;
      owned_locks_max rest m
  end.

Definition thread_calculate_donated_priority (t : thread_ptr) : M Z :=
  th <- deref t;;
  owned_locks_max (owned_locks th) 0.

Definition thread_set_nice (n : Z) : M unit :=
  let n := if n >? 20 then 20 else if n <? -20 then -20 else n in
  cur <- thread_current;;
  update cur (set_nice n).

Definition thread_get_nice : M Z :=
  cur <- thread_current;;
  th <- deref cur;;
  ret (nice th).

Definition thread_get_load_avg : M Z :=
  la <- gets load_avg;;
  ret (fix_round (fix_mul la (fix_int 100))).

Definition thread_get_recent_cpu : M Z :=
  cur <- thread_current;;
  th <- deref cur;;
  ret (fix_round (fix_mul (recent_cpu th) (fix_int 100))).

(** The loop of [thread_init] over the queues of the array:
    [list_init] leaves each of them empty. *)
Fixpoint init_queues (indices : list Z) : M unit :=
  match indices with
  | [] => ret tt
  | i :: rest =>
      queue_set i [];;
      init_queues rest
  end.

(** [lock_init (&tid_lock)] is left out with the lock (see
    [allocate_tid]). *)
Definition thread_init : M unit :=
  level <- intr_get_level;;
  ASSERT (bool_decide (level = INTR_OFF));;
  modify (with_ready_list []);;
  modify (with_all_list []);;
  modify (with_blocked_sleeping_list []);;
  init_queues (seqZ PRI_MIN MLFQ_QUEUE_SIZE);;
  modify (λ s, with_thread_mlfq
                 {| mlfq_size := 0; queues := queues (thread_mlfq s) |} s);;
  t <- running_thread;;
  modify (with_initial_thread (Some t));;
  init_thread t "main" PRI_DEFAULT;;
  update t (set_status THREAD_RUNNING);;
  update t (set_recent_cpu (fix_int 0));;
  update t (set_nice 0);;
  tid <- allocate_tid;;
  update t (set_tid tid).

End Operations.

(** How kernel code is run symbolically: the monad's operations unfold
    when applied to a state, the functions of thread.c do not. *)
Arguments bind {_ _ _} _ _ _ /.
Arguments ret {_ _} _ _ /.
Arguments gets {_ _} _ _ /.
Arguments modify {_} _ _ /.
Arguments ASSERT {_} _ _ /.
Arguments panic {_ _} _ /.
Arguments nonnull {_ _} !_ _ /.
Arguments deref {_} _ _ /.
Arguments deref_lock {_} _ _ /.
Arguments thread_current : simpl never.
Arguments thread_unblock : simpl never.
Arguments thread_yield : simpl never.
Arguments schedule : simpl never.
Arguments thread_schedule_tail : simpl never.
Arguments next_thread_to_run : simpl never.
Arguments mlfq_add_thread : simpl never.
Arguments mlfq_update : simpl never.
Arguments try_wake_up_sleeping_threads : simpl never.
Arguments thread_receive_donated_priority : simpl never.
Arguments list_insert_ordered : simpl never.
Arguments list_remove_elem : simpl never.
Arguments init_thread : simpl never.
Arguments init_queues : simpl never.
Arguments thread_init : simpl never.

(** ** Specification vocabulary *)

Section Vocabulary.
Context `{FP : FixedPoint} `{CS : Constants}.

Definition clamp (lo hi n : Z) : Z := Z.max lo (Z.min n hi).

(** The pointer names a thread. *)
Definition valid (s : state) (t : thread_ptr) : Prop :=
  is_Some (thread_mem s !! t).

(** What [thread_current] asserts of the running thread. *)
Definition current_is (s : state) (th : thread) : Prop :=
  thread_mem s !! esp_page s = Some th
  ∧ magic th = THREAD_MAGIC
  ∧ status th = THREAD_RUNNING.

(** The effective priority of the thread at [t]. *)
Definition eff_of (s : state) (t : thread_ptr) : Z :=
  match thread_mem s !! t with
  | Some th => effective_priority th
  | None => 0
  end.

(** The threads waiting on a lock that [t] holds: the waiters of the
    semaphores of the locks in [t->owned_locks]. *)
Definition waiters_at (s : state) (l : lock_ptr) : list thread_ptr :=
  match lock_mem s !! l with
  | Some lk => waiters (lock_semaphore lk)
  | None => []
  end.

Definition waiting_on_owned (s : state) (t : thread_ptr) : list thread_ptr :=
  match thread_mem s !! t with
  | Some th => l ← owned_locks th; waiters_at s l
  | None => []
  end.

(** [t] is a thread, the locks it owns exist and their waiters are
    threads. *)
Definition owned_ok (s : state) (t : thread_ptr) : Prop :=
  ∃ th, thread_mem s !! t = Some th
        ∧ Forall (λ l, is_Some (lock_mem s !! l)
                       ∧ Forall (valid s) (waiters_at s l)) (owned_locks th).

(** [x] put into [l] before the first element that [p] holds of. *)
Fixpoint insert_before (p : thread_ptr → bool) (x : thread_ptr)
    (l : list thread_ptr) : list thread_ptr :=
  match l with
  | [] => [x]
  | e :: l' => if p e then x :: e :: l' else e :: insert_before p x l'
  end.

(** [l'] is [l] with [t] inserted behind the threads of at least its
    effective priority that precede the first thread of a strictly lower
    one: the order of the ready list, first in first out among equals. *)
Definition inserted_by_priority (s : state) (t : thread_ptr)
    (l l' : list thread_ptr) : Prop :=
  ∃ l1 l2, l = l1 ++ l2 ∧ l' = l1 ++ t :: l2
           ∧ (∀ e, e ∈ l1 → eff_of s t ≤ eff_of s e)
           ∧ (∀ e, head l2 = Some e → eff_of s e < eff_of s t).

(** The record of a thread that [thread_unblock] made ready. *)
Definition unblocked (th : thread) : thread :=
  set_blocked (set_reason UNKNOWN (blocked th)) (set_status THREAD_READY th).

(** The state after [t], whose record is [th], was put into the ready
    structure of the active policy. *)
Definition ready_insert (s : state) (t : thread_ptr) (th : thread) : state :=
  if thread_mlfqs s then
    with_thread_mlfq
      {| mlfq_size := mlfq_size (thread_mlfq s) + 1;
         queues := alter (λ q, q ++ [t]) (Z.to_nat (mlfq_priority th))
                     (queues (thread_mlfq s)) |} s
  else
    with_ready_list
      (insert_before (λ e, eff_of s t >? eff_of s e) t (ready_list s)) s.

(** The state after [thread_unblock] linked a node of [t]: under MLFQ
    the node is [mlfq_elem] and the bucket is all that changes; under the
    priority policy the node is [elem], and a sleep list or a wait list
    that still held it is relinked with it. *)
Definition unblock_insert (s : state) (t : thread_ptr) (th : thread) : state :=
  if thread_mlfqs s then ready_insert s t th
  else elem_relinked t (ready_insert s t th).

(** [t->elem] is in no list. *)
Definition elem_unlinked (s : state) (t : thread_ptr) : Prop :=
  (t ∉ ready_list s)
  ∧ (t ∉ blocked_sleeping_list s)
  ∧ ∀ l lk, lock_mem s !! l = Some lk → t ∉ waiters (lock_semaphore lk).

(** The node of [t] that [thread_unblock] links is in no list:
    [mlfq_elem] under MLFQ, [elem] under the priority policy. *)
Definition unlinked (s : state) (t : thread_ptr) : Prop :=
  if thread_mlfqs s then ∀ i q, queues (thread_mlfq s) !! i = Some q → t ∉ q
  else elem_unlinked s t.

(** C8 as the specification words it, in its last part: for a thread
    that is BLOCKED, whatever list its node is in, [thread_unblock]
    returns and the other scheduler state, the sleep list with it, is
    unchanged. *)
Definition unblock_leaves_sleep_list (s : state) (t : thread_ptr) : Prop :=
  ∀ th, thread_mem s !! t = Some th → magic th = THREAD_MAGIC →
        status th = THREAD_BLOCKED →
        ∃ s', thread_unblock t s = Some (tt, s')
              ∧ blocked_sleeping_list s' = blocked_sleeping_list s.

(** The ready structure of the active policy can take a thread: the
    bucket array has its 64 queues, or the threads of the ready list
    exist (the insertion compares with them). *)
Definition ready_structure_ok (s : state) : Prop :=
  if thread_mlfqs s then length (queues (thread_mlfq s)) = Z.to_nat MLFQ_QUEUE_SIZE
  else Forall (valid s) (ready_list s).

(** The record of the thread [thread_create] makes, as it is when the
    creator decides whether to yield: the tid is the next one, nice and
    recent_cpu are the creator's. *)
Definition created (s : state) (c : thread) (nm : string) (prio : Z) : thread :=
  {| tid := next_tid s; status := THREAD_READY; name := strlcpy_name nm;
     priority := prio; donated_priority := 0; nice := nice c;
     recent_cpu := recent_cpu c;
     blocked := {| reason := UNKNOWN; sleeping_wakeup_time := 0; lock := None |};
     owned_locks := []; magic := THREAD_MAGIC |}.

(** C1 as the specification words it, in its second half: when the new
    priority does not exceed the creator's effective priority there is no
    yield, so [thread_create] returns with the creator still on the
    CPU. *)
Definition no_yield_up_to_effective (s : state) (nm : string) (prio : Z)
    (function : option positive) (aux : Z) : Prop :=
  ∀ c, current_is s c → prio ≤ effective_priority c →
       ∃ tid s', thread_create nm prio function aux s = Some (tid, s')
                 ∧ esp_page s' = esp_page s.

(** The state with the bucket array replaced. *)
Definition set_queues (qs : list (list thread_ptr)) (s : state) : state :=
  with_thread_mlfq {| mlfq_size := mlfq_size (thread_mlfq s); queues := qs |} s.

(** The MLFQ priority of the thread at [t]. *)
Definition prio_of (s : state) (t : thread_ptr) : Z :=
  match thread_mem s !! t with
  | Some th => mlfq_priority th
  | None => 0
  end.

(** [t] is in bucket [i]. *)
Definition in_bucket (qs : list (list thread_ptr)) (i : nat) (t : thread_ptr) : Prop :=
  ∃ q, qs !! i = Some q ∧ t ∈ q.

(** What one round of the inner loop of [mlfq_update] does to the
    buckets, and what the walk of bucket [i] over the nodes [elems]
    does. *)
Definition move (p : thread_ptr → Z) (i : Z) (qs : list (list thread_ptr))
    (t : thread_ptr) : list (list thread_ptr) :=
  if bool_decide (p t ≠ i) then
    alter (λ q, q ++ [t]) (Z.to_nat (p t)) (alter (list_remove t) (Z.to_nat i) qs)
  else qs.

Fixpoint sweep (p : thread_ptr → Z) (indices : list Z)
    (qs : list (list thread_ptr)) : list (list thread_ptr) :=
  match indices with
  | [] => qs
  | i :: rest =>
      sweep p rest (foldl (move p i) qs (default [] (qs !! Z.to_nat i)))
  end.

(** The buckets below [k] hold what belongs there. *)
Definition settled (p : thread_ptr → Z) (k : nat) (qs : list (list thread_ptr)) : Prop :=
  ∀ j t, (j < k)%nat → in_bucket qs j t → p t = Z.of_nat j.

(** Every run of [m] that returns relates the state before it to the
    state after it by [R]. *)
Definition preserves {A} (R : state → state → Prop) (m : M A) : Prop :=
  ∀ s a s', m s = Some (a, s') → R s s'.

(** What scheduling leaves alone: the lists of sleeping and of all
    threads, the idle and the initial thread, the tid counter, the load
    average, the locks and the policy are unchanged; the ready structures
    gain no thread; a thread that is not dying stays, not dying, with a
    record that differs in its status at most; and no thread appears. *)
Record sched_frame (s s' : state) : Prop := {
  sf_sleeping : blocked_sleeping_list s' = blocked_sleeping_list s;
  sf_idle : idle_thread s' = idle_thread s;
  sf_initial : initial_thread s' = initial_thread s;
  sf_all : all_list s' = all_list s;
  sf_next_tid : next_tid s' = next_tid s;
  sf_load_avg : load_avg s' = load_avg s;
  sf_locks : lock_mem s' = lock_mem s;
  sf_mlfqs : thread_mlfqs s' = thread_mlfqs s;
  sf_ready : ∀ t, t ∈ ready_list s' → t ∈ ready_list s;
  sf_buckets : ∀ i t, in_bucket (queues (thread_mlfq s')) i t
                      → in_bucket (queues (thread_mlfq s)) i t;
  sf_stays : ∀ t th, thread_mem s !! t = Some th → status th ≠ THREAD_DYING →
               ∃ st, thread_mem s' !! t = Some (set_status st th)
                     ∧ st ≠ THREAD_DYING;
  sf_no_new : ∀ t th', thread_mem s' !! t = Some th' →
                ∃ th st, thread_mem s !! t = Some th ∧ th' = set_status st th;
}.

(** The state after [next_thread_to_run] popped [t] from bucket [j],
    whose other nodes are [q]. *)
Definition popped_bucket (j : nat) (q : list thread_ptr) (s : state) : state :=
  with_thread_mlfq
    {| mlfq_size := mlfq_size (thread_mlfq s) + -1;
       queues := <[j := q]> (queues (thread_mlfq s)) |} s.

(** The state after the switch to [n], whose record is [nth], and the
    state after the page of [p] went back to the allocator. *)
Definition switched (s1 : state) (n : thread_ptr) (nth : thread) : state :=
  with_thread_ticks 0
    (with_thread_mem (<[n := set_status THREAD_RUNNING nth]> (thread_mem s1))
       (with_esp_page n s1)).

Definition reaped (p : thread_ptr) (s : state) : state :=
  with_free_pages (p :: free_pages s) (with_thread_mem (delete p (thread_mem s)) s).

(** The state [schedule] leaves: [cur], whose record is [c], gave the CPU
    to [n]; its page is released when it is dying and not the initial
    thread. *)
Definition scheduled (s1 : state) (cur : thread_ptr) (c : thread)
    (n : thread_ptr) (nth : thread) : state :=
  if bool_decide (cur ≠ n) && bool_decide (status c = THREAD_DYING)
     && bool_decide (Some cur ≠ initial_thread s1)
  then reaped cur (switched s1 n nth)
  else switched s1 n nth.

(** Whether [schedule] releases the page of the thread that ran. *)
Definition reaps (s1 : state) (cur : thread_ptr) (c : thread) (n : thread_ptr) : bool :=
  bool_decide (cur ≠ n) && bool_decide (status c = THREAD_DYING)
  && bool_decide (Some cur ≠ initial_thread s1).

(** The ready list is in the order of the priority policy: no thread is
    behind a thread of a lower effective priority. *)
Definition ready_sorted (s : state) : Prop :=
  StronglySorted (λ a b, eff_of s b ≤ eff_of s a) (ready_list s).

(** The threads of the ready list are threads: their records exist and
    carry the magic number. *)
Definition ready_threads_ok (s : state) : Prop :=
  Forall (λ e, ∃ th, thread_mem s !! e = Some th ∧ magic th = THREAD_MAGIC)
         (ready_list s).

(** The state in which [thread_yield] calls [schedule]: interrupts are
    off, the caller [c] is queued again unless it is the idle thread, and
    its status is READY. *)
Definition yielding (s : state) (c : thread) : state :=
  with_thread_mem (<[esp_page s := set_status THREAD_READY c]> (thread_mem s))
    (with_intr_level INTR_OFF
       (if bool_decide (Some (esp_page s) ≠ idle_thread s)
        then ready_insert s (esp_page s) c else s)).

(** The state after a caller of [schedule] has run what follows the
    call: the caller [cur] restores the interrupt level only when it is
    the thread [n] that [schedule] put on the CPU. *)
Definition resumed (old : intr_level_t) (cur n : thread_ptr) (s : state) : state :=
  if bool_decide (n = cur) then with_intr_level old s else s.

(** [t] is in a ready structure: in the ready list or in a bucket. *)
Definition queued (s : state) (t : thread_ptr) : Prop :=
  t ∈ ready_list s ∨ ∃ i, in_bucket (queues (thread_mlfq s)) i t.

(** The state in which [thread_exit] calls [schedule]: interrupts are
    off, the caller [c] has left the list of all threads and is DYING. *)
Definition exiting (s : state) (c : thread) : state :=
  with_thread_mem (<[esp_page s := set_status THREAD_DYING c]> (thread_mem s))
    (with_all_list (list_remove (esp_page s) (all_list s))
       (with_intr_level INTR_OFF s)).

(** What the timer tick leaves to its last lines: the thread on the CPU,
    the tick statistics, the time slice, the request to yield, the idle
    thread, the timer, the list of all threads, the free pages, the tid
    counter and the policy. *)
Definition tick_fixed (s : state) :=
  (esp_page s, idle_ticks s, kernel_ticks s, user_ticks s, thread_ticks s,
   yield_on_return s, idle_thread s, ticks s, all_list s, free_pages s,
   next_tid s, thread_mlfqs s).

Definition tick_frame (s s' : state) : Prop := tick_fixed s' = tick_fixed s.

(** The size counter of the MLFQ counts the threads in the buckets, and
    the bucket array has its 64 queues. *)
Definition mlfq_counted (s : state) : Prop :=
  length (queues (thread_mlfq s)) = Z.to_nat MLFQ_QUEUE_SIZE
  ∧ mlfq_size (thread_mlfq s) = Z.of_nat (length (concat (queues (thread_mlfq s)))).

(** The tid counter is unchanged, no thread record appeared and every
    record kept its tid. *)
Definition tid_frame (s s' : state) : Prop :=
  next_tid s' = next_tid s
  ∧ ∀ t th', thread_mem s' !! t = Some th' →
             ∃ th, thread_mem s !! t = Some th ∧ tid th' = tid th.

(** Every thread has a tid below the counter: the tids handed out. *)
Definition tids_below (s : state) : Prop :=
  ∀ t th, thread_mem s !! t = Some th → tid th < next_tid s.

(** What no function of thread.c writes once the kernel runs: whether an
    interrupt handler is running, the policy and the idle thread. *)
Definition mode_fixed (s : state) := (in_external_intr s, thread_mlfqs s, idle_thread s).

Definition mode_frame (s s' : state) : Prop := mode_fixed s' = mode_fixed s.

(** The record of a thread that [thread_sleep_until] put to sleep until
    tick [wakeup]. *)
Definition slept (wakeup : Z) (c : thread) : thread :=
  set_blocked
    (set_sleeping_wakeup_time wakeup (set_reason SLEEPING (blocked c)))
    (set_status THREAD_BLOCKED c).

(** The record [thread_init] makes of the code that is running. *)
Definition main_thread (s : state) : thread :=
  {| tid := next_tid s; status := THREAD_RUNNING; name := "main";
     priority := PRI_DEFAULT; donated_priority := 0; nice := 0;
     recent_cpu := fix_int 0;
     blocked := {| reason := UNKNOWN; sleeping_wakeup_time := 0; lock := None |};
     owned_locks := []; magic := THREAD_MAGIC |}.

(** C2 as the specification words it: the result is an upper bound of the
    waiters' effective priorities, and it is 0 exactly when no thread
    waits on a lock [t] holds. *)
Definition donated_zero_iff_no_waiter (s : state) (t : thread_ptr) : Prop :=
  ∃ r, thread_calculate_donated_priority t s = Some (r, s)
       ∧ (∀ w, w ∈ waiting_on_owned s t → eff_of s w ≤ r)
       ∧ (r = 0 ↔ waiting_on_owned s t = []).

End Vocabulary.

Arguments set_queues : simpl never.
Arguments scheduled : simpl never.

(** ** A concrete instance, for running the model *)

Module Concrete.

(** Modelled from the spec: threads/fixed-point.h is missing.  Section 4.A:
    signed 17.14 fixed point held in a 32-bit integer, with integer to
    fixed point, sum, product, quotient, fraction n/d, rounding to the
    nearest integer and increment; overflow wraps as the 32-bit integer
    does. *)
Definition FIX_F : Z := 2 ^ 14.

Definition wrap32 (x : Z) : Z := (x + 2 ^ 31) mod 2 ^ 32 - 2 ^ 31.

Definition fix_17_14 : FixedPoint := {|
  fixed_point_t := Z;
  fix_int n := wrap32 (n * FIX_F);
  fix_frac n d := wrap32 (Z.quot (wrap32 (n * FIX_F) * FIX_F) (wrap32 (d * FIX_F)));
  fix_add x y := wrap32 (x + y);
  fix_mul x y := wrap32 (Z.quot (x * y) FIX_F);
  fix_div x y := wrap32 (Z.quot (x * FIX_F) y);
  fix_round x :=
    if 0 <=? x then Z.quot (x + FIX_F / 2) FIX_F else Z.quot (x - FIX_F / 2) FIX_F;
  fix_increment x := wrap32 (x + FIX_F);
|}.

(** Modelled from the spec: devices/timer.h and threads/thread.h are
    missing.  The glossary gives TIMER_FREQ as typically 100; section 3
    reserves the tid 0 for the error. *)
Definition constants : Constants := {|
  TIMER_FREQ := 100;
  TIMER_FREQ_pos := eq_refl;
  TID_ERROR := 0;
|}.

#[local] Existing Instance fix_17_14.
#[local] Existing Instance constants.

Definition mk_thread (id : Z) (st : thread_status) (prio donated : Z)
    (n : Z) (cpu : Z) (b : thread_blocked) (owned : list lock_ptr) : thread :=
  {| tid := id; status := st; name := "t"; priority := prio;
     donated_priority := donated; nice := n; recent_cpu := cpu;
     blocked := b; owned_locks := owned; magic := THREAD_MAGIC |}.

Definition not_blocked : thread_blocked :=
  {| reason := UNKNOWN; sleeping_wakeup_time := 0; lock := None |}.

Definition sleeping (wakeup : Z) : thread_blocked :=
  {| reason := SLEEPING; sleeping_wakeup_time := wakeup; lock := None |}.

Definition waiting_on (l : lock_ptr) : thread_blocked :=
  {| reason := WAITING_ON_LOCK; sleeping_wakeup_time := 0; lock := Some l |}.

Definition empty_queues : list (list thread_ptr) := replicate 64 [].

(** A kernel in which thread 1 runs, with the given threads, locks and
    lists, interrupts on and tick count [now]. *)
Definition kernel (threads : list (thread_ptr * thread))
    (locks : list (lock_ptr * lock_t))
    (ready all sleepers : list thread_ptr) (q : mlfq)
    (idle : option thread_ptr) (mlfqs : bool) (now : Z)
    (pages : list thread_ptr) : state :=
  {| thread_mem := list_to_map threads; lock_mem := list_to_map locks;
     ready_list := ready; all_list := all; blocked_sleeping_list := sleepers;
     thread_mlfq := q; idle_thread := idle; initial_thread := Some 1%positive;
     load_avg := 0; idle_ticks := 0; kernel_ticks := 0; user_ticks := 0;
     thread_ticks := 2; thread_mlfqs := mlfqs; next_tid := 10;
     esp_page := 1%positive; ticks := now; intr_level := INTR_ON;
     in_external_intr := false; yield_on_return := false;
     free_pages := pages |}.

(** One running thread of nice 5. *)
Definition s_nice : state :=
  kernel [(1%positive, mk_thread 1 THREAD_RUNNING 31 0 5 0 not_blocked [])]
         [] [] [1%positive] [] {| mlfq_size := 0; queues := empty_queues |}
         None false 7 [].

(** Thread 1 holds lock 1, on which thread 2 of priority PRI_MIN waits. *)
Definition s_waiter_min : state :=
  kernel [(1%positive, mk_thread 1 THREAD_RUNNING 31 0 0 0 not_blocked [1%positive]);
          (2%positive, mk_thread 2 THREAD_BLOCKED 0 0 0 0 (waiting_on 1%positive) [])]
         [(1%positive, {| holder := Some 1%positive;
                          lock_semaphore := {| waiters := [2%positive] |} |})]
         [] [1%positive; 2%positive] []
         {| mlfq_size := 0; queues := empty_queues |} None false 7 [].

(** Thread 1 holds locks 1 and 2; threads 2 (priority 40) and 3 (priority
    10, donated 50) wait on lock 1, thread 4 (priority 45) on lock 2. *)
Definition s_waiters : state :=
  kernel [(1%positive, mk_thread 1 THREAD_RUNNING 31 50 0 0 not_blocked
                         [1%positive; 2%positive]);
          (2%positive, mk_thread 2 THREAD_BLOCKED 40 0 0 0 (waiting_on 1%positive) []);
          (3%positive, mk_thread 3 THREAD_BLOCKED 10 50 0 0 (waiting_on 1%positive) []);
          (4%positive, mk_thread 4 THREAD_BLOCKED 45 0 0 0 (waiting_on 2%positive) [])]
         [(1%positive, {| holder := Some 1%positive;
                          lock_semaphore := {| waiters := [2%positive; 3%positive] |} |});
          (2%positive, {| holder := Some 1%positive;
                          lock_semaphore := {| waiters := [4%positive] |} |})]
         [] [1%positive; 2%positive; 3%positive; 4%positive] []
         {| mlfq_size := 0; queues := empty_queues |} None false 7 [].

(** Priority policy: thread 1 runs, threads 2 (priority 40) and 3
    (priority 20) are ready, thread 4 (priority 30, donated 35) sleeps
    until tick 9 and thread 5 (priority 40) until tick 12. *)
Definition s_prio : state :=
  kernel [(1%positive, mk_thread 1 THREAD_RUNNING 50 0 0 0 not_blocked []);
          (2%positive, mk_thread 2 THREAD_READY 40 0 0 0 not_blocked []);
          (3%positive, mk_thread 3 THREAD_READY 20 0 0 0 not_blocked []);
          (4%positive, mk_thread 4 THREAD_BLOCKED 30 35 0 0 (sleeping 9) []);
          (5%positive, mk_thread 5 THREAD_BLOCKED 40 0 0 0 (sleeping 12) [])]
         [] [2%positive; 3%positive]
         [1%positive; 2%positive; 3%positive; 4%positive; 5%positive]
         [4%positive; 5%positive]
         {| mlfq_size := 0; queues := empty_queues |} None false 7 [].

(** Priority policy: thread 1 (priority 10) runs and holds lock 1, on
    which thread 4 (priority 30) waits, so thread 1 has the donated
    priority 30; thread 2 (priority 30) is ready; page 3 is free. *)
Definition s_create : state :=
  kernel [(1%positive, mk_thread 1 THREAD_RUNNING 10 30 0 0 not_blocked [1%positive]);
          (2%positive, mk_thread 2 THREAD_READY 30 0 0 0 not_blocked []);
          (4%positive, mk_thread 4 THREAD_BLOCKED 30 0 0 0 (waiting_on 1%positive) [])]
         [(1%positive, {| holder := Some 1%positive;
                          lock_semaphore := {| waiters := [4%positive] |} |})]
         [2%positive] [1%positive; 2%positive; 4%positive] []
         {| mlfq_size := 0; queues := empty_queues |} None false 7 [3%positive].

(** The bucket array with the given queues at the given indices. *)
Definition buckets (l : list (nat * list thread_ptr)) : list (list thread_ptr) :=
  foldr (λ iq qs, <[iq.1 := iq.2]> qs) empty_queues l.

(** MLFQ: thread 1 runs; thread 2 (nice 5, recent_cpu 0) sits in bucket
    63, thread 3 (nice 0, recent_cpu 8) in bucket 10 and thread 4 (nice
    0, recent_cpu 0) in bucket 63; thread 5 sleeps until tick 100. *)
Definition s_mlfq : state :=
  kernel [(1%positive, mk_thread 1 THREAD_RUNNING 31 0 0 (fix_int 3) not_blocked []);
          (2%positive, mk_thread 2 THREAD_READY 31 0 5 0 not_blocked []);
          (3%positive, mk_thread 3 THREAD_READY 31 0 0 (fix_int 8) not_blocked []);
          (4%positive, mk_thread 4 THREAD_READY 31 0 0 0 not_blocked []);
          (5%positive, mk_thread 5 THREAD_BLOCKED 31 0 0 0 (sleeping 100) [])]
         [] []
         [1%positive; 2%positive; 3%positive; 4%positive; 5%positive]
         [5%positive]
         {| mlfq_size := 3;
            queues := buckets [(63%nat, [2%positive; 4%positive]);
                               (10%nat, [3%positive])] |}
         None true 100 [].

(** Priority policy, inside [thread_yield]: interrupts are off and thread
    1, still on the CPU, is READY and queued behind thread 2. *)
Definition s_sched : state :=
  with_intr_level INTR_OFF
    (kernel [(1%positive, mk_thread 1 THREAD_READY 31 0 0 0 not_blocked []);
             (2%positive, mk_thread 2 THREAD_READY 31 0 0 0 not_blocked [])]
            [] [2%positive; 1%positive] [1%positive; 2%positive] []
            {| mlfq_size := 0; queues := empty_queues |} None false 7 []).

(** Priority policy, inside [thread_exit]: interrupts are off, thread 2
    is on the CPU and DYING, thread 1 (the initial thread) is ready. *)
Definition s_dying : state :=
  with_esp_page 2%positive
    (with_intr_level INTR_OFF
       (kernel [(1%positive, mk_thread 1 THREAD_READY 31 0 0 0 not_blocked []);
                (2%positive, mk_thread 2 THREAD_DYING 31 0 0 0 not_blocked [])]
               [] [1%positive] [1%positive] []
               {| mlfq_size := 0; queues := empty_queues |} None false 7 [])).

(** Priority policy: thread 1 (priority 31) runs, threads 2 (priority 31)
    and 3 (priority 20) are ready. *)
Definition s_yield : state :=
  kernel [(1%positive, mk_thread 1 THREAD_RUNNING 31 0 0 0 not_blocked []);
          (2%positive, mk_thread 2 THREAD_READY 31 0 0 0 not_blocked []);
          (3%positive, mk_thread 3 THREAD_READY 20 0 0 0 not_blocked [])]
         [] [2%positive; 3%positive] [1%positive; 2%positive; 3%positive] []
         {| mlfq_size := 0; queues := empty_queues |} None false 7 [].

(** Priority policy: thread 2 runs, thread 1 (the initial thread) is
    ready. *)
Definition s_exit : state :=
  with_esp_page 2%positive
    (kernel [(1%positive, mk_thread 1 THREAD_READY 31 0 0 0 not_blocked []);
             (2%positive, mk_thread 2 THREAD_RUNNING 31 0 0 0 not_blocked [])]
            [] [1%positive] [1%positive; 2%positive] []
            {| mlfq_size := 0; queues := empty_queues |} None false 7 []).

(** Before [thread_init]: interrupts are off, no thread has a record,
    and the lists, the queues and the size counter hold leftovers. *)
Definition s_boot : state :=
  with_intr_level INTR_OFF
    (kernel [] [] [7%positive] [7%positive] [7%positive]
            {| mlfq_size := 5; queues := buckets [(3%nat, [7%positive])] |}
            None false 0 []).

End Concrete.

(** ** Reasoning about kernel code *)

Create Rewrite HintDb kernel.

Section ReadyInsert.
Context `{FP : FixedPoint} `{CS : Constants}.

(** [ready_insert] touches the ready list and the buckets only. *)
Lemma ready_insert_thread_mem s t th : thread_mem (ready_insert s t th) = thread_mem s.
Proof. unfold ready_insert. by destruct (thread_mlfqs s). Qed.
Lemma ready_insert_lock_mem s t th : lock_mem (ready_insert s t th) = lock_mem s.
Proof. unfold ready_insert. by destruct (thread_mlfqs s). Qed.
Lemma ready_insert_esp_page s t th : esp_page (ready_insert s t th) = esp_page s.
Proof. unfold ready_insert. by destruct (thread_mlfqs s). Qed.
Lemma ready_insert_thread_mlfqs s t th : thread_mlfqs (ready_insert s t th) = thread_mlfqs s.
Proof. unfold ready_insert. by destruct (thread_mlfqs s) eqn:E. Qed.
Lemma ready_insert_all_list s t th : all_list (ready_insert s t th) = all_list s.
Proof. unfold ready_insert. by destruct (thread_mlfqs s). Qed.
Lemma ready_insert_sleeping s t th :
  blocked_sleeping_list (ready_insert s t th) = blocked_sleeping_list s.
Proof. unfold ready_insert. by destruct (thread_mlfqs s). Qed.
Lemma ready_insert_idle_thread s t th : idle_thread (ready_insert s t th) = idle_thread s.
Proof. unfold ready_insert. by destruct (thread_mlfqs s). Qed.
Lemma ready_insert_load_avg s t th : load_avg (ready_insert s t th) = load_avg s.
Proof. unfold ready_insert. by destruct (thread_mlfqs s). Qed.
Lemma ready_insert_ticks s t th : ticks (ready_insert s t th) = ticks s.
Proof. unfold ready_insert. by destruct (thread_mlfqs s). Qed.
Lemma ready_insert_thread_ticks s t th : thread_ticks (ready_insert s t th) = thread_ticks s.
Proof. unfold ready_insert. by destruct (thread_mlfqs s). Qed.
Lemma ready_insert_intr_level s t th : intr_level (ready_insert s t th) = intr_level s.
Proof. unfold ready_insert. by destruct (thread_mlfqs s). Qed.
Lemma ready_insert_in_external_intr s t th :
  in_external_intr (ready_insert s t th) = in_external_intr s.
Proof. unfold ready_insert. by destruct (thread_mlfqs s). Qed.
Lemma ready_insert_next_tid s t th : next_tid (ready_insert s t th) = next_tid s.
Proof. unfold ready_insert. by destruct (thread_mlfqs s). Qed.
Lemma ready_insert_free_pages s t th : free_pages (ready_insert s t th) = free_pages s.
Proof. unfold ready_insert. by destruct (thread_mlfqs s). Qed.
Lemma ready_insert_initial_thread s t th :
  initial_thread (ready_insert s t th) = initial_thread s.
Proof. unfold ready_insert. by destruct (thread_mlfqs s). Qed.

End ReadyInsert.

#[global] Hint Rewrite
  @ready_insert_thread_mem @ready_insert_lock_mem @ready_insert_esp_page
  @ready_insert_thread_mlfqs @ready_insert_all_list @ready_insert_sleeping
  @ready_insert_idle_thread @ready_insert_load_avg @ready_insert_ticks
  @ready_insert_thread_ticks @ready_insert_intr_level
  @ready_insert_in_external_intr @ready_insert_next_tid
  @ready_insert_free_pages @ready_insert_initial_thread : kernel.

Section UnblockInsert.
Context `{FP : FixedPoint} `{CS : Constants}.

Lemma relink_in_absent t new_next l : t ∉ l → relink_in t new_next l = l.
Proof.
  induction l as [|e l IH]; [done|]. intros Hin. cbn.
  rewrite bool_decide_eq_false_2.
  - f_equal. apply IH. intros ?. apply Hin. by right.
  - intros ->. apply Hin. left.
Qed.

(** Linking a node that is in no list leaves the other lists alone. *)
Lemma elem_relinked_unlinked t s :
  t ∉ blocked_sleeping_list s →
  (∀ l lk, lock_mem s !! l = Some lk → t ∉ waiters (lock_semaphore lk)) →
  elem_relinked t s = s.
Proof.
  intros Hs Hw. unfold elem_relinked. rewrite relink_in_absent by done.
  assert ((λ lk, set_waiters
                   (relink_in t (after_elem t (ready_list s)) (waiters (lock_semaphore lk))) lk)
            <$> lock_mem s = lock_mem s) as ->.
  { apply map_eq. intros l. rewrite lookup_fmap.
    destruct (lock_mem s !! l) as [lk|] eqn:El; [|done]. cbn.
    rewrite relink_in_absent by (by eapply Hw). by destruct lk as [? []]. }
  by destruct s.
Qed.

Lemma unblock_insert_unlinked s t th :
  (thread_mlfqs s = false → elem_unlinked s t) →
  unblock_insert s t th = ready_insert s t th.
Proof.
  unfold unblock_insert. destruct (thread_mlfqs s) eqn:E; [done|].
  intros Hu. destruct (Hu eq_refl) as (_ & Hs & Hw).
  apply elem_relinked_unlinked.
  - by rewrite ready_insert_sleeping.
  - intros l lk. rewrite ready_insert_lock_mem. apply Hw.
Qed.

(** [unblock_insert] differs from [ready_insert] in the sleep list and
    the waiters at most. *)
Lemma unblock_insert_thread_mem s t th : thread_mem (unblock_insert s t th) = thread_mem s.
Proof. unfold unblock_insert, ready_insert. by destruct (thread_mlfqs s). Qed.
Lemma unblock_insert_esp_page s t th : esp_page (unblock_insert s t th) = esp_page s.
Proof. unfold unblock_insert, ready_insert. by destruct (thread_mlfqs s). Qed.
Lemma unblock_insert_thread_mlfqs s t th :
  thread_mlfqs (unblock_insert s t th) = thread_mlfqs s.
Proof. unfold unblock_insert, ready_insert. by destruct (thread_mlfqs s) eqn:E. Qed.
Lemma unblock_insert_all_list s t th : all_list (unblock_insert s t th) = all_list s.
Proof. unfold unblock_insert, ready_insert. by destruct (thread_mlfqs s). Qed.
Lemma unblock_insert_idle_thread s t th : idle_thread (unblock_insert s t th) = idle_thread s.
Proof. unfold unblock_insert, ready_insert. by destruct (thread_mlfqs s). Qed.
Lemma unblock_insert_intr_level s t th : intr_level (unblock_insert s t th) = intr_level s.
Proof. unfold unblock_insert, ready_insert. by destruct (thread_mlfqs s). Qed.
Lemma unblock_insert_next_tid s t th : next_tid (unblock_insert s t th) = next_tid s.
Proof. unfold unblock_insert, ready_insert. by destruct (thread_mlfqs s). Qed.
Lemma unblock_insert_ready_list s t th :
  ready_list (unblock_insert s t th) = ready_list (ready_insert s t th).
Proof. unfold unblock_insert, ready_insert. by destruct (thread_mlfqs s). Qed.
Lemma unblock_insert_thread_mlfq s t th :
  thread_mlfq (unblock_insert s t th) = thread_mlfq (ready_insert s t th).
Proof. unfold unblock_insert, ready_insert. by destruct (thread_mlfqs s). Qed.
Lemma unblock_insert_mlfq s t th :
  thread_mlfqs s = true → unblock_insert s t th = ready_insert s t th.
Proof. unfold unblock_insert. by intros ->. Qed.

End UnblockInsert.

#[global] Hint Rewrite
  @unblock_insert_thread_mem @unblock_insert_esp_page @unblock_insert_thread_mlfqs
  @unblock_insert_all_list @unblock_insert_idle_thread @unblock_insert_intr_level
  @unblock_insert_next_tid : kernel.

Ltac kstep :=
  repeat first
    [ progress cbn
    | progress autorewrite with kernel
    | rewrite bool_decide_eq_true_2 by (done || lia)
    | rewrite bool_decide_eq_false_2 by (done || lia)
    | rewrite lookup_insert_eq
    | rewrite lookup_insert_ne by done
    | match goal with
      | E : ?m !! ?k = Some _ |- context [?m !! ?k] => rewrite E
      end ].

Section MonadFacts.
Context `{FP : FixedPoint} `{CS : Constants}.

Lemma bind_inv {A B} (m : M A) (k : A → M B) s r :
  bind m k s = Some r → ∃ a s1, m s = Some (a, s1) ∧ k a s1 = Some r.
Proof.
  cbn. destruct (m s) as [[a s1]|]; [|done]. eauto.
Qed.

Lemma update_Some s t th f :
  thread_mem s !! t = Some th →
  update t f s = Some (tt, with_thread_mem (<[t := f th]> (thread_mem s)) s).
Proof. intros E. unfold update. by kstep. Qed.

Lemma thread_current_Some s th :
  current_is s th → thread_current s = Some (esp_page s, s).
Proof.
  intros (E & Hm & Hs). unfold thread_current, running_thread, is_thread.
  by kstep.
Qed.

(** [thread_current] on a state whose running thread is [c]. *)
Lemma thread_current_run s th :
  thread_mem s !! esp_page s = Some th →
  magic th = THREAD_MAGIC →
  status th = THREAD_RUNNING →
  thread_current s = Some (esp_page s, s).
Proof. intros. by apply (thread_current_Some s th). Qed.

Lemma clamp_spec lo hi n :
  lo ≤ hi →
  clamp lo hi n = if n >? hi then hi else if n <? lo then lo else n.
Proof.
  intros Hle. unfold clamp.
  destruct (Z.gtb_spec n hi); [lia|].
  destruct (Z.ltb_spec n lo); lia.
Qed.

End MonadFacts.

Ltac kcurrent c :=
  match goal with
  | |- context [thread_current ?s'] =>
      rewrite (thread_current_run s' c) by (kstep; done)
  end.

(** ** The nice value *)

Section Nice.
Context `{FP : FixedPoint} `{CS : Constants}.

(** C9: for every n, [thread_set_nice n] stores clamp(n, -20, 20) as the
    nice value of the running thread and changes nothing else: the state
    after it is the state before it with that one field of that one
    thread replaced; [thread_get_nice] then returns clamp(n, -20, 20). *)
Theorem thread_set_nice_get_nice (n : Z) (s : state) (th : thread) :
  current_is s th →
  let s' := with_thread_mem
              (<[esp_page s := set_nice (clamp (-20) 20 n) th]> (thread_mem s)) s in
  thread_set_nice n s = Some (tt, s')
  ∧ thread_get_nice s' = Some (clamp (-20) 20 n, s').
Proof.
  intros Hc s'. split.
  - unfold thread_set_nice. kstep.
    rewrite (thread_current_Some s th Hc). kstep.
    destruct Hc as (E & _ & _). rewrite (update_Some _ _ _ _ E).
    subst s'. by rewrite clamp_spec.
  - assert (Hc' : current_is s' (set_nice (clamp (-20) 20 n) th)).
    { destruct Hc as (E & Hm & Hs). subst s'. unfold current_is. cbn.
      by rewrite lookup_insert_eq. }
    unfold thread_get_nice. kstep.
    rewrite (thread_current_Some _ _ Hc'). by kstep.
Qed.

End Nice.

(** ** Ordered insertion *)

Section Insertion.
Context `{FP : FixedPoint} `{CS : Constants}.

Lemma list_insert_ordered_run less p x l s :
  (∀ e, e ∈ l → less x e s = Some (p e, s)) →
  list_insert_ordered less x l s = Some (insert_before p x l, s).
Proof.
  induction l as [|e l IH]; intros Hless; [done|].
  change (list_insert_ordered less x (e :: l) s) with
    ((b <- less x e;;
      if b then ret (x :: e :: l)
      else (r <- list_insert_ordered less x l;; ret (e :: r))) s).
  cbn. rewrite (Hless e) by (apply elem_of_cons; by left).
  destruct (p e); [done|].
  cbn. rewrite IH; [done|]. intros e' Hin. apply Hless, elem_of_cons. by right.
Qed.

Lemma insert_before_split p x l :
  ∃ l1 l2, l = l1 ++ l2 ∧ insert_before p x l = l1 ++ x :: l2
           ∧ (∀ e, e ∈ l1 → p e = false)
           ∧ (∀ e, head l2 = Some e → p e = true).
Proof.
  induction l as [|e l (l1 & l2 & -> & E & H1 & H2)]; cbn.
  - exists [], []. split_and!; [done..| |done]. intros e Hin. by apply elem_of_nil in Hin.
  - destruct (p e) eqn:Ee.
    + exists [], (e :: l1 ++ l2). split_and!; [done..| |].
      * intros e' Hin. by apply elem_of_nil in Hin.
      * by intros e' [= <-].
    + exists (e :: l1), l2. split_and!; [done| |  |done].
      * by rewrite E.
      * intros e' [->|Hin]%elem_of_cons; auto.
Qed.

Lemma elem_of_insert_before p x l e :
  e ∈ insert_before p x l ↔ e = x ∨ e ∈ l.
Proof.
  destruct (insert_before_split p x l) as (l1 & l2 & -> & -> & _).
  rewrite !elem_of_app, elem_of_cons. tauto.
Qed.

Lemma priority_thread_less_func_run s a b :
  valid s a → valid s b →
  priority_thread_less_func a b s = Some (eff_of s a >? eff_of s b, s).
Proof.
  intros [tha Ea] [thb Eb]. unfold priority_thread_less_func, thread_get_effective_priority, eff_of.
  by kstep.
Qed.

Lemma list_insert_ordered_priority s t l :
  valid s t → Forall (valid s) l →
  list_insert_ordered priority_thread_less_func t l s
  = Some (insert_before (λ e, eff_of s t >? eff_of s e) t l, s).
Proof.
  intros Ht Hl. apply list_insert_ordered_run. intros e Hin.
  apply priority_thread_less_func_run; [done|].
  by eapply Forall_forall in Hl.
Qed.

Lemma insert_before_by_priority s t l :
  inserted_by_priority s t l (insert_before (λ e, eff_of s t >? eff_of s e) t l).
Proof.
  destruct (insert_before_split (λ e, eff_of s t >? eff_of s e) t l)
    as (l1 & l2 & E & E' & H1 & H2).
  exists l1, l2. split_and!; [done..| |].
  - intros e Hin. specialize (H1 e Hin). cbn in H1. lia.
  - intros e He. specialize (H2 e He). cbn in H2. lia.
Qed.

End Insertion.

(** ** The MLFQ buckets *)

Section Buckets.
Context `{FP : FixedPoint} `{CS : Constants}.

Lemma mlfq_priority_range th : 0 ≤ mlfq_priority th ≤ PRI_MAX.
Proof.
  unfold mlfq_priority, PRI_MAX. cbn zeta.
  repeat case_match; lia.
Qed.

(** [mlfq_get_priority] is the clamp of the specification. *)
Lemma mlfq_priority_clamp th :
  mlfq_priority th
  = clamp 0 PRI_MAX
      (PRI_MAX - fix_round (fix_div (recent_cpu th) (fix_int 4)) - 2 * nice th).
Proof.
  unfold mlfq_priority, clamp, PRI_MAX. cbn zeta.
  repeat case_match; lia.
Qed.

Lemma queue_at_run s i q :
  0 ≤ i → queues (thread_mlfq s) !! Z.to_nat i = Some q →
  queue_at i s = Some (q, s).
Proof. intros Hi E. unfold queue_at. by kstep. Qed.

Lemma queue_set_run s i q q' :
  0 ≤ i → queues (thread_mlfq s) !! Z.to_nat i = Some q →
  queue_set i q' s
  = Some (tt, with_thread_mlfq
                {| mlfq_size := mlfq_size (thread_mlfq s);
                   queues := <[Z.to_nat i := q']> (queues (thread_mlfq s)) |} s).
Proof. intros Hi E. unfold queue_set. kstep. by rewrite (queue_at_run _ _ _ Hi E). Qed.

Lemma bucket_exists (qs : list (list thread_ptr)) th :
  length qs = Z.to_nat MLFQ_QUEUE_SIZE →
  is_Some (qs !! Z.to_nat (mlfq_priority th)).
Proof.
  intros Hlen. apply lookup_lt_is_Some. rewrite Hlen.
  pose proof (mlfq_priority_range th). unfold MLFQ_QUEUE_SIZE, PRI_MAX, PRI_MIN in *. lia.
Qed.

Lemma mlfq_add_thread_run s t th q :
  thread_mem s !! t = Some th →
  queues (thread_mlfq s) !! Z.to_nat (mlfq_priority th) = Some q →
  mlfq_add_thread t s
  = Some (tt, with_thread_mlfq
                {| mlfq_size := mlfq_size (thread_mlfq s) + 1;
                   queues := <[Z.to_nat (mlfq_priority th) := q ++ [t]]>
                               (queues (thread_mlfq s)) |} s).
Proof.
  intros E Eq. pose proof (mlfq_priority_range th) as [Hlo _].
  unfold mlfq_add_thread, mlfq_size_add, mlfq_get_priority. kstep.
  erewrite queue_at_run; [|done|by cbn]. cbn.
  erewrite queue_set_run; [|done|by cbn]. done.
Qed.

End Buckets.

(** ** Unblocking *)

Section Unblock.
Context `{FP : FixedPoint} `{CS : Constants}.

Lemma list_insert_as_alter {A} (f : A → A) (l : list A) (i : nat) (x : A) :
  l !! i = Some x → <[i := f x]> l = alter f i l.
Proof.
  revert i. induction l as [|y l IH]; intros [|i] E; try done.
  - cbn in E. by injection E as ->.
  - cbn in *. f_equal. by apply IH.
Qed.

(** The state [thread_unblock] leaves. *)
Lemma thread_unblock_run (s : state) (t : thread_ptr) (th : thread) :
  thread_mem s !! t = Some th →
  magic th = THREAD_MAGIC →
  status th = THREAD_BLOCKED →
  ready_structure_ok s →
  thread_unblock t s
  = Some (tt, with_thread_mem (<[t := unblocked th]> (thread_mem s))
                (unblock_insert s t th)).
Proof.
  intros E Hm Hs Hok. unfold ready_structure_ok in Hok.
  unfold unblock_insert, ready_insert.
  unfold thread_unblock, is_thread, intr_disable, intr_set_level. kstep.
  destruct (thread_mlfqs s) eqn:Emlfq.
  - destruct (bucket_exists (queues (thread_mlfq s)) th Hok) as [q Eq].
    rewrite (mlfq_add_thread_run _ _ th q) by done. cbn.
    unfold update. kstep.
    rewrite insert_insert_eq.
    rewrite (list_insert_as_alter (λ q', q' ++ [t]) (queues (thread_mlfq s)) _ q Eq).
    by destruct s.
  - cbn. rewrite (list_insert_ordered_priority (with_intr_level INTR_OFF s) t (ready_list s))
      by (done || by eexists).
    cbn. unfold update. kstep.
    rewrite insert_insert_eq. by destruct s.
Qed.


End Unblock.

(** ** Donation release: the donated priority recomputed *)

Section Calculate.
Context `{FP : FixedPoint} `{CS : Constants}.

Lemma foldl_max_ge (l : list Z) (m : Z) : m ≤ foldl Z.max m l.
Proof.
  revert m. induction l as [|x l IH]; intros m; cbn; [lia|].
  specialize (IH (Z.max m x)). lia.
Qed.

Lemma foldl_max_bound (l : list Z) (m x : Z) : x ∈ l → x ≤ foldl Z.max m l.
Proof.
  revert m. induction l as [|y l IH]; intros m Hin; cbn.
  - by apply elem_of_nil in Hin.
  - apply elem_of_cons in Hin as [->|Hin]; [|by apply IH].
    pose proof (foldl_max_ge l (Z.max m y)). lia.
Qed.

Lemma foldl_max_attained (l : list Z) (m : Z) :
  foldl Z.max m l = m ∨ foldl Z.max m l ∈ l.
Proof.
  revert m. induction l as [|y l IH]; intros m; cbn; [by left|].
  destruct (IH (Z.max m y)) as [E|Hin].
  - rewrite E. destruct (Z.max_spec m y) as [[_ ->]|[_ ->]]; [right|left]; [|done].
    apply elem_of_cons. by left.
  - right. apply elem_of_cons. by right.
Qed.

Lemma thread_get_effective_priority_Some s w :
  valid s w → thread_get_effective_priority w s = Some (eff_of s w, s).
Proof.
  intros [th E]. unfold thread_get_effective_priority, eff_of. by kstep.
Qed.

Lemma waiters_max_run s ws m :
  Forall (valid s) ws →
  waiters_max ws m s = Some (foldl Z.max m (eff_of s <$> ws), s).
Proof.
  intros Hv. revert m. induction Hv as [|w ws Hw _ IH]; intros m; [done|].
  cbn. rewrite (thread_get_effective_priority_Some _ _ Hw).
  replace (if eff_of s w >? m then eff_of s w else m) with (Z.max m (eff_of s w)).
  - apply IH.
  - destruct (Z.gtb_spec (eff_of s w) m); lia.
Qed.

Lemma owned_locks_max_run s ls m :
  Forall (λ l, is_Some (lock_mem s !! l) ∧ Forall (valid s) (waiters_at s l)) ls →
  owned_locks_max ls m s
  = Some (foldl Z.max m (eff_of s <$> (l ← ls; waiters_at s l)), s).
Proof.
  intros Hv. revert m. induction Hv as [|l ls [[lk E] Hw] _ IH]; intros m; [done|].
  cbn. unfold waiters_at in Hw |- * at 1. rewrite E in Hw |- *.
  rewrite (waiters_max_run _ _ _ Hw). rewrite IH.
  by rewrite fmap_app, foldl_app.
Qed.

(** C2 (amended): [thread_calculate_donated_priority t] returns the
    maximum of 0 and the effective priorities of the threads waiting on
    the locks [t] holds: it is an upper bound of them, it is 0 or the
    effective priority of one of them, and it is 0 when no thread waits.
    It is 0 exactly when every such waiter has an effective priority of at
    most 0, which a waiter of priority PRI_MIN has. *)
Theorem thread_calculate_donated_priority_max (s : state) (t : thread_ptr) :
  owned_ok s t →
  ∃ r, thread_calculate_donated_priority t s = Some (r, s)
       ∧ 0 ≤ r
       ∧ (∀ w, w ∈ waiting_on_owned s t → eff_of s w ≤ r)
       ∧ (r = 0 ∨ ∃ w, w ∈ waiting_on_owned s t ∧ eff_of s w = r)
       ∧ (r = 0 ↔ ∀ w, w ∈ waiting_on_owned s t → eff_of s w ≤ 0)
       ∧ (waiting_on_owned s t = [] → r = 0).
Proof.
  intros (th & E & Hv).
  exists (foldl Z.max 0 (eff_of s <$> waiting_on_owned s t)).
  assert (Hw : waiting_on_owned s t = l ← owned_locks th; waiters_at s l).
  { unfold waiting_on_owned. by rewrite E. }
  set (ws := waiting_on_owned s t) in *.
  assert (Hub : ∀ w, w ∈ ws → eff_of s w ≤ foldl Z.max 0 (eff_of s <$> ws)).
  { intros w Hin. apply foldl_max_bound. by apply list_elem_of_fmap_2. }
  split_and!.
  - unfold thread_calculate_donated_priority. kstep.
    rewrite (owned_locks_max_run _ _ _ Hv). by rewrite Hw.
  - apply foldl_max_ge.
  - done.
  - destruct (foldl_max_attained (eff_of s <$> ws) 0) as [->|Hin]; [by left|].
    right. apply list_elem_of_fmap in Hin as (w & Ew & Hin). eauto.
  - split.
    + intros E0 w Hin. rewrite <- E0. by apply Hub.
    + intros Hle. pose proof (foldl_max_ge (eff_of s <$> ws) 0) as Hge.
      destruct (foldl_max_attained (eff_of s <$> ws) 0) as [->|Hin]; [done|].
      apply list_elem_of_fmap in Hin as (w & Ew & Hin).
      specialize (Hle w Hin). lia.
  - by intros ->.
Qed.

End Calculate.

(** ** Creation *)

Section Create.
Context `{FP : FixedPoint} `{CS : Constants}.

Lemma init_thread_run s t nm prio :
  PRI_MIN ≤ prio ≤ PRI_MAX →
  init_thread t nm prio s
  = Some (tt, with_all_list (all_list s ++ [t])
                (with_thread_mem
                   (<[t := {| tid := 0; status := THREAD_BLOCKED;
                              name := strlcpy_name nm; priority := prio;
                              donated_priority := 0; nice := 0;
                              recent_cpu := fix_int 0;
                              blocked := {| reason := UNKNOWN;
                                            sleeping_wakeup_time := 0;
                                            lock := None |};
                              owned_locks := []; magic := THREAD_MAGIC |}]>
                      (thread_mem s)) s)).
Proof.
  intros Hp. unfold init_thread, intr_disable, intr_set_level, list_push_back.
  kstep. by destruct s.
Qed.

Lemma current_is_insert s t m c :
  current_is s c → t ≠ esp_page s →
  current_is (with_thread_mem (<[t := m]> (thread_mem s)) s) c.
Proof.
  intros (E & Hm & Hs) Hne. split; [|done]. cbn. by rewrite lookup_insert_ne.
Qed.

Lemma inserted_by_priority_ext s s' t l l' :
  (∀ x, eff_of s x = eff_of s' x) →
  inserted_by_priority s t l l' → inserted_by_priority s' t l l'.
Proof.
  intros Heq (l1 & l2 & E1 & E2 & H1 & H2). exists l1, l2.
  split_and!; [done..| |]; intros e He; rewrite <- !Heq; auto.
Qed.

(** C1 (amended): [thread_create] makes the new thread (with the next tid
    and the creator's nice and recent_cpu), puts it into the all-threads
    list and into the ready structure, and then yields exactly when the
    new priority strictly exceeds the creator's base priority and the
    policy is the priority policy; otherwise, and always under MLFQ, it
    returns without yielding.  The comparison is with the base priority,
    whatever the donated priority is. *)
Theorem thread_create_yields_above_base (s : state) (nm : string) (prio : Z)
    (f : positive) (aux : Z) (c : thread) (t : thread_ptr) (pages : list thread_ptr) :
  current_is s c →
  free_pages s = t :: pages →
  thread_mem s !! t = None →
  PRI_MIN ≤ prio ≤ PRI_MAX →
  ready_structure_ok s →
  ∃ s1,
    thread_mem s1 = <[t := created s c nm prio]> (thread_mem s)
    ∧ current_is s1 c
    ∧ all_list s1 = all_list s ++ [t]
    ∧ (if thread_mlfqs s then
         ∃ q, queues (thread_mlfq s) !! Z.to_nat (mlfq_priority (created s c nm prio)) = Some q
              ∧ queues (thread_mlfq s1)
                = <[Z.to_nat (mlfq_priority (created s c nm prio)) := q ++ [t]]>
                    (queues (thread_mlfq s))
       else inserted_by_priority s1 t (ready_list s) (ready_list s1))
    ∧ thread_create nm prio (Some f) aux s
      = if bool_decide (prio > priority c ∧ thread_mlfqs s = false)
        then (thread_yield;; ret (next_tid s)) s1
        else Some (next_tid s, s1).
Proof.
  intros Hc Hfree Hnone Hp Hok.
  assert (Hne : t ≠ esp_page s).
  { intros ->. destruct Hc as (E & _). congruence. }
  unfold thread_create, palloc_get_page, allocate_tid. kstep. rewrite Hfree. kstep.
  rewrite init_thread_run by done. kstep.
  destruct Hc as (E & Hm & Hs).
  kcurrent c. kstep. unfold update. kstep.
  kcurrent c. kstep.
  rewrite !insert_insert_eq.
  (* the state in which the new thread is unblocked *)
  match goal with
  | |- context [thread_unblock t ?s0'] => remember s0' as s0 eqn:Hs0
  end.
  assert (Hmem : thread_mem s0
                 = <[t := set_status THREAD_BLOCKED (created s c nm prio)]> (thread_mem s))
    by (by subst s0).
  assert (Hesp : esp_page s0 = esp_page s) by (by subst s0).
  assert (Hmlfqs : thread_mlfqs s0 = thread_mlfqs s) by (by subst s0).
  assert (Hq : thread_mlfq s0 = thread_mlfq s) by (by subst s0).
  assert (Hrl : ready_list s0 = ready_list s) by (by subst s0).
  assert (Hall : all_list s0 = all_list s ++ [t]) by (by subst s0).
  clear Hs0.
  assert (Hok0 : ready_structure_ok s0).
  { revert Hok. unfold ready_structure_ok. rewrite Hmlfqs, Hq, Hrl.
    destruct (thread_mlfqs s); [done|].
    intros Hok. eapply Forall_impl; [exact Hok|].
    intros e [x Ex]. unfold valid. rewrite Hmem.
    destruct (decide (t = e)) as [->|Hx].
    - rewrite lookup_insert_eq. by eexists.
    - rewrite lookup_insert_ne by done. by eexists. }
  rewrite (thread_unblock_run s0 t (set_status THREAD_BLOCKED (created s c nm prio)))
    by (done || (rewrite Hmem; apply lookup_insert_eq)).
  cbn [bind ret].
  set (s1 := with_thread_mem _ _).
  assert (Hmem1 : thread_mem s1 = <[t := created s c nm prio]> (thread_mem s)).
  { subst s1. cbn. rewrite Hmem. by rewrite insert_insert_eq. }
  assert (Hesp1 : esp_page s1 = esp_page s).
  { subst s1. cbn. by rewrite unblock_insert_esp_page. }
  assert (Hc1 : current_is s1 c).
  { split; [|done]. rewrite Hmem1, Hesp1. by rewrite lookup_insert_ne. }
  exists s1. split_and!; [done|done| | |].
  - subst s1. cbn. by rewrite unblock_insert_all_list.
  - subst s1. cbn. rewrite unblock_insert_thread_mlfq, unblock_insert_ready_list.
    unfold ready_insert. rewrite Hmlfqs, Hq, Hrl.
    destruct (thread_mlfqs s) eqn:Emlfq; cbn.
    + destruct (bucket_exists (queues (thread_mlfq s)) (created s c nm prio))
        as [q Eq]; [unfold ready_structure_ok in Hok; by rewrite Emlfq in Hok|].
      exists q. split; [done|]. symmetry.
      exact (list_insert_as_alter (λ q', q' ++ [t]) _ _ _ Eq).
    + eapply inserted_by_priority_ext; [|apply insert_before_by_priority].
      intros x. unfold eff_of. cbn. rewrite Hmem, insert_insert_eq.
      destruct (decide (t = x)) as [->|Hx]; [by rewrite !lookup_insert_eq|].
      by rewrite !lookup_insert_ne.
  - rewrite (thread_current_Some s1 c Hc1). cbn [bind ret deref gets].
    destruct Hc1 as (E1 & _). rewrite E1.
    assert (thread_mlfqs s1 = thread_mlfqs s) as ->.
    { subst s1. cbn. by rewrite unblock_insert_thread_mlfqs. }
    destruct (Z.gtb_spec prio (priority c)), (thread_mlfqs s) eqn:Emlfq; cbn.
    all: rewrite ?bool_decide_eq_true_2 by (split; [lia|done]).
    all: rewrite ?bool_decide_eq_false_2 by (intros [??]; (lia || done)).
    all: done.
Qed.

End Create.

(** ** The per-second pass over the buckets *)

Section Update.
Context `{FP : FixedPoint} `{CS : Constants}.

Lemma set_queues_thread_mem qs s : thread_mem (set_queues qs s) = thread_mem s.
Proof. done. Qed.
Lemma set_queues_queues qs s : queues (thread_mlfq (set_queues qs s)) = qs.
Proof. done. Qed.
Lemma set_queues_again qs qs' s : set_queues qs' (set_queues qs s) = set_queues qs' s.
Proof. done. Qed.
Lemma set_queues_id s : set_queues (queues (thread_mlfq s)) s = s.
Proof. by destruct s as [? ? ? ? ? [] ]. Qed.

Lemma queue_at_set_queues qs s i q :
  0 ≤ i → qs !! Z.to_nat i = Some q →
  queue_at i (set_queues qs s) = Some (q, set_queues qs s).
Proof. intros Hi E. by apply queue_at_run. Qed.

Lemma queue_set_set_queues qs s i q v :
  0 ≤ i → qs !! Z.to_nat i = Some q →
  queue_set i v (set_queues qs s) = Some (tt, set_queues (<[Z.to_nat i := v]> qs) s).
Proof. intros Hi E. by rewrite (queue_set_run _ _ q). Qed.

Lemma mlfq_get_priority_set_queues qs s t :
  valid s t →
  mlfq_get_priority t (set_queues qs s) = Some (prio_of s t, set_queues qs s).
Proof.
  intros [th E]. unfold mlfq_get_priority, prio_of. cbn.
  rewrite set_queues_thread_mem, E. done.
Qed.

Lemma prio_of_range s t : 0 ≤ prio_of s t < MLFQ_QUEUE_SIZE.
Proof.
  unfold prio_of, MLFQ_QUEUE_SIZE, PRI_MIN. destruct (thread_mem s !! t) as [th|].
  - pose proof (mlfq_priority_range th). lia.
  - unfold PRI_MAX. lia.
Qed.

Lemma move_length p i qs t : length (move p i qs t) = length qs.
Proof. unfold move. case_bool_decide; [|done]. by rewrite !length_alter. Qed.

Lemma mlfq_update_queue_run s i elems qs :
  0 ≤ i < MLFQ_QUEUE_SIZE →
  length qs = Z.to_nat MLFQ_QUEUE_SIZE →
  Forall (valid s) elems →
  mlfq_update_queue i elems (set_queues qs s)
  = Some (tt, set_queues (foldl (move (prio_of s) i) qs elems) s).
Proof.
  intros Hi Hlen Hv. revert qs Hlen.
  induction Hv as [|t elems Ht _ IH]; intros qs Hlen; [done|].
  cbn [mlfq_update_queue foldl bind].
  rewrite (mlfq_get_priority_set_queues _ _ _ Ht).
  pose proof (prio_of_range s t) as Hp.
  unfold move at 2. case_bool_decide as Hne; cbn [bind ret].
  - destruct (lookup_lt_is_Some_2 qs (Z.to_nat i)) as [q Eq]; [lia|].
    rewrite (queue_at_set_queues _ _ _ q) by (done || lia). cbn [bind].
    rewrite (queue_set_set_queues _ _ _ q) by (done || lia). cbn [bind].
    rewrite (list_insert_as_alter (list_remove t) _ _ _ Eq).
    set (qs1 := alter (list_remove t) (Z.to_nat i) qs).
    assert (Hlen1 : length qs1 = Z.to_nat MLFQ_QUEUE_SIZE) by (subst qs1; by rewrite length_alter).
    destruct (lookup_lt_is_Some_2 qs1 (Z.to_nat (prio_of s t))) as [q' Eq']; [lia|].
    rewrite (queue_at_set_queues _ _ _ q') by (done || lia). cbn [bind].
    rewrite (queue_set_set_queues _ _ _ q') by (done || lia). cbn [bind].
    unfold list_push_back.
    rewrite (list_insert_as_alter (λ q0, q0 ++ [t]) _ _ _ Eq').
    apply IH. by rewrite length_alter.
  - by apply IH.
Qed.

Lemma sweep_length p indices qs : length (sweep p indices qs) = length qs.
Proof.
  revert qs. induction indices as [|i rest IH]; intros qs; [done|].
  cbn. rewrite IH. generalize (default [] (qs !! Z.to_nat i)). intros l.
  revert qs. induction l as [|t l IHl]; intros qs; [done|].
  cbn. by rewrite IHl, move_length.
Qed.

Lemma foldl_move_length p i l qs : length (foldl (move p i) qs l) = length qs.
Proof.
  revert qs. induction l as [|t l IHl]; intros qs; [done|].
  cbn. by rewrite IHl, move_length.
Qed.

Lemma foldl_move_valid s p i l qs :
  Forall (valid s) l → Forall (Forall (valid s)) qs →
  Forall (Forall (valid s)) (foldl (move p i) qs l).
Proof.
  intros Hl. revert qs. induction Hl as [|t l Ht _ IH]; intros qs Hqs; [done|].
  cbn. apply IH. unfold move. case_bool_decide; [|done].
  apply Forall_alter; [apply Forall_alter; [done|]|].
  - intros q _ Hq. unfold list_remove. apply Forall_forall.
    intros x [_ Hx]%list_elem_of_filter. by eapply Forall_forall in Hq.
  - intros q _ Hq. apply Forall_app. split; [done|]. by constructor.
Qed.

Lemma mlfq_update_from_run s indices qs :
  Forall (λ i, 0 ≤ i < MLFQ_QUEUE_SIZE) indices →
  length qs = Z.to_nat MLFQ_QUEUE_SIZE →
  Forall (Forall (valid s)) qs →
  mlfq_update_from indices (set_queues qs s)
  = Some (tt, set_queues (sweep (prio_of s) indices qs) s).
Proof.
  intros Hi. revert qs. induction Hi as [|i rest Hi _ IH]; intros qs Hlen Hv; [done|].
  cbn [mlfq_update_from sweep bind].
  destruct (lookup_lt_is_Some_2 qs (Z.to_nat i)) as [q Eq]; [lia|].
  rewrite (queue_at_set_queues _ _ _ q) by (done || lia). cbn [bind].
  assert (Hq : Forall (valid s) q).
  { eapply Forall_lookup_1 in Hv; [|exact Eq]. done. }
  rewrite mlfq_update_queue_run by done. cbn [bind].
  rewrite Eq. cbn [default]. apply IH.
  - by rewrite foldl_move_length.
  - by apply foldl_move_valid.
Qed.

(** One node [x] of bucket [i] visited. *)
Lemma in_bucket_move p i qs x j t :
  0 ≤ i → 0 ≤ p x → (Z.to_nat (p x) < length qs)%nat →
  in_bucket (move p i qs x) j t
  ↔ if decide (j = Z.to_nat i)
    then in_bucket qs j t ∧ ¬ (t = x ∧ p x ≠ i)
    else in_bucket qs j t ∨ (t = x ∧ p x ≠ i ∧ j = Z.to_nat (p x)).
Proof.
  intros Hi Hp Hlt. unfold move, in_bucket. case_bool_decide as Hne.
  - assert (Hnat : Z.to_nat (p x) ≠ Z.to_nat i) by lia.
    destruct (decide (j = Z.to_nat i)) as [->|Hji].
    + rewrite list_lookup_alter_ne by done. rewrite list_lookup_alter_eq.
      destruct (qs !! Z.to_nat i) as [q|]; cbn.
      * split.
        -- intros (q' & [= <-] & Hin). unfold list_remove in Hin.
           apply list_elem_of_filter in Hin as [Htx Hin]. split; [eauto|]. tauto.
        -- intros [(q' & [= <-] & Hin) Hnot]. eexists. split; [done|].
           apply list_elem_of_filter. split; [|done]. intros ->. tauto.
      * split; [by intros (? & ? & _)|by intros [(? & ? & _) _]].
    + destruct (decide (j = Z.to_nat (p x))) as [->|Hpj].
      * rewrite list_lookup_alter_eq, list_lookup_alter_ne by done.
        destruct (lookup_lt_is_Some_2 qs (Z.to_nat (p x)) Hlt) as [q Eq].
        rewrite Eq. cbn. split.
        -- intros (q' & [= <-] & Hin). apply elem_of_app in Hin as [Hin|Hin].
           ++ left. eauto.
           ++ apply list_elem_of_singleton in Hin. right. done.
        -- intros [(q' & [= <-] & Hin)|(-> & _)]; eexists; (split; [done|]);
             apply elem_of_app; [by left|right; by apply list_elem_of_singleton].
      * rewrite !list_lookup_alter_ne by done.
        split; [by left|]. intros [?|(_ & _ & ->)]; done.
  - assert (p x = i) as Hpi by (destruct (decide (p x = i)); [done|contradiction]).
    destruct (decide (j = Z.to_nat i)); [|split; [by left|]; intros [?|(_ & ? & _)]; done].
    split; [|by intros [? _]]. intros H. split; [done|]. intros [_ ?]. done.
Qed.

(** The walk of bucket [i] over the nodes [l]. *)
Lemma in_bucket_foldl_move p i l qs j t :
  0 ≤ i → (∀ x, 0 ≤ p x ∧ (Z.to_nat (p x) < length qs)%nat) →
  in_bucket (foldl (move p i) qs l) j t
  ↔ if decide (j = Z.to_nat i)
    then in_bucket qs j t ∧ ¬ (t ∈ l ∧ p t ≠ i)
    else in_bucket qs j t ∨ (t ∈ l ∧ p t ≠ i ∧ j = Z.to_nat (p t)).
Proof.
  intros Hi Hp. revert qs Hp. induction l as [|x l IH]; intros qs Hp.
  - cbn. destruct (decide (j = Z.to_nat i)); split; try tauto.
    + intros H. split; [done|]. intros [Hin _]. by apply elem_of_nil in Hin.
    + intros [H|[Hin _]]; [done|]. by apply elem_of_nil in Hin.
  - cbn [foldl]. rewrite IH by (intros y; rewrite move_length; apply Hp).
    pose proof (Hp x) as [Hpx Hlt].
    pose proof (in_bucket_move p i qs x j t Hi Hpx Hlt) as Hstep.
    destruct (decide (j = Z.to_nat i)); rewrite Hstep.
    + rewrite elem_of_cons. split.
      * intros [[Hin Hx] Hl]. split; [done|]. intros [[->|Hin'] Hne]; tauto.
      * intros [Hin Hnot]. split_and!; [done| |]; intros [? ?]; apply Hnot; split;
          subst; auto.
    + rewrite elem_of_cons. split.
      * intros [[Hin|(-> & Hne & ->)]|(Hin & Hne & ->)]; auto.
      * intros [Hin|([->|Hin] & Hne & ->)]; auto.
Qed.

Lemma settled_step p k qs :
  (∀ x, 0 ≤ p x ∧ (Z.to_nat (p x) < length qs)%nat) →
  settled p k qs →
  settled p (S k)
    (foldl (move p (Z.of_nat k)) qs (default [] (qs !! Z.to_nat (Z.of_nat k)))).
Proof.
  intros Hp Hs j t Hj Hin.
  apply in_bucket_foldl_move in Hin; [|lia|done].
  rewrite Nat2Z.id in Hin.
  destruct (decide (j = k)) as [->|Hjk].
  - destruct Hin as [(q & Eq & Hin) Hnot]. rewrite Eq in Hnot. cbn in Hnot.
    destruct (decide (p t = Z.of_nat k)); [done|]. exfalso. apply Hnot. done.
  - destruct Hin as [Hin|(_ & _ & ->)].
    + apply Hs; [lia|done].
    + pose proof (Hp t). lia.
Qed.

Lemma members_step p k qs t :
  (∀ x, 0 ≤ p x ∧ (Z.to_nat (p x) < length qs)%nat) →
  (∃ j, in_bucket
          (foldl (move p (Z.of_nat k)) qs (default [] (qs !! Z.to_nat (Z.of_nat k)))) j t)
  ↔ (∃ j, in_bucket qs j t).
Proof.
  intros Hp. rewrite Nat2Z.id. split.
  - intros [j Hin]. apply in_bucket_foldl_move in Hin; [|lia|done].
    rewrite Nat2Z.id in Hin.
    destruct (decide (j = k)) as [->|Hjk]; [destruct Hin as [Hin _]; eauto|].
    destruct Hin as [Hin|(Hin & _ & _)]; [eauto|].
    exists k. unfold in_bucket. destruct (qs !! k) as [q|]; [eauto|].
    by apply elem_of_nil in Hin.
  - intros [j Hin].
    destruct (decide (t ∈ default [] (qs !! k) ∧ p t ≠ Z.of_nat k)) as [[Hl Hne]|Hnot].
    + exists (Z.to_nat (p t)). apply in_bucket_foldl_move; [lia|done|].
      rewrite Nat2Z.id. pose proof (Hp t).
      rewrite decide_False by lia. right. done.
    + exists j. apply in_bucket_foldl_move; [lia|done|].
      rewrite Nat2Z.id. destruct (decide (j = k)); [done|by left].
Qed.

Lemma sweep_settled p k n qs :
  (∀ x, 0 ≤ p x ∧ (Z.to_nat (p x) < length qs)%nat) →
  settled p k qs →
  settled p (k + n) (sweep p (seqZ (Z.of_nat k) (Z.of_nat n)) qs)
  ∧ ∀ t, (∃ j, in_bucket (sweep p (seqZ (Z.of_nat k) (Z.of_nat n)) qs) j t)
         ↔ (∃ j, in_bucket qs j t).
Proof.
  revert k qs. induction n as [|n IH]; intros k qs Hp Hs.
  - cbn. by rewrite Nat.add_0_r.
  - rewrite seqZ_cons by lia. cbn [sweep].
    replace (Z.succ (Z.of_nat k)) with (Z.of_nat (S k)) by lia.
    replace (Z.pred (Z.of_nat (S n))) with (Z.of_nat n) by lia.
    destruct (IH (S k)
      (foldl (move p (Z.of_nat k)) qs (default [] (qs !! Z.to_nat (Z.of_nat k)))))
      as [Hset Hmem].
    + intros x. rewrite foldl_move_length. apply Hp.
    + by apply settled_step.
    + split.
      * by replace (k + S n)%nat with (S k + n)%nat by lia.
      * intros t. rewrite Hmem. by apply members_step.
Qed.

(** C4: after [mlfq_update] every thread of the MLFQ buckets is in the
    bucket whose index is its MLFQ priority, the clamp of
    PRI_MAX - round(recent_cpu / 4) - 2 * nice to 0..PRI_MAX taken from
    its recent_cpu and nice as they are; the pass changes the bucket
    array only, and the buckets hold the same threads as before. *)
Theorem mlfq_update_settles (s : state) :
  length (queues (thread_mlfq s)) = Z.to_nat MLFQ_QUEUE_SIZE →
  Forall (Forall (valid s)) (queues (thread_mlfq s)) →
  ∃ qs, mlfq_update s = Some (tt, set_queues qs s)
        ∧ length qs = Z.to_nat MLFQ_QUEUE_SIZE
        ∧ (∀ i t, in_bucket qs i t →
             ∃ th, thread_mem s !! t = Some th
                   ∧ Z.of_nat i = mlfq_priority th
                   ∧ Z.of_nat i
                     = clamp 0 PRI_MAX
                         (PRI_MAX - fix_round (fix_div (recent_cpu th) (fix_int 4))
                          - 2 * nice th))
        ∧ (∀ t, (∃ i, in_bucket qs i t)
                ↔ (∃ i, in_bucket (queues (thread_mlfq s)) i t)).
Proof.
  intros Hlen Hv.
  set (qs0 := queues (thread_mlfq s)) in *.
  assert (Hp : ∀ x, 0 ≤ prio_of s x ∧ (Z.to_nat (prio_of s x) < length qs0)%nat).
  { intros x. pose proof (prio_of_range s x). rewrite Hlen. lia. }
  destruct (sweep_settled (prio_of s) 0 (Z.to_nat MLFQ_QUEUE_SIZE) qs0 Hp)
    as [Hset Hmem].
  { intros j t Hj. lia. }
  exists (sweep (prio_of s) (seqZ PRI_MIN MLFQ_QUEUE_SIZE) qs0).
  change (Z.of_nat (Z.to_nat MLFQ_QUEUE_SIZE)) with MLFQ_QUEUE_SIZE in Hset, Hmem.
  change (Z.of_nat 0) with PRI_MIN in Hset, Hmem.
  split_and!.
  - unfold mlfq_update. rewrite <- (set_queues_id s) at 1.
    apply mlfq_update_from_run; [|done..].
    apply Forall_forall. intros i Hi%elem_of_seqZ. unfold PRI_MIN in Hi. lia.
  - by rewrite sweep_length.
  - intros i t Hin.
    assert (Hi : (i < Z.to_nat MLFQ_QUEUE_SIZE)%nat).
    { destruct Hin as (q & Eq & _). apply lookup_lt_Some in Eq.
      by rewrite sweep_length, Hlen in Eq. }
    pose proof (Hset i t Hi Hin) as Hpt.
    assert (Hold : ∃ j, in_bucket qs0 j t) by (apply Hmem; eauto).
    destruct Hold as (j & q & Eq & Hq).
    eapply Forall_lookup_1 in Hv; [|exact Eq].
    eapply Forall_forall in Hv; [|exact Hq]. destruct Hv as [th Eth].
    exists th. unfold prio_of in Hpt. rewrite Eth in Hpt.
    split_and!; [done|done|]. rewrite <- mlfq_priority_clamp. done.
  - exact Hmem.
Qed.

End Update.

(** ** What scheduling leaves alone *)

Section Frames.
Context `{FP : FixedPoint} `{CS : Constants}.

Section Rules.
Context (R : state → state → Prop) (R_refl : ∀ s, R s s)
        (R_trans : ∀ s1 s2 s3, R s1 s2 → R s2 s3 → R s1 s3).

Lemma preserves_ret {A} (a : A) : preserves R (ret a).
Proof using R_refl. intros s a' s' [= _ <-]. apply R_refl. Qed.

Lemma preserves_bind {A B} (m : M A) (k : A → M B) :
  preserves R m → (∀ a, preserves R (k a)) → preserves R (bind m k).
Proof using R_trans.
  intros Hm Hk s b s' Hrun. apply bind_inv in Hrun as (a & s1 & H1 & H2).
  eapply R_trans; [by eapply Hm|by eapply Hk].
Qed.

Lemma preserves_gets {A} (f : state → A) : preserves R (gets f).
Proof using R_refl. intros s a' s' [= _ <-]. apply R_refl. Qed.

Lemma preserves_ASSERT b : preserves R (ASSERT b).
Proof using R_refl. intros s a' s'. cbn. destruct b; [|done]. intros [= _ <-]. apply R_refl. Qed.

Lemma preserves_panic {A} : preserves R (@panic _ A).
Proof. intros s a' s'. done. Qed.

Lemma preserves_nonnull {A} (p : option A) : preserves R (nonnull p).
Proof using R_refl. destruct p; [apply preserves_ret|apply preserves_panic]. Qed.

Lemma preserves_deref t : preserves R (deref t).
Proof using R_refl.
  intros s a' s'. cbn. destruct (thread_mem s !! t); [|done]. intros [= _ <-]. apply R_refl.
Qed.

Lemma preserves_modify f : (∀ s, R s (f s)) → preserves R (modify f).
Proof. intros Hf s a' s' [= _ <-]. apply Hf. Qed.

Lemma preserves_if {A} (b : bool) (m1 m2 : M A) :
  preserves R m1 → preserves R m2 → preserves R (if b then m1 else m2).
Proof. by destruct b. Qed.

Lemma preserves_is_thread t : preserves R (is_thread t).
Proof using R_refl R_trans.
  destruct t; [|apply preserves_ret]. cbn [is_thread].
  apply preserves_bind; [apply preserves_deref|]. intros. apply preserves_ret.
Qed.

End Rules.

Lemma set_status_same (th : thread) : set_status (status th) th = th.
Proof. by destruct th. Qed.

Lemma sched_frame_refl s : sched_frame s s.
Proof.
  split; try done.
  - intros t th E Hs. exists (status th). by rewrite set_status_same.
  - intros t th E. exists th, (status th). by rewrite set_status_same.
Qed.

Lemma sched_frame_trans s1 s2 s3 :
  sched_frame s1 s2 → sched_frame s2 s3 → sched_frame s1 s3.
Proof.
  intros H1 H2. split.
  - rewrite (sf_sleeping _ _ H2). apply H1.
  - rewrite (sf_idle _ _ H2). apply H1.
  - rewrite (sf_initial _ _ H2). apply H1.
  - rewrite (sf_all _ _ H2). apply H1.
  - rewrite (sf_next_tid _ _ H2). apply H1.
  - rewrite (sf_load_avg _ _ H2). apply H1.
  - rewrite (sf_locks _ _ H2). apply H1.
  - rewrite (sf_mlfqs _ _ H2). apply H1.
  - intros t Ht. by apply (sf_ready _ _ H1), (sf_ready _ _ H2).
  - intros i t Ht. by apply (sf_buckets _ _ H1), (sf_buckets _ _ H2).
  - intros t th E Hs. destruct (sf_stays _ _ H1 t th E Hs) as (st & E' & Hst).
    destruct (sf_stays _ _ H2 t _ E' Hst) as (st' & E'' & Hst'). exists st'. done.
  - intros t th'' E''. destruct (sf_no_new _ _ H2 t th'' E'') as (th' & st' & E' & ->).
    destruct (sf_no_new _ _ H1 t th' E') as (th & st & E & ->). exists th, st'. done.
Qed.

(** A step that touches no thread record and none of the framed
    variables. *)
Lemma sched_frame_same s s' :
  thread_mem s' = thread_mem s →
  blocked_sleeping_list s' = blocked_sleeping_list s →
  idle_thread s' = idle_thread s →
  initial_thread s' = initial_thread s →
  all_list s' = all_list s →
  next_tid s' = next_tid s →
  load_avg s' = load_avg s →
  lock_mem s' = lock_mem s →
  thread_mlfqs s' = thread_mlfqs s →
  (∀ t, t ∈ ready_list s' → t ∈ ready_list s) →
  (∀ i t, in_bucket (queues (thread_mlfq s')) i t
          → in_bucket (queues (thread_mlfq s)) i t) →
  sched_frame s s'.
Proof.
  intros Hm. split; try done.
  - intros t th E Hs. exists (status th). by rewrite Hm, set_status_same.
  - intros t th E. rewrite Hm in E. exists th, (status th). by rewrite set_status_same.
Qed.

Lemma preserves_update_status t st :
  st ≠ THREAD_DYING → preserves sched_frame (update t (set_status st)).
Proof.
  intros Hst s a s' Hrun. unfold update in Hrun. cbn in Hrun.
  destruct (thread_mem s !! t) as [th|] eqn:E; [|done].
  simplify_eq. split; try done; cbn.
  - intros t' th' E' Hs'. destruct (decide (t = t')) as [->|Hne].
    + rewrite lookup_insert_eq. exists st. by simplify_eq.
    + rewrite lookup_insert_ne by done. exists (status th'). by rewrite set_status_same.
  - intros t' th' E'. destruct (decide (t = t')) as [->|Hne].
    + rewrite lookup_insert_eq in E'. simplify_eq. eauto.
    + rewrite lookup_insert_ne in E' by done. exists th', (status th').
      by rewrite set_status_same.
Qed.

Lemma in_bucket_tail qs i t q j x :
  qs !! i = Some (t :: q) → in_bucket (<[i := q]> qs) j x → in_bucket qs j x.
Proof.
  intros E (q' & Eq' & Hin). destruct (decide (i = j)) as [->|Hne].
  - rewrite list_lookup_insert_eq in Eq' by (by eapply lookup_lt_Some).
    injection Eq' as <-. exists (t :: q). split; [done|]. by apply elem_of_cons; right.
  - rewrite list_lookup_insert_ne in Eq' by done. by exists q'.
Qed.

Lemma preserves_mlfq_scan indices : preserves sched_frame (mlfq_scan indices).
Proof.
  induction indices as [|i rest IH]; intros s a s' Hrun; [done|].
  cbn [mlfq_scan] in Hrun. apply bind_inv in Hrun as (q & s1 & Hq & Hrun).
  unfold queue_at in Hq. case_bool_decide as Hi; [|done]. cbn in Hq.
  destruct (queues (thread_mlfq s) !! Z.to_nat i) as [q0|] eqn:Eq; [|done].
  cbn in Hq. injection Hq as <- <-.
  destruct q0 as [|t q']; [by eapply IH|].
  unfold mlfq_size_add, queue_set, queue_at in Hrun. cbn in Hrun.
  rewrite bool_decide_eq_true_2 in Hrun by done. cbn in Hrun.
  rewrite Eq in Hrun. cbn in Hrun. simplify_eq.
  apply sched_frame_same; try done. cbn. intros j x.
  by apply (in_bucket_tail _ _ t).
Qed.

Lemma preserves_next_thread_to_run : preserves sched_frame next_thread_to_run.
Proof.
  intros s a s' Hrun. unfold next_thread_to_run in Hrun. cbn in Hrun.
  destruct (thread_mlfqs s); cbn in Hrun.
  - destruct (mlfq_size (thread_mlfq s) =? 0); cbn in Hrun.
    + simplify_eq. apply sched_frame_refl.
    + by eapply preserves_mlfq_scan.
  - destruct (ready_list s) as [|t l] eqn:El; cbn in Hrun; simplify_eq.
    + apply sched_frame_refl.
    + apply sched_frame_same; try done.
      cbn. intros x Hx. rewrite El. by apply elem_of_cons; right.
Qed.

Lemma preserves_thread_schedule_tail prev :
  preserves sched_frame (thread_schedule_tail prev).
Proof.
  unfold thread_schedule_tail, running_thread, intr_get_level.
  apply preserves_bind; [apply sched_frame_trans|by apply preserves_gets, sched_frame_refl|].
  intros cur.
  apply preserves_bind; [apply sched_frame_trans|by apply preserves_gets, sched_frame_refl|].
  intros level.
  apply preserves_bind; [apply sched_frame_trans|by apply preserves_ASSERT, sched_frame_refl|].
  intros _.
  apply preserves_bind; [apply sched_frame_trans|by apply preserves_update_status|].
  intros _.
  apply preserves_bind; [apply sched_frame_trans| |].
  { apply preserves_modify. intros s. by apply sched_frame_same. }
  intros _. destruct prev as [p|]; [|by apply preserves_ret, sched_frame_refl].
  intros s a s' Hrun. cbn in Hrun.
  destruct (thread_mem s !! p) as [pth|] eqn:Ep; [|done].
  destruct (bool_decide (status pth = THREAD_DYING)) eqn:Ed; cbn in Hrun.
  - apply bool_decide_eq_true_1 in Ed.
    destruct (bool_decide (Some p ≠ initial_thread s)); cbn in Hrun.
    + destruct (bool_decide (p ≠ cur)); [|done]. cbn in Hrun.
      unfold palloc_free_page in Hrun. cbn in Hrun. simplify_eq.
      split; try done; cbn.
      * intros t th E Hs. rewrite lookup_delete_ne by congruence.
        exists (status th). by rewrite set_status_same.
      * intros t th' E'. apply lookup_delete_Some in E' as [_ E'].
        exists th', (status th'). by rewrite set_status_same.
    + simplify_eq. apply sched_frame_refl.
  - simplify_eq. apply sched_frame_refl.
Qed.

Lemma preserves_schedule : preserves sched_frame schedule.
Proof.
  unfold schedule, running_thread, intr_get_level, switch_threads.
  repeat first
    [ apply preserves_thread_schedule_tail
    | apply preserves_next_thread_to_run
    | apply preserves_bind; [apply sched_frame_trans| |intros ?]
    | apply preserves_if
    | apply preserves_gets, sched_frame_refl
    | apply preserves_ASSERT, sched_frame_refl
    | apply preserves_deref, sched_frame_refl
    | apply preserves_is_thread; [apply sched_frame_refl|apply sched_frame_trans]
    | apply preserves_nonnull, sched_frame_refl
    | apply preserves_ret, sched_frame_refl ].
  apply preserves_modify. intros s. by apply sched_frame_same.
Qed.

Lemma preserves_after_schedule cur old_level :
  preserves sched_frame (after_schedule cur (intr_set_level old_level;; ret tt)).
Proof.
  intros s a s' Hrun. unfold after_schedule, intr_set_level in Hrun. cbn in Hrun.
  destruct (bool_decide (esp_page s = cur)); cbn in Hrun; simplify_eq.
  - by apply sched_frame_same.
  - apply sched_frame_refl.
Qed.

End Frames.

(** ** Choosing the next thread *)

Section Pick.
Context `{FP : FixedPoint} `{CS : Constants}.

(** The scan over the indices [above ++ j :: below]: the buckets of
    [above] are empty and bucket [j] starts with [t]. *)
Lemma mlfq_scan_run s above j below t q :
  Forall (λ k, 0 ≤ k ∧ queues (thread_mlfq s) !! Z.to_nat k = Some []) above →
  queues (thread_mlfq s) !! j = Some (t :: q) →
  mlfq_scan (above ++ Z.of_nat j :: below) s = Some (Some t, popped_bucket j q s).
Proof.
  intros Habove Ej. induction Habove as [|k above [Hk Ek] _ IH].
  - cbn [app mlfq_scan]. unfold queue_at, mlfq_size_add, queue_set, queue_at.
    cbn. rewrite !bool_decide_eq_true_2 by lia. cbn.
    rewrite !Nat2Z.id, Ej. cbn. rewrite Ej. cbn. done.
  - cbn [app mlfq_scan]. unfold queue_at at 1. cbn.
    rewrite bool_decide_eq_true_2 by done. cbn. rewrite Ek. cbn. apply IH.
Qed.

Lemma mlfq_scan_none s indices :
  Forall (λ k, 0 ≤ k ∧ queues (thread_mlfq s) !! Z.to_nat k = Some []) indices →
  mlfq_scan indices s = None.
Proof.
  induction 1 as [|k rest [Hk Ek] _ IH]; [done|].
  cbn [mlfq_scan]. unfold queue_at. cbn.
  rewrite bool_decide_eq_true_2 by done. cbn. rewrite Ek. cbn. apply IH.
Qed.

Lemma scan_order_succ (n : nat) :
  reverse (seqZ 0 (Z.of_nat (S n))) = Z.of_nat n :: reverse (seqZ 0 (Z.of_nat n)).
Proof.
  replace (Z.of_nat (S n)) with (Z.of_nat n + 1) by lia.
  rewrite seqZ_app by lia. rewrite reverse_app. done.
Qed.

(** The scan over the indices below [n], highest first. *)
Lemma mlfq_scan_inv s n r s1 :
  mlfq_scan (reverse (seqZ 0 (Z.of_nat n))) s = Some (r, s1) →
  ∃ j t q, (j < n)%nat
           ∧ queues (thread_mlfq s) !! j = Some (t :: q)
           ∧ (∀ k, (j < k < n)%nat → queues (thread_mlfq s) !! k = Some [])
           ∧ r = Some t ∧ s1 = popped_bucket j q s.
Proof.
  induction n as [|n IH]; [done|].
  rewrite scan_order_succ. cbn [mlfq_scan]. unfold queue_at at 1. cbn.
  rewrite bool_decide_eq_true_2 by lia. cbn. rewrite Nat2Z.id.
  destruct (queues (thread_mlfq s) !! n) as [[|t q]|] eqn:En; cbn; [| |done].
  - intros Hrun. destruct (IH Hrun) as (j & t & q & Hj & Ej & Ha & -> & ->).
    exists j, t, q. split_and!; [lia|done| |done|done].
    intros k Hk. destruct (decide (k = n)) as [->|]; [done|]. apply Ha. lia.
  - unfold mlfq_size_add, queue_set, queue_at. cbn.
    rewrite bool_decide_eq_true_2 by lia. cbn. rewrite Nat2Z.id, En. cbn.
    intros [= <- <-]. exists n, t, q. split_and!; [lia|done| |done|done].
    intros k Hk. lia.
Qed.

(** The indices scanned, highest first, split at [j]. *)
Lemma scan_order_split (j : nat) :
  (j < Z.to_nat MLFQ_QUEUE_SIZE)%nat →
  reverse (seqZ PRI_MIN MLFQ_QUEUE_SIZE)
  = reverse (seqZ (Z.of_nat j + 1) (MLFQ_QUEUE_SIZE - Z.of_nat j - 1))
    ++ Z.of_nat j :: reverse (seqZ 0 (Z.of_nat j)).
Proof.
  intros Hj. unfold PRI_MIN.
  replace MLFQ_QUEUE_SIZE
    with (Z.of_nat j + (1 + (MLFQ_QUEUE_SIZE - Z.of_nat j - 1))) at 1 by lia.
  rewrite seqZ_app by lia. rewrite seqZ_app by lia.
  rewrite !reverse_app. cbn. rewrite <- app_assoc. cbn.
  replace (0 + Z.of_nat j + 1) with (Z.of_nat j + 1) by lia. done.
Qed.

Lemma next_thread_to_run_mlfq_run s j t q :
  thread_mlfqs s = true →
  mlfq_size (thread_mlfq s) ≠ 0 →
  (j < Z.to_nat MLFQ_QUEUE_SIZE)%nat →
  queues (thread_mlfq s) !! j = Some (t :: q) →
  (∀ k, (j < k < Z.to_nat MLFQ_QUEUE_SIZE)%nat →
        queues (thread_mlfq s) !! k = Some []) →
  next_thread_to_run s = Some (Some t, popped_bucket j q s).
Proof.
  intros Hm Hsize Hj Ej Habove. unfold next_thread_to_run. cbn. rewrite Hm. cbn.
  destruct (Z.eqb_spec (mlfq_size (thread_mlfq s)) 0) as [|_]; [done|].
  rewrite (scan_order_split j Hj). apply mlfq_scan_run; [|done].
  apply Forall_forall. intros k Hk%elem_of_reverse%elem_of_seqZ.
  split; [lia|]. apply Habove. lia.
Qed.

Lemma next_thread_to_run_inv s r s1 :
  next_thread_to_run s = Some (r, s1) →
  (r = idle_thread s ∧ s1 = s
   ∧ if thread_mlfqs s then mlfq_size (thread_mlfq s) = 0 else ready_list s = [])
  ∨ (thread_mlfqs s = false
     ∧ ∃ t l, ready_list s = t :: l ∧ r = Some t ∧ s1 = with_ready_list l s)
  ∨ (thread_mlfqs s = true ∧ mlfq_size (thread_mlfq s) ≠ 0
     ∧ ∃ j t q, (j < Z.to_nat MLFQ_QUEUE_SIZE)%nat
                ∧ queues (thread_mlfq s) !! j = Some (t :: q)
                ∧ (∀ k, (j < k < Z.to_nat MLFQ_QUEUE_SIZE)%nat →
                        queues (thread_mlfq s) !! k = Some [])
                ∧ r = Some t ∧ s1 = popped_bucket j q s).
Proof.
  unfold next_thread_to_run. cbn. destruct (thread_mlfqs s); cbn.
  - destruct (Z.eqb_spec (mlfq_size (thread_mlfq s)) 0) as [E0|Hne]; cbn.
    + intros [= <- <-]. by left.
    + intros Hrun. right. right. split_and!; [done..|].
      change (seqZ PRI_MIN MLFQ_QUEUE_SIZE)
        with (seqZ 0 (Z.of_nat (Z.to_nat MLFQ_QUEUE_SIZE))) in Hrun.
      apply mlfq_scan_inv in Hrun as (j & t & q & Hj & Ej & Ha & -> & ->).
      by exists j, t, q.
  - destruct (ready_list s) as [|t l] eqn:El; cbn; intros [= <- <-].
    + by left.
    + right. left. split; [done|]. by exists t, l.
Qed.

(** [next_thread_to_run] changes the ready structures only. *)
Lemma next_thread_to_run_fields s r s1 :
  next_thread_to_run s = Some (r, s1) →
  s1 = with_ready_list (ready_list s1) (with_thread_mlfq (thread_mlfq s1) s).
Proof.
  intros Hrun. apply next_thread_to_run_inv in Hrun
    as [(_ & -> & _)|[(_ & t & l & _ & _ & ->)|(_ & _ & j & t & q & _ & _ & _ & _ & ->)]].
  - by destruct s.
  - by destruct s.
  - by destruct s.
Qed.

Lemma schedule_run s n s1 c nth :
  next_thread_to_run s = Some (Some n, s1) →
  intr_level s = INTR_OFF →
  thread_mem s !! esp_page s = Some c →
  status c ≠ THREAD_RUNNING →
  thread_mem s !! n = Some nth →
  magic nth = THREAD_MAGIC →
  schedule s = Some (tt, scheduled s1 (esp_page s) c n nth).
Proof.
  intros Hnext Hoff Ec Hc En Hm.
  pose proof (next_thread_to_run_fields _ _ _ Hnext) as Hs1.
  assert (Hmem : thread_mem s1 = thread_mem s) by (by rewrite Hs1).
  assert (Hesp : esp_page s1 = esp_page s) by (by rewrite Hs1).
  assert (Hlvl : intr_level s1 = intr_level s) by (by rewrite Hs1).
  clear Hs1.
  unfold schedule, running_thread, intr_get_level. cbn [bind gets].
  rewrite Hnext. cbn [bind gets ASSERT].
  repeat (progress (rewrite ?Hmem, ?Hlvl, ?Hoff); kstep).
  unfold scheduled, switched, reaped, thread_schedule_tail, running_thread,
    intr_get_level, switch_threads, update, palloc_free_page.
  destruct (decide (esp_page s = n)) as [<-|Hne].
  - rewrite (bool_decide_eq_false_2 (esp_page s ≠ esp_page s)) by auto. cbn.
    repeat (progress (rewrite ?Hmem, ?Hlvl, ?Hoff, ?Hesp); kstep).
    rewrite <- Hesp at 3. by destruct s1.
  - rewrite (bool_decide_eq_true_2 (esp_page s ≠ n)) by done. cbn.
    repeat (progress (rewrite ?Hmem, ?Hlvl, ?Hoff, ?Hesp); kstep).
    destruct (bool_decide (status c = THREAD_DYING)); cbn; [|done].
    destruct (bool_decide (Some (esp_page s) ≠ initial_thread s1)); cbn; [|done].
    done.
Qed.

Lemma schedule_inv s s' :
  schedule s = Some (tt, s') →
  ∃ n s1 c nth,
    next_thread_to_run s = Some (Some n, s1)
    ∧ intr_level s = INTR_OFF
    ∧ thread_mem s !! esp_page s = Some c
    ∧ status c ≠ THREAD_RUNNING
    ∧ thread_mem s !! n = Some nth
    ∧ magic nth = THREAD_MAGIC
    ∧ s' = scheduled s1 (esp_page s) c n nth.
Proof.
  intros Hrun. pose proof Hrun as Hrun0.
  unfold schedule, running_thread, intr_get_level in Hrun. cbn [bind gets] in Hrun.
  destruct (next_thread_to_run s) as [[next s1]|] eqn:Hnext; [|done].
  pose proof (next_thread_to_run_fields _ _ _ Hnext) as Hs1.
  assert (Hmem : thread_mem s1 = thread_mem s) by (by rewrite Hs1).
  assert (Hlvl : intr_level s1 = intr_level s) by (by rewrite Hs1).
  clear Hs1. cbn [bind gets ASSERT] in Hrun. rewrite Hlvl in Hrun.
  case_bool_decide as Hoff; [|done]. cbn in Hrun. rewrite Hmem in Hrun.
  destruct (thread_mem s !! esp_page s) as [c|] eqn:Ec; [|done]. cbn in Hrun.
  case_bool_decide as Hc; [|done]. cbn in Hrun.
  destruct next as [n|]; [|done]. cbn in Hrun. rewrite Hmem in Hrun.
  destruct (thread_mem s !! n) as [nth|] eqn:En; [|done]. cbn in Hrun.
  case_bool_decide as Hm; [|done].
  exists n, s1, c, nth. split_and!; try done.
  rewrite (schedule_run s n s1 c nth) in Hrun0 by done. by simplify_eq.
Qed.

End Pick.

(** ** The switch *)

Section Switch.
Context `{FP : FixedPoint} `{CS : Constants}.

Lemma scheduled_esp_page s1 cur c n nth : esp_page (scheduled s1 cur c n nth) = n.
Proof. unfold scheduled. by case_match. Qed.
Lemma scheduled_thread_ticks s1 cur c n nth : thread_ticks (scheduled s1 cur c n nth) = 0.
Proof. unfold scheduled. by case_match. Qed.
Lemma scheduled_intr_level s1 cur c n nth :
  intr_level (scheduled s1 cur c n nth) = intr_level s1.
Proof. unfold scheduled. by case_match. Qed.
Lemma scheduled_ready_list s1 cur c n nth :
  ready_list (scheduled s1 cur c n nth) = ready_list s1.
Proof. unfold scheduled. by case_match. Qed.
Lemma scheduled_thread_mlfq s1 cur c n nth :
  thread_mlfq (scheduled s1 cur c n nth) = thread_mlfq s1.
Proof. unfold scheduled. by case_match. Qed.
Lemma scheduled_all_list s1 cur c n nth :
  all_list (scheduled s1 cur c n nth) = all_list s1.
Proof. unfold scheduled. by case_match. Qed.
Lemma scheduled_sleeping s1 cur c n nth :
  blocked_sleeping_list (scheduled s1 cur c n nth) = blocked_sleeping_list s1.
Proof. unfold scheduled. by case_match. Qed.
Lemma scheduled_idle_thread s1 cur c n nth :
  idle_thread (scheduled s1 cur c n nth) = idle_thread s1.
Proof. unfold scheduled. by case_match. Qed.
Lemma scheduled_initial_thread s1 cur c n nth :
  initial_thread (scheduled s1 cur c n nth) = initial_thread s1.
Proof. unfold scheduled. by case_match. Qed.
Lemma scheduled_thread_mlfqs s1 cur c n nth :
  thread_mlfqs (scheduled s1 cur c n nth) = thread_mlfqs s1.
Proof. unfold scheduled. by case_match. Qed.
Lemma scheduled_free_pages s1 cur c n nth :
  free_pages (scheduled s1 cur c n nth)
  = if reaps s1 cur c n then cur :: free_pages s1 else free_pages s1.
Proof. unfold scheduled, reaps. by case_match. Qed.
Lemma scheduled_thread_mem s1 cur c n nth :
  thread_mem (scheduled s1 cur c n nth)
  = if reaps s1 cur c n
    then delete cur (<[n := set_status THREAD_RUNNING nth]> (thread_mem s1))
    else <[n := set_status THREAD_RUNNING nth]> (thread_mem s1).
Proof. unfold scheduled, reaps. by case_match. Qed.

Lemma reaps_true s1 cur c n :
  reaps s1 cur c n = true
  ↔ cur ≠ n ∧ status c = THREAD_DYING ∧ Some cur ≠ initial_thread s1.
Proof.
  unfold reaps. rewrite !andb_true_iff, !bool_decide_eq_true. tauto.
Qed.

(** The record of [t] after [schedule]. *)
Lemma scheduled_lookup s1 cur c n nth t :
  thread_mem (scheduled s1 cur c n nth) !! t
  = if decide (t = n) then Some (set_status THREAD_RUNNING nth)
    else if decide (t = cur) then (if reaps s1 cur c n then None else thread_mem s1 !! t)
    else thread_mem s1 !! t.
Proof.
  rewrite scheduled_thread_mem.
  destruct (reaps s1 cur c n) eqn:Er.
  - apply reaps_true in Er as (Hne & _ & _).
    destruct (decide (t = n)) as [->|Htn].
    + rewrite lookup_delete_ne by done. by rewrite lookup_insert_eq.
    + destruct (decide (t = cur)) as [->|Htc].
      * by rewrite lookup_delete_eq.
      * rewrite lookup_delete_ne by done. by rewrite lookup_insert_ne.
  - destruct (decide (t = n)) as [->|Htn].
    + by rewrite lookup_insert_eq.
    + rewrite lookup_insert_ne by done. by destruct (decide (t = cur)).
Qed.

(** X1: [schedule] leaves on the CPU a thread whose record carries the
    magic number and the status RUNNING, with a fresh time slice and
    interrupts still off; when no thread other than the caller was
    RUNNING before, it is the only RUNNING thread afterwards. *)
Theorem schedule_one_running (s s' : state) :
  schedule s = Some (tt, s') →
  (∀ t th, thread_mem s !! t = Some th → status th = THREAD_RUNNING → t = esp_page s) →
  (∃ th', thread_mem s' !! esp_page s' = Some th'
          ∧ status th' = THREAD_RUNNING ∧ magic th' = THREAD_MAGIC)
  ∧ thread_ticks s' = 0
  ∧ intr_level s' = INTR_OFF
  ∧ ∀ t th, thread_mem s' !! t = Some th → status th = THREAD_RUNNING → t = esp_page s'.
Proof.
  intros Hrun Honly.
  apply schedule_inv in Hrun as (n & s1 & c & nth & Hnext & Hoff & Ec & Hc & En & Hm & ->).
  pose proof (next_thread_to_run_fields _ _ _ Hnext) as Hs1.
  assert (Hmem : thread_mem s1 = thread_mem s) by (by rewrite Hs1).
  assert (Hlvl : intr_level s1 = intr_level s) by (by rewrite Hs1).
  clear Hs1.
  rewrite scheduled_esp_page, scheduled_thread_ticks, scheduled_intr_level, Hlvl.
  split_and!; [|done|done|].
  - exists (set_status THREAD_RUNNING nth).
    rewrite scheduled_lookup, decide_True by done. done.
  - intros t th Et Hst. rewrite scheduled_lookup in Et.
    destruct (decide (t = n)) as [|Htn]; [done|]. exfalso.
    assert (Et' : thread_mem s !! t = Some th).
    { rewrite <- Hmem. destruct (decide (t = esp_page s)); [|done].
      by destruct (reaps s1 (esp_page s) c n). }
    pose proof (Honly t th Et' Hst) as ->. congruence.
Qed.

(** X2: [schedule] releases one page at most, the page of the thread that
    gave up the CPU, and exactly when that thread is DYING, is not the
    initial thread and is not the thread chosen to run; the page then
    goes back to the allocator.  Every other thread keeps its page, so
    the initial thread is never released. *)
Theorem schedule_reaps_dying_only (s s' : state) (c : thread) :
  schedule s = Some (tt, s') →
  thread_mem s !! esp_page s = Some c →
  (∀ t, t ≠ esp_page s → is_Some (thread_mem s' !! t) ↔ is_Some (thread_mem s !! t))
  ∧ (thread_mem s' !! esp_page s = None
     ↔ status c = THREAD_DYING ∧ Some (esp_page s) ≠ initial_thread s
       ∧ esp_page s' ≠ esp_page s)
  ∧ free_pages s'
    = (if decide (thread_mem s' !! esp_page s = None)
       then esp_page s :: free_pages s else free_pages s)
  ∧ (∀ i, initial_thread s = Some i → is_Some (thread_mem s !! i) →
          is_Some (thread_mem s' !! i)).
Proof.
  intros Hrun Ec.
  apply schedule_inv in Hrun as (n & s1 & c' & nth & Hnext & Hoff & Ec' & Hc & En & Hm & ->).
  assert (c' = c) as -> by congruence.
  pose proof (next_thread_to_run_fields _ _ _ Hnext) as Hs1.
  assert (Hmem : thread_mem s1 = thread_mem s) by (by rewrite Hs1).
  assert (Hinit : initial_thread s1 = initial_thread s) by (by rewrite Hs1).
  assert (Hfree : free_pages s1 = free_pages s) by (by rewrite Hs1).
  clear Hs1.
  assert (Hcur : thread_mem (scheduled s1 (esp_page s) c n nth) !! esp_page s = None
                 ↔ reaps s1 (esp_page s) c n = true).
  { rewrite scheduled_lookup, Hmem, Ec.
    destruct (decide (esp_page s = n)) as [Heq|Hne].
    - split; [done|]. intros (Hne & _)%reaps_true. done.
    - rewrite decide_True by done. by destruct (reaps s1 (esp_page s) c n). }
  assert (Hothers : ∀ t, t ≠ esp_page s →
            is_Some (thread_mem (scheduled s1 (esp_page s) c n nth) !! t)
            ↔ is_Some (thread_mem s !! t)).
  { intros t Ht. rewrite scheduled_lookup, Hmem.
    destruct (decide (t = n)) as [->|Htn].
    - split; eauto.
    - by rewrite decide_False. }
  split_and!.
  - done.
  - rewrite Hcur, reaps_true, scheduled_esp_page, Hinit.
    split; intros (? & ? & ?); split_and!; congruence.
  - rewrite scheduled_free_pages, Hfree.
    destruct (reaps s1 (esp_page s) c n) eqn:Er.
    + rewrite decide_True; [done|]. by apply Hcur.
    + rewrite decide_False; [done|]. rewrite Hcur. congruence.
  - intros i Hi [ith Ei].
    destruct (decide (i = esp_page s)) as [->|Hne]; [|by apply Hothers].
    apply not_eq_None_Some. rewrite Hcur.
    intros (_ & _ & Hni)%reaps_true. rewrite Hinit in Hni. congruence.
Qed.

End Switch.

(** ** The order of the ready list *)

Section ReadyOrder.
Context `{FP : FixedPoint} `{CS : Constants}.

Lemma insert_before_sorted (key : thread_ptr → Z) (t : thread_ptr) (l : list thread_ptr) :
  StronglySorted (λ a b, key b ≤ key a) l →
  StronglySorted (λ a b, key b ≤ key a) (insert_before (λ e, key t >? key e) t l).
Proof.
  induction 1 as [|e l Hl IH He]; cbn.
  - repeat constructor.
  - destruct (Z.gtb_spec (key t) (key e)) as [Hgt|Hle].
    + constructor; [by constructor|]. constructor; [lia|].
      eapply Forall_impl; [exact He|]. cbn. intros x Hx. lia.
    + constructor; [done|]. apply Forall_forall. intros x Hx.
      apply elem_of_insert_before in Hx as [->|Hx]; [done|].
      by eapply Forall_forall in He.
Qed.

(** Where the insertion puts [t] in a sorted list: behind every thread
    of at least its key and ahead of every thread of a lower one. *)
Lemma insert_before_sorted_split (key : thread_ptr → Z) (t : thread_ptr) (l : list thread_ptr) :
  StronglySorted (λ a b, key b ≤ key a) l →
  ∃ l1 l2, l = l1 ++ l2
           ∧ insert_before (λ e, key t >? key e) t l = l1 ++ t :: l2
           ∧ (∀ e, e ∈ l1 → key t ≤ key e)
           ∧ (∀ e, e ∈ l2 → key e < key t).
Proof.
  intros Hs.
  destruct (insert_before_split (λ e, key t >? key e) t l) as (l1 & l2 & -> & E & H1 & H2).
  exists l1, l2. split_and!; [done|done| |].
  - intros e He. specialize (H1 e He). cbn in H1. lia.
  - intros e He. apply StronglySorted_app_1_r in Hs.
    destruct l2 as [|x l2]; [by apply elem_of_nil in He|].
    specialize (H2 x eq_refl). cbn in H2.
    apply elem_of_cons in He as [->|He]; [lia|].
    apply StronglySorted_inv in Hs as [_ Hx].
    eapply Forall_forall in Hx; [|exact He]. cbn in Hx. lia.
Qed.

Lemma effective_priority_set_status st th :
  effective_priority (set_status st th) = effective_priority th.
Proof. by destruct th. Qed.

Lemma effective_priority_unblocked th :
  effective_priority (unblocked th) = effective_priority th.
Proof. by destruct th. Qed.

(** Replacing a record by one of the same priorities changes no
    effective priority. *)
Lemma eff_of_insert_same (s s' : state) t th th' x :
  thread_mem s !! t = Some th →
  thread_mem s' = <[t := th']> (thread_mem s) →
  effective_priority th' = effective_priority th →
  eff_of s' x = eff_of s x.
Proof.
  intros Ht Hm He. unfold eff_of. rewrite Hm.
  destruct (decide (x = t)) as [->|Hne].
  - by rewrite lookup_insert_eq, Ht.
  - by rewrite lookup_insert_ne.
Qed.

Lemma sorted_ext (key key' : thread_ptr → Z) (l : list thread_ptr) :
  (∀ x, key' x = key x) →
  StronglySorted (λ a b, key b ≤ key a) l →
  StronglySorted (λ a b, key' b ≤ key' a) l.
Proof.
  intros Heff.
  induction 1 as [|e l Hl IH He]; constructor; [done|].
  eapply Forall_impl; [exact He|]. cbn. intros y. by rewrite !Heff.
Qed.

Lemma ready_insert_ready_list s t th :
  thread_mlfqs s = false →
  ready_list (ready_insert s t th)
  = insert_before (λ e, eff_of s t >? eff_of s e) t (ready_list s).
Proof. unfold ready_insert. by intros ->. Qed.

(** X3: under the priority policy [thread_unblock] keeps the ready list
    in priority order, and it queues the thread behind every ready
    thread of at least its effective priority and ahead of every ready
    thread of a lower one: woken threads of one priority run first in
    first out. *)
Theorem thread_unblock_keeps_order (s : state) (t : thread_ptr) (th : thread) :
  thread_mlfqs s = false →
  thread_mem s !! t = Some th → magic th = THREAD_MAGIC →
  status th = THREAD_BLOCKED →
  Forall (valid s) (ready_list s) → ready_sorted s →
  ∃ s' l1 l2,
    thread_unblock t s = Some (tt, s')
    ∧ ready_sorted s'
    ∧ ready_list s = l1 ++ l2 ∧ ready_list s' = l1 ++ t :: l2
    ∧ (∀ e, e ∈ l1 → eff_of s t ≤ eff_of s e)
    ∧ (∀ e, e ∈ l2 → eff_of s e < eff_of s t).
Proof.
  intros Hpol Ht Hmagic Hst Hvalid Hsorted.
  assert (ready_structure_ok s) as Hok.
  { unfold ready_structure_ok. by rewrite Hpol. }
  pose proof (thread_unblock_run s t th Ht Hmagic Hst Hok) as Hrun.
  destruct (insert_before_sorted_split (eff_of s) t (ready_list s) Hsorted)
    as (l1 & l2 & El & Ei & H1 & H2).
  eexists _, l1, l2. split; [exact Hrun|].
  split_and!; [|done| |done|done].
  - unfold ready_sorted. cbn.
    rewrite unblock_insert_ready_list, ready_insert_ready_list by done.
    eapply (sorted_ext (eff_of s)); [|by apply insert_before_sorted].
    intros x. eapply eff_of_insert_same; [exact Ht| |apply effective_priority_unblocked].
    done.
  - cbn. by rewrite unblock_insert_ready_list, ready_insert_ready_list.
Qed.

End ReadyOrder.

(** ** Giving up the CPU *)

Section Yield.
Context `{FP : FixedPoint} `{CS : Constants}.

Lemma next_thread_to_run_list_run s t l :
  thread_mlfqs s = false → ready_list s = t :: l →
  next_thread_to_run s = Some (Some t, with_ready_list l s).
Proof. intros Hm Hl. unfold next_thread_to_run. cbn. rewrite Hm. cbn. by rewrite Hl. Qed.

Lemma ready_insert_intr_off s t th :
  ready_insert (with_intr_level INTR_OFF s) t th
  = with_intr_level INTR_OFF (ready_insert s t th).
Proof. unfold ready_insert. cbn. by destruct (thread_mlfqs s). Qed.

(** [thread_yield] up to its call of [schedule]. *)
Lemma thread_yield_prefix (s : state) (c : thread) :
  current_is s c → in_external_intr s = false →
  (Some (esp_page s) ≠ idle_thread s → ready_structure_ok s) →
  thread_yield s
  = (schedule;; after_schedule (esp_page s) (intr_set_level (intr_level s);; ret tt))
      (yielding s c).
Proof.
  intros Hc Hint Hok. pose proof Hc as (Ec & Hmagic & Hst).
  unfold thread_yield. cbn [bind].
  rewrite (thread_current_Some s c Hc).
  unfold intr_context, intr_disable, intr_set_level. kstep. rewrite Hint. kstep.
  unfold yielding.
  case_bool_decide as Hidle.
  - specialize (Hok Hidle). rewrite <- ready_insert_intr_off.
    unfold ready_structure_ok in Hok. unfold ready_insert. cbn.
    destruct (thread_mlfqs s) eqn:Emlfq.
    + destruct (bucket_exists (queues (thread_mlfq s)) c Hok) as [q Eq].
      rewrite (mlfq_add_thread_run _ _ c q) by done. cbn.
      unfold update. kstep.
      by rewrite (list_insert_as_alter (λ q', q' ++ [esp_page s]) (queues (thread_mlfq s)) _ q Eq).
    + cbn. rewrite (list_insert_ordered_priority (with_intr_level INTR_OFF s) (esp_page s) (ready_list s))
        by (done || by eexists).
      cbn. unfold update. by kstep.
  - cbn. unfold update. by kstep.
Qed.

(** [schedule] and the rest of its caller. *)
Lemma schedule_resume_run s n s1 c nth old :
  next_thread_to_run s = Some (Some n, s1) →
  intr_level s = INTR_OFF →
  thread_mem s !! esp_page s = Some c →
  status c ≠ THREAD_RUNNING →
  thread_mem s !! n = Some nth →
  magic nth = THREAD_MAGIC →
  (schedule;; after_schedule (esp_page s) (intr_set_level old;; ret tt)) s
  = Some (tt, resumed old (esp_page s) n (scheduled s1 (esp_page s) c n nth)).
Proof.
  intros Hnext Hoff Ec Hc En Hm. cbn [bind].
  rewrite (schedule_run s n s1 c nth) by done.
  unfold after_schedule, running_thread, resumed, intr_set_level. cbn.
  rewrite scheduled_esp_page. by case_bool_decide.
Qed.

Lemma set_status_set_status st st' th :
  set_status st (set_status st' th) = set_status st th.
Proof. by destruct th. Qed.

Lemma set_status_id th : set_status (status th) th = th.
Proof. by destruct th. Qed.

Lemma yielding_thread_mem s c :
  thread_mem (yielding s c) = <[esp_page s := set_status THREAD_READY c]> (thread_mem s).
Proof. done. Qed.
Lemma yielding_esp_page s c : esp_page (yielding s c) = esp_page s.
Proof. unfold yielding. case_bool_decide; cbn; by rewrite ?ready_insert_esp_page. Qed.
Lemma yielding_intr_level s c : intr_level (yielding s c) = INTR_OFF.
Proof. done. Qed.
Lemma yielding_thread_mlfqs s c : thread_mlfqs (yielding s c) = thread_mlfqs s.
Proof. unfold yielding. case_bool_decide; cbn; by rewrite ?ready_insert_thread_mlfqs. Qed.
Lemma yielding_ready_list s c :
  thread_mlfqs s = false → Some (esp_page s) ≠ idle_thread s →
  ready_list (yielding s c)
  = insert_before (λ e, eff_of s (esp_page s) >? eff_of s e) (esp_page s) (ready_list s).
Proof.
  intros Hpol Hidle. unfold yielding. rewrite bool_decide_eq_true_2 by done.
  cbn. by rewrite ready_insert_ready_list.
Qed.

(** [thread_yield], given what [next_thread_to_run] picks. *)
Lemma thread_yield_run (s : state) (c : thread) n s1 nth :
  current_is s c → in_external_intr s = false →
  (Some (esp_page s) ≠ idle_thread s → ready_structure_ok s) →
  next_thread_to_run (yielding s c) = Some (Some n, s1) →
  thread_mem (yielding s c) !! n = Some nth →
  magic nth = THREAD_MAGIC →
  thread_yield s
  = Some (tt, resumed (intr_level s) (esp_page s) n
                (scheduled s1 (esp_page s) (set_status THREAD_READY c) n nth)).
Proof.
  intros Hc Hint Hok Hnext En Hm. pose proof Hc as (Ec & Hmagic & Hst).
  rewrite (thread_yield_prefix s c Hc Hint Hok).
  pose proof (schedule_resume_run (yielding s c) n s1 (set_status THREAD_READY c) nth
                (intr_level s) Hnext) as H.
  rewrite yielding_esp_page in H. apply H; try done.
  by rewrite yielding_thread_mem, lookup_insert_eq.
Qed.

Lemma eff_of_ext (s s' : state) x :
  effective_priority <$> thread_mem s' !! x = effective_priority <$> thread_mem s !! x →
  eff_of s' x = eff_of s x.
Proof.
  unfold eff_of. by destruct (thread_mem s' !! x), (thread_mem s !! x); intros [=].
Qed.

Lemma reaps_not_dying s1 cur c n :
  status c ≠ THREAD_DYING → reaps s1 cur c n = false.
Proof.
  intros Hs. unfold reaps. rewrite (bool_decide_eq_false_2 (status c = _)) by done.
  by rewrite andb_false_r.
Qed.

Lemma resumed_esp_page old cur n s : esp_page (resumed old cur n s) = esp_page s.
Proof. unfold resumed. by case_match. Qed.
Lemma resumed_thread_mem old cur n s : thread_mem (resumed old cur n s) = thread_mem s.
Proof. unfold resumed. by case_match. Qed.
Lemma resumed_ready_list old cur n s : ready_list (resumed old cur n s) = ready_list s.
Proof. unfold resumed. by case_match. Qed.
Lemma resumed_thread_mlfq old cur n s : thread_mlfq (resumed old cur n s) = thread_mlfq s.
Proof. unfold resumed. by case_match. Qed.
Lemma resumed_thread_ticks old cur n s : thread_ticks (resumed old cur n s) = thread_ticks s.
Proof. unfold resumed. by case_match. Qed.
Lemma resumed_all_list old cur n s : all_list (resumed old cur n s) = all_list s.
Proof. unfold resumed. by case_match. Qed.
Lemma resumed_sleeping old cur n s :
  blocked_sleeping_list (resumed old cur n s) = blocked_sleeping_list s.
Proof. unfold resumed. by case_match. Qed.
Lemma resumed_free_pages old cur n s : free_pages (resumed old cur n s) = free_pages s.
Proof. unfold resumed. by case_match. Qed.
Lemma resumed_intr_level old cur n s :
  intr_level (resumed old cur n s) = if bool_decide (n = cur) then old else intr_level s.
Proof. unfold resumed. by case_match. Qed.

(** A yield that picks the caller again leaves the state as it was, the
    time slice apart. *)
Lemma yield_keeps (s : state) (c : thread) :
  current_is s c → thread_mlfqs s = false →
  resumed (intr_level s) (esp_page s) (esp_page s)
    (scheduled (with_ready_list (ready_list s) (yielding s c)) (esp_page s)
       (set_status THREAD_READY c) (esp_page s) (set_status THREAD_READY c))
  = with_thread_ticks 0 s.
Proof.
  intros (Ec & _ & Hst) Hpol.
  unfold resumed, scheduled, switched, yielding, ready_insert.
  rewrite (bool_decide_eq_true_2 (esp_page s = esp_page s)) by done.
  rewrite (bool_decide_eq_false_2 (esp_page s ≠ esp_page s)) by auto.
  rewrite Hpol. cbn.
  rewrite insert_insert_eq, set_status_set_status, <- Hst, set_status_id, insert_id by done.
  destruct (bool_decide (Some (esp_page s) ≠ idle_thread s)); by destruct s.
Qed.

(** The two outcomes of [thread_yield] under the priority policy. *)
Lemma thread_yield_priority_cases (s : state) (c : thread) :
  current_is s c → in_external_intr s = false → thread_mlfqs s = false →
  Some (esp_page s) ≠ idle_thread s →
  ready_threads_ok s → ready_sorted s →
  ∃ s', thread_yield s = Some (tt, s')
    ∧ ready_sorted s'
    ∧ (∀ e l, ready_list s = e :: l → eff_of s (esp_page s) ≤ eff_of s e →
         esp_page s' = e
         ∧ (∃ eth, thread_mem s !! e = Some eth
              ∧ thread_mem s' = <[e := set_status THREAD_RUNNING eth]>
                                  (<[esp_page s := set_status THREAD_READY c]> (thread_mem s)))
         ∧ ∃ l1 l2, l = l1 ++ l2 ∧ ready_list s' = l1 ++ esp_page s :: l2
                    ∧ (∀ x, x ∈ l1 → eff_of s (esp_page s) ≤ eff_of s x)
                    ∧ (∀ x, x ∈ l2 → eff_of s x < eff_of s (esp_page s)))
    ∧ ((∀ e, head (ready_list s) = Some e → eff_of s e < eff_of s (esp_page s)) →
         s' = with_thread_ticks 0 s).
Proof.
  intros Hc Hint Hpol Hidle Hrdy Hsorted. pose proof Hc as (Ec & Hmagic & Hst).
  assert (Forall (valid s) (ready_list s)) as Hvalid.
  { eapply Forall_impl; [exact Hrdy|]. intros x (th & E & _). by eexists. }
  assert (Some (esp_page s) ≠ idle_thread s → ready_structure_ok s) as Hok.
  { intros _. unfold ready_structure_ok. by rewrite Hpol. }
  pose proof (yielding_thread_mem s c) as HYmem.
  pose proof (yielding_thread_mlfqs s c) as HYpol. rewrite Hpol in HYpol.
  pose proof (yielding_ready_list s c Hpol Hidle) as HYrl.
  assert (∀ e l', insert_before (λ e, eff_of s (esp_page s) >? eff_of s e)
                    (esp_page s) (ready_list s) = e :: l' →
          ∃ nth, thread_mem (yielding s c) !! e = Some nth ∧ magic nth = THREAD_MAGIC
                 ∧ thread_yield s
                   = Some (tt, resumed (intr_level s) (esp_page s) e
                                 (scheduled (with_ready_list l' (yielding s c)) (esp_page s)
                                    (set_status THREAD_READY c) e nth))) as Hrun.
  { intros e l' El.
    assert (∃ nth, thread_mem (yielding s c) !! e = Some nth ∧ magic nth = THREAD_MAGIC)
      as (nth & En & Hm).
    { rewrite HYmem. destruct (decide (e = esp_page s)) as [->|Hne].
      - rewrite lookup_insert_eq. eexists. split; [done|]. by destruct c.
      - rewrite lookup_insert_ne by done.
        assert (e ∈ insert_before (λ e, eff_of s (esp_page s) >? eff_of s e)
                      (esp_page s) (ready_list s)) as Hin by (rewrite El; left).
        apply elem_of_insert_before in Hin as [?|Hin]; [done|].
        by eapply Forall_forall in Hrdy. }
    exists nth. split_and!; [done..|].
    apply thread_yield_run; try done.
    apply next_thread_to_run_list_run; [done|]. by rewrite HYrl. }
  assert (insert_before (λ e, eff_of s (esp_page s) >? eff_of s e)
                    (esp_page s) (ready_list s) = esp_page s :: ready_list s →
          thread_yield s = Some (tt, with_thread_ticks 0 s)) as Hkeep.
  { intros El. destruct (Hrun _ _ El) as (nth & En & _ & ->).
    rewrite HYmem, lookup_insert_eq in En. simplify_eq.
    by rewrite yield_keeps. }
  destruct (ready_list s) as [|e0 l0] eqn:EL.
  { exists (with_thread_ticks 0 s). split_and!; [by apply Hkeep| |done|done].
    unfold ready_sorted. cbn. rewrite EL. constructor. }
  destruct (Z.gtb_spec (eff_of s (esp_page s)) (eff_of s e0)) as [Hgt|Hle].
  { exists (with_thread_ticks 0 s). split_and!; [| | |done].
    - apply Hkeep. cbn. by destruct (Z.gtb_spec (eff_of s (esp_page s)) (eff_of s e0)); [|lia].
    - exact Hsorted.
    - intros e l [= <- <-] ?. lia. }
  destruct (Hrun e0 (insert_before (λ e, eff_of s (esp_page s) >? eff_of s e) (esp_page s) l0))
    as (nth & En & Hm & Hy).
  { cbn. by destruct (Z.gtb_spec (eff_of s (esp_page s)) (eff_of s e0)); [lia|]. }
  clear Hrun Hkeep.
  unfold ready_sorted in Hsorted. rewrite EL in Hsorted.
  apply StronglySorted_inv in Hsorted as [Hs0 Hhead].
  unfold ready_threads_ok in Hrdy. rewrite EL in Hrdy.
  apply Forall_cons in Hrdy as [(eth & Ee & Hme) _].
  eexists. split; [exact Hy|].
  assert (thread_mem (resumed (intr_level s) (esp_page s) e0
            (scheduled (with_ready_list
               (insert_before (λ e, eff_of s (esp_page s) >? eff_of s e) (esp_page s) l0)
               (yielding s c)) (esp_page s) (set_status THREAD_READY c) e0 nth))
          = <[e0 := set_status THREAD_RUNNING eth]>
              (<[esp_page s := set_status THREAD_READY c]> (thread_mem s))) as Hmem.
  { rewrite resumed_thread_mem, scheduled_thread_mem, reaps_not_dying by done.
    cbn. f_equal. rewrite HYmem in En.
    destruct (decide (e0 = esp_page s)) as [->|Hne].
    - rewrite lookup_insert_eq in En. simplify_eq. by rewrite set_status_set_status.
    - rewrite lookup_insert_ne in En by done. by simplify_eq. }
  split_and!.
  - unfold ready_sorted.
    eapply (sorted_ext (eff_of s));
      [|rewrite resumed_ready_list, scheduled_ready_list; by apply insert_before_sorted].
    intros x. apply eff_of_ext. rewrite Hmem.
    destruct (decide (x = e0)) as [->|Hx].
    { rewrite lookup_insert_eq, Ee. cbn. by rewrite effective_priority_set_status. }
    rewrite lookup_insert_ne by done.
    destruct (decide (x = esp_page s)) as [->|Hx'].
    { rewrite lookup_insert_eq, Ec. cbn. by rewrite effective_priority_set_status. }
    by rewrite lookup_insert_ne.
  - intros e l [= <- <-] _. split_and!.
    + by rewrite resumed_esp_page, scheduled_esp_page.
    + by exists eth.
    + rewrite resumed_ready_list, scheduled_ready_list. cbn.
      destruct (insert_before_sorted_split (eff_of s) (esp_page s) l0 Hs0)
        as (l1 & l2 & ? & ? & ? & ?). by exists l1, l2.
  - intros Hlt. specialize (Hlt e0 eq_refl). lia.
Qed.

(** X4: [thread_yield] under the priority policy, called by a thread
    other than the idle thread while the ready list is in priority
    order.  If the first ready thread has at least the caller's effective
    priority it gets the CPU and becomes RUNNING, and the caller becomes
    READY and is queued behind the ready threads of at least its priority
    and ahead of those of a lower one.  Otherwise the caller goes on
    running and only its time slice starts anew.  The ready list is in
    priority order afterwards. *)
Theorem thread_yield_by_priority (s : state) (c : thread) :
  current_is s c → in_external_intr s = false → thread_mlfqs s = false →
  Some (esp_page s) ≠ idle_thread s →
  ready_threads_ok s → ready_sorted s →
  ∃ s', thread_yield s = Some (tt, s')
    ∧ ready_sorted s'
    ∧ (∀ e l, ready_list s = e :: l → eff_of s (esp_page s) ≤ eff_of s e →
         esp_page s' = e
         ∧ (∃ eth, thread_mem s !! e = Some eth
              ∧ thread_mem s' = <[e := set_status THREAD_RUNNING eth]>
                                  (<[esp_page s := set_status THREAD_READY c]> (thread_mem s)))
         ∧ ∃ l1 l2, l = l1 ++ l2 ∧ ready_list s' = l1 ++ esp_page s :: l2
                    ∧ (∀ x, x ∈ l1 → eff_of s (esp_page s) ≤ eff_of s x)
                    ∧ (∀ x, x ∈ l2 → eff_of s x < eff_of s (esp_page s)))
    ∧ ((∀ e, head (ready_list s) = Some e → eff_of s e < eff_of s (esp_page s)) →
         s' = with_thread_ticks 0 s).
Proof. apply thread_yield_priority_cases. Qed.

Lemma yielding_thread_mlfq s c :
  thread_mlfqs s = true → Some (esp_page s) ≠ idle_thread s →
  thread_mlfq (yielding s c)
  = {| mlfq_size := mlfq_size (thread_mlfq s) + 1;
       queues := alter (λ q, q ++ [esp_page s]) (Z.to_nat (mlfq_priority c))
                   (queues (thread_mlfq s)) |}.
Proof.
  intros Hpol Hidle. unfold yielding, ready_insert.
  rewrite bool_decide_eq_true_2 by done. by rewrite Hpol.
Qed.

(** X5: [thread_yield] under the MLFQ policy, called by a thread other
    than the idle thread.  The caller is appended to the bucket of its
    MLFQ priority and becomes READY; the head [t] of the highest bucket
    that is not empty then gets the CPU and becomes RUNNING, and is taken
    out of its bucket; the size counter ends as it began.  A caller whose
    bucket holds other threads is therefore queued behind them (round
    robin), and threads of a lower bucket do not run before it. *)
Theorem thread_yield_round_robin (s : state) (c tth : thread) (j : nat)
    (t : thread_ptr) (q : list thread_ptr) :
  let qs := alter (λ q, q ++ [esp_page s]) (Z.to_nat (mlfq_priority c))
              (queues (thread_mlfq s)) in
  current_is s c → in_external_intr s = false → thread_mlfqs s = true →
  Some (esp_page s) ≠ idle_thread s →
  length (queues (thread_mlfq s)) = Z.to_nat MLFQ_QUEUE_SIZE →
  0 ≤ mlfq_size (thread_mlfq s) →
  (j < Z.to_nat MLFQ_QUEUE_SIZE)%nat →
  qs !! j = Some (t :: q) →
  (∀ k, (j < k < Z.to_nat MLFQ_QUEUE_SIZE)%nat → qs !! k = Some []) →
  thread_mem s !! t = Some tth → magic tth = THREAD_MAGIC →
  ∃ s', thread_yield s = Some (tt, s')
    ∧ esp_page s' = t
    ∧ thread_mem s' = <[t := set_status THREAD_RUNNING tth]>
                        (<[esp_page s := set_status THREAD_READY c]> (thread_mem s))
    ∧ thread_mlfq s' = {| mlfq_size := mlfq_size (thread_mlfq s); queues := <[j := q]> qs |}
    ∧ thread_ticks s' = 0.
Proof.
  intros qs Hc Hint Hpol Hidle Hlen Hsize Hj Ej Habove Et Hm.
  pose proof Hc as (Ec & Hmagic & Hst).
  assert (Some (esp_page s) ≠ idle_thread s → ready_structure_ok s) as Hok.
  { intros _. unfold ready_structure_ok. by rewrite Hpol. }
  pose proof (yielding_thread_mem s c) as HYmem.
  pose proof (yielding_thread_mlfqs s c) as HYpol. rewrite Hpol in HYpol.
  pose proof (yielding_thread_mlfq s c Hpol Hidle) as HYq. fold qs in HYq.
  assert (∃ nth, thread_mem (yielding s c) !! t = Some nth ∧ magic nth = THREAD_MAGIC
                 ∧ set_status THREAD_RUNNING nth = set_status THREAD_RUNNING tth)
    as (nth & En & Hmn & Hnth).
  { rewrite HYmem. destruct (decide (t = esp_page s)) as [->|Hne].
    - rewrite lookup_insert_eq. eexists. split_and!; [done|by destruct c|].
      rewrite set_status_set_status. congruence.
    - rewrite lookup_insert_ne by done. by exists tth. }
  eexists. split.
  { eapply (thread_yield_run s c t); [done..| |exact En|done].
    apply (next_thread_to_run_mlfq_run _ j t q); rewrite ?HYq; cbn; [done|lia|done..]. }
  split_and!.
  - by rewrite resumed_esp_page, scheduled_esp_page.
  - rewrite resumed_thread_mem, scheduled_thread_mem, reaps_not_dying by done.
    cbn. by rewrite Hnth.
  - rewrite resumed_thread_mlfq, scheduled_thread_mlfq. unfold popped_bucket.
    rewrite HYq. cbn. f_equal. lia.
  - by rewrite resumed_thread_ticks, scheduled_thread_ticks.
Qed.

End Yield.

(** ** Blocking and exiting *)

Section Leave.
Context `{FP : FixedPoint} `{CS : Constants}.

(** What [next_thread_to_run] returns is the idle thread or was queued. *)
Lemma next_thread_to_run_picks s n s1 :
  next_thread_to_run s = Some (Some n, s1) →
  Some n = idle_thread s ∨ queued s n.
Proof.
  intros [(-> & _)|[(_ & t & l & El & [= ->] & _)|(_ & _ & j & t & q & _ & Ej & _ & [= ->] & _)]]%next_thread_to_run_inv.
  - by left.
  - right. left. rewrite El. left.
  - right. right. exists j, (t :: q). split; [done|left].
Qed.

(** The fields [next_thread_to_run] leaves alone. *)
Lemma next_thread_to_run_others s r s1 :
  next_thread_to_run s = Some (r, s1) →
  thread_mem s1 = thread_mem s ∧ esp_page s1 = esp_page s
  ∧ intr_level s1 = intr_level s ∧ all_list s1 = all_list s
  ∧ initial_thread s1 = initial_thread s ∧ free_pages s1 = free_pages s.
Proof. intros ->%next_thread_to_run_fields. by split_and!. Qed.

(** [thread_block] up to its call of [schedule]. *)
Lemma thread_block_prefix (s : state) (c : thread) :
  current_is s c → in_external_intr s = false → intr_level s = INTR_OFF →
  thread_block s
  = schedule (with_thread_mem (<[esp_page s := set_status THREAD_BLOCKED c]> (thread_mem s)) s).
Proof.
  intros Hc Hint Hoff. pose proof Hc as (Ec & Hmagic & Hst).
  unfold thread_block, intr_context, intr_get_level. cbn [bind gets].
  rewrite Hint. cbn [bind gets ASSERT negb]. rewrite Hoff. kstep.
  rewrite (thread_current_Some s c Hc). unfold update. by kstep.
Qed.

(** A call of [thread_block] that returns was a legal one, and its
    result is that of the switch to the thread [next_thread_to_run]
    picked. *)
Lemma thread_block_inv (s s' : state) (c : thread) :
  current_is s c →
  thread_block s = Some (tt, s') →
  in_external_intr s = false ∧ intr_level s = INTR_OFF
  ∧ ∃ n s1 nth,
      next_thread_to_run
        (with_thread_mem (<[esp_page s := set_status THREAD_BLOCKED c]> (thread_mem s)) s)
      = Some (Some n, s1)
      ∧ <[esp_page s := set_status THREAD_BLOCKED c]> (thread_mem s) !! n = Some nth
      ∧ magic nth = THREAD_MAGIC
      ∧ s' = scheduled s1 (esp_page s) (set_status THREAD_BLOCKED c) n nth.
Proof.
  intros Hc Hrun. pose proof Hc as (Ec & Hmagic & Hst).
  assert (in_external_intr s = false) as Hint.
  { destruct (in_external_intr s) eqn:E; [|done].
    unfold thread_block, intr_context in Hrun. cbn [bind gets] in Hrun.
    by rewrite E in Hrun. }
  assert (intr_level s = INTR_OFF) as Hoff.
  { destruct (intr_level s) eqn:E; [done|].
    unfold thread_block, intr_context, intr_get_level in Hrun. cbn [bind gets] in Hrun.
    rewrite Hint in Hrun. cbn [bind gets ASSERT negb] in Hrun. by rewrite E in Hrun. }
  rewrite (thread_block_prefix s c Hc Hint Hoff) in Hrun.
  apply schedule_inv in Hrun as (n & s1 & c' & nth & Hnext & _ & Ec' & _ & En & Hm & ->).
  cbn in Ec', En. rewrite lookup_insert_eq in Ec'. simplify_eq.
  split_and!; [done..|]. by exists n, s1, nth.
Qed.

(** X6: [thread_block] returns only when it was called outside an
    interrupt handler with interrupts off.  If the caller is neither the
    idle thread nor in a ready structure, another thread has the CPU
    afterwards: the idle thread or a thread that was queued; it is
    RUNNING, the caller is BLOCKED, no other record changed, and
    interrupts are still off. *)
Theorem thread_block_hands_over (s s' : state) (c : thread) :
  current_is s c →
  thread_block s = Some (tt, s') →
  idle_thread s ≠ Some (esp_page s) →
  ¬ queued s (esp_page s) →
  in_external_intr s = false ∧ intr_level s = INTR_OFF
  ∧ intr_level s' = INTR_OFF
  ∧ esp_page s' ≠ esp_page s
  ∧ (Some (esp_page s') = idle_thread s ∨ queued s (esp_page s'))
  ∧ thread_mem s' !! esp_page s = Some (set_status THREAD_BLOCKED c)
  ∧ (∃ nth, thread_mem s !! esp_page s' = Some nth
            ∧ thread_mem s' !! esp_page s' = Some (set_status THREAD_RUNNING nth))
  ∧ (∀ t, t ≠ esp_page s → t ≠ esp_page s' → thread_mem s' !! t = thread_mem s !! t).
Proof.
  intros Hc Hrun Hidle Hq. pose proof Hc as (Ec & Hmagic & Hst).
  destruct (thread_block_inv s s' c Hc Hrun)
    as (Hint & Hoff & n & s1 & nth & Hnext & En & _ & ->).
  pose proof (next_thread_to_run_picks _ _ _ Hnext) as Hpick. cbn in Hpick.
  destruct (next_thread_to_run_others _ _ _ Hnext) as (Hmem & Hesp & Hlvl & _). cbn in *.
  assert (n ≠ esp_page s) as Hne.
  { intros ->. destruct Hpick as [Hi|Hi]; [by apply Hidle|by apply Hq]. }
  rewrite lookup_insert_ne in En by done.
  rewrite scheduled_esp_page, scheduled_intr_level, Hlvl.
  split_and!; try done.
  - rewrite scheduled_lookup, Hmem. rewrite decide_False by done.
    rewrite decide_True by done. rewrite reaps_not_dying by done.
    by rewrite lookup_insert_eq.
  - exists nth. split; [done|]. rewrite scheduled_lookup. by rewrite decide_True.
  - intros t Ht1 Ht2. rewrite scheduled_lookup, Hmem. rewrite !decide_False by done.
    by rewrite lookup_insert_ne.
Qed.

(** [thread_exit] up to its call of [schedule]. *)
Lemma thread_exit_prefix (s : state) (c : thread) :
  current_is s c → in_external_intr s = false →
  thread_exit s = (schedule;; after_schedule (esp_page s) panic) (exiting s c).
Proof.
  intros Hc Hint. pose proof Hc as (Ec & Hmagic & Hst).
  unfold thread_exit, intr_context, intr_disable, intr_set_level. cbn [bind gets].
  rewrite Hint. kstep.
  kcurrent c. kstep. kcurrent c. unfold update. by kstep.
Qed.

(** X7: [thread_exit] never lets its caller go on: whenever the model
    follows it to the end, another thread has the CPU.  The caller has
    left the list of all threads, and its page went back to the page
    allocator, its record with it, unless it is the initial thread, whose
    record stays, DYING.  The call was made outside an interrupt handler,
    and interrupts are off afterwards. *)
Theorem thread_exit_destroys (s s' : state) (c : thread) :
  current_is s c →
  thread_exit s = Some (tt, s') →
  in_external_intr s = false
  ∧ intr_level s' = INTR_OFF
  ∧ esp_page s' ≠ esp_page s
  ∧ all_list s' = list_remove (esp_page s) (all_list s)
  ∧ (esp_page s ∉ all_list s')
  ∧ (if decide (Some (esp_page s) = initial_thread s)
     then thread_mem s' !! esp_page s = Some (set_status THREAD_DYING c)
          ∧ free_pages s' = free_pages s
     else thread_mem s' !! esp_page s = None
          ∧ free_pages s' = esp_page s :: free_pages s).
Proof.
  intros Hc Hrun. pose proof Hc as (Ec & Hmagic & Hst).
  assert (in_external_intr s = false) as Hint.
  { destruct (in_external_intr s) eqn:E; [|done].
    unfold thread_exit, intr_context in Hrun. cbn [bind gets] in Hrun.
    by rewrite E in Hrun. }
  rewrite (thread_exit_prefix s c Hc Hint) in Hrun.
  apply bind_inv in Hrun as ([] & S1 & Hsched & Hafter).
  apply schedule_inv in Hsched as (n & s1 & c' & nth & Hnext & _ & Ec' & _ & En & _ & ->).
  cbn in Ec', En. rewrite lookup_insert_eq in Ec'. simplify_eq.
  destruct (next_thread_to_run_others _ _ _ Hnext)
    as (Hmem & Hesp & Hlvl & Hall & Hinit & Hfree). cbn in *.
  unfold after_schedule, running_thread in Hafter. cbn [bind gets] in Hafter.
  rewrite scheduled_esp_page in Hafter.
  destruct (decide (n = esp_page s)) as [->|Hne].
  { rewrite bool_decide_eq_true_2 in Hafter by done. by cbn in Hafter. }
  rewrite bool_decide_eq_false_2 in Hafter by done. cbn in Hafter. simplify_eq.
  rewrite scheduled_esp_page, scheduled_intr_level, scheduled_all_list,
    scheduled_free_pages, scheduled_lookup, Hlvl, Hall, Hmem, Hfree.
  rewrite (decide_False (P := esp_page s = n)) by congruence.
  rewrite (decide_True (P := esp_page s = esp_page s)) by done.
  split_and!; try done.
  - unfold list_remove. by intros [? _]%list_elem_of_filter.
  - destruct (decide (Some (esp_page s) = initial_thread s)) as [Hi|Hi].
    + assert (reaps s1 (esp_page s) (set_status THREAD_DYING c) n = false) as ->.
      { apply not_true_is_false. intros (_ & _ & ?)%reaps_true. congruence. }
      by rewrite lookup_insert_eq.
    + assert (reaps s1 (esp_page s) (set_status THREAD_DYING c) n = true) as ->.
      { apply reaps_true. split_and!; [done|by destruct c|congruence]. }
      done.
Qed.

End Leave.

(** ** Creating threads and changing priorities *)

Section Priority.
Context `{FP : FixedPoint} `{CS : Constants}.

(** X8: how [thread_create] fails.  Without an entry point it stops the
    kernel.  When the page allocator has no page it returns TID_ERROR and
    leaves the state as it was: no thread is made, no tid is used.  With
    a page at hand, a priority outside PRI_MIN..PRI_MAX stops the kernel
    (the assertion of [init_thread]). *)
Theorem thread_create_failures (s : state) (nm : string) (prio : Z)
    (f : positive) (aux : Z) :
  thread_create nm prio None aux s = None
  ∧ (free_pages s = [] → thread_create nm prio (Some f) aux s = Some (TID_ERROR, s))
  ∧ (free_pages s ≠ [] → ¬ (PRI_MIN ≤ prio ≤ PRI_MAX) →
     thread_create nm prio (Some f) aux s = None).
Proof.
  split_and!.
  - done.
  - intros Hfree. unfold thread_create, palloc_get_page. kstep. by rewrite Hfree.
  - intros Hfree Hprio. unfold thread_create, palloc_get_page. kstep.
    destruct (free_pages s) as [|t pages]; [done|]. kstep.
    unfold init_thread. cbn [bind ASSERT].
    by rewrite bool_decide_eq_false_2.
Qed.

Lemma sorted_ext_in (key key' : thread_ptr → Z) (l : list thread_ptr) :
  (∀ x, x ∈ l → key' x = key x) →
  StronglySorted (λ a b, key b ≤ key a) l →
  StronglySorted (λ a b, key' b ≤ key' a) l.
Proof.
  intros Heff Hs. induction Hs as [|e l Hl IH He]; constructor.
  - apply IH. intros x Hx. apply Heff. by right.
  - apply Forall_forall. intros y Hy.
    rewrite !Heff by (by left || by right).
    by eapply Forall_forall in He.
Qed.

Lemma effective_priority_max th :
  effective_priority th = Z.max (priority th) (donated_priority th).
Proof. unfold effective_priority. destruct (Z.gtb_spec (donated_priority th) (priority th)); lia. Qed.

Lemma thread_get_priority_run s c :
  current_is s c → thread_get_priority s = Some (effective_priority c, s).
Proof.
  intros Hc. unfold thread_get_priority, thread_get_effective_priority. cbn [bind].
  rewrite (thread_current_Some s c Hc). destruct Hc as (E & _). by kstep.
Qed.

(** X9: [thread_set_priority] under the priority policy.  It takes any
    integer, stores it as the base priority and leaves the donated
    priority alone, so the caller's effective priority becomes the larger
    of the two; then it yields.  If the first ready thread has at least
    that effective priority it gets the CPU and the caller is READY;
    otherwise the caller goes on running and [thread_get_priority]
    returns the larger of the new and the donated priority. *)
Theorem thread_set_priority_reschedules (s : state) (c : thread) (new : Z) :
  let c' := set_priority new c in
  let s0 := with_thread_mem (<[esp_page s := c']> (thread_mem s)) s in
  current_is s c → in_external_intr s = false → thread_mlfqs s = false →
  Some (esp_page s) ≠ idle_thread s →
  ready_threads_ok s → ready_sorted s → esp_page s ∉ ready_list s →
  ∃ s', thread_set_priority new s = Some (tt, s')
    ∧ effective_priority c' = Z.max new (donated_priority c)
    ∧ (∀ e l, ready_list s = e :: l → effective_priority c' ≤ eff_of s e →
         esp_page s' = e
         ∧ thread_mem s' !! esp_page s = Some (set_status THREAD_READY c'))
    ∧ ((∀ e, head (ready_list s) = Some e → eff_of s e < effective_priority c') →
         s' = with_thread_ticks 0 s0
         ∧ thread_get_priority s' = Some (Z.max new (donated_priority c), s')).
Proof.
  intros c' s0 Hc Hint Hpol Hidle Hrdy Hsorted Hnotin.
  pose proof Hc as (Ec & Hmagic & Hst).
  assert (current_is s0 c') as Hc0.
  { split_and!; [apply lookup_insert_eq|by destruct c..]. }
  assert (∀ x, x ∈ ready_list s → thread_mem s0 !! x = thread_mem s !! x) as Hsame.
  { intros x Hx. cbn. rewrite lookup_insert_ne; [done|]. by intros <-. }
  assert (∀ x, x ∈ ready_list s → eff_of s0 x = eff_of s x) as Heff.
  { intros x Hx. unfold eff_of. by rewrite Hsame. }
  assert (eff_of s0 (esp_page s) = effective_priority c') as Hme.
  { unfold eff_of. cbn. by rewrite lookup_insert_eq. }
  assert (ready_threads_ok s0) as Hrdy0.
  { unfold ready_threads_ok. apply Forall_forall. intros x Hx.
    rewrite (Hsame x Hx). by eapply Forall_forall in Hrdy. }
  assert (ready_sorted s0) as Hsorted0.
  { unfold ready_sorted. by apply (sorted_ext_in (eff_of s)). }
  destruct (thread_yield_priority_cases s0 c' Hc0 Hint Hpol Hidle Hrdy0 Hsorted0)
    as (s' & Hrun & _ & Hover & Hkeep).
  exists s'. split_and!.
  - unfold thread_set_priority. cbn [bind].
    rewrite (thread_current_Some s c Hc).
    rewrite (update_Some _ _ _ _ Ec). exact Hrun.
  - by rewrite effective_priority_max.
  - intros e l El Hle.
    destruct (Hover e l El) as (Hesp & (eth & Ee & Hmem) & _).
    { change (esp_page s0) with (esp_page s). rewrite Hme. rewrite Heff; [done|]. rewrite El. left. }
    split; [done|]. rewrite Hmem.
    rewrite lookup_insert_ne.
    + apply lookup_insert_eq.
    + intros ->. apply Hnotin. rewrite El. left.
  - intros Hlt. rewrite Hkeep.
    + split; [done|].
      rewrite (thread_get_priority_run _ c') by done.
      by rewrite effective_priority_max.
    + intros e He. change (esp_page s0) with (esp_page s). rewrite Hme. rewrite Heff.
      * by apply Hlt.
      * change (ready_list s0) with (ready_list s) in He.
        destruct (ready_list s); [done|]. cbn in He. simplify_eq. left.
Qed.

End Priority.

(** ** The timer tick *)

Section Tick.
Context `{FP : FixedPoint} `{CS : Constants}.

Lemma tick_frame_refl s : tick_frame s s.
Proof. done. Qed.

Lemma tick_frame_trans s1 s2 s3 : tick_frame s1 s2 → tick_frame s2 s3 → tick_frame s1 s3.
Proof. unfold tick_frame. congruence. Qed.

Lemma tick_frame_fields s s' :
  tick_frame s s' →
  esp_page s' = esp_page s ∧ idle_ticks s' = idle_ticks s
  ∧ kernel_ticks s' = kernel_ticks s ∧ user_ticks s' = user_ticks s
  ∧ thread_ticks s' = thread_ticks s ∧ yield_on_return s' = yield_on_return s
  ∧ idle_thread s' = idle_thread s ∧ all_list s' = all_list s
  ∧ free_pages s' = free_pages s ∧ next_tid s' = next_tid s.
Proof. unfold tick_frame, tick_fixed. intros [= ]. by split_and!. Qed.

Lemma preserves_run {A} (R : state → state → Prop) (m : M A) s a s' :
  m s = Some (a, s') → preserves R m → R s s'.
Proof. intros Hrun Hm. by eapply Hm. Qed.

Ltac tick_step :=
  first
    [ apply (preserves_bind tick_frame tick_frame_trans); [|intros ?]
    | apply (preserves_ret tick_frame tick_frame_refl)
    | apply (preserves_gets tick_frame tick_frame_refl)
    | apply (preserves_ASSERT tick_frame tick_frame_refl)
    | apply (preserves_panic tick_frame)
    | apply (preserves_nonnull tick_frame tick_frame_refl)
    | apply (preserves_deref tick_frame tick_frame_refl)
    | apply (preserves_is_thread tick_frame tick_frame_refl tick_frame_trans)
    | apply (preserves_modify tick_frame); intros ?; reflexivity
    | apply (preserves_if tick_frame) ].

Ltac tick_steps := repeat tick_step.

Lemma tick_frame_update t f : preserves tick_frame (update t f).
Proof. unfold update. tick_steps. Qed.

Lemma tick_frame_intr_set_level l : preserves tick_frame (intr_set_level l).
Proof. unfold intr_set_level. tick_steps. Qed.

Lemma tick_frame_priority_less a b : preserves tick_frame (priority_thread_less_func a b).
Proof. unfold priority_thread_less_func, thread_get_effective_priority. tick_steps. Qed.

Lemma tick_frame_list_insert_ordered less t l :
  (∀ a b, preserves tick_frame (less a b)) →
  preserves tick_frame (list_insert_ordered less t l).
Proof.
  intros Hless. induction l as [|e l IH]; cbn [list_insert_ordered]; tick_steps;
    try apply Hless; try apply IH.
Qed.

Lemma tick_frame_queue_at i : preserves tick_frame (queue_at i).
Proof. unfold queue_at. tick_steps. Qed.

Lemma tick_frame_queue_set i q : preserves tick_frame (queue_set i q).
Proof. unfold queue_set. tick_steps; try apply tick_frame_queue_at. Qed.

Lemma tick_frame_mlfq_add_thread t : preserves tick_frame (mlfq_add_thread t).
Proof.
  unfold mlfq_add_thread, mlfq_size_add, mlfq_get_priority.
  tick_steps; try apply tick_frame_queue_at; try apply tick_frame_queue_set.
Qed.

Lemma tick_frame_thread_unblock t : preserves tick_frame (thread_unblock t).
Proof.
  unfold thread_unblock, intr_disable.
  tick_steps;
    try apply tick_frame_intr_set_level; try apply tick_frame_update;
    try apply tick_frame_mlfq_add_thread;
    try apply tick_frame_list_insert_ordered, tick_frame_priority_less.
Qed.

Lemma tick_frame_try_wake_up_loop budget now :
  preserves tick_frame (try_wake_up_loop budget now).
Proof.
  induction budget as [|budget IH]; cbn [try_wake_up_loop]; tick_steps.
  destruct a as [|t rest]; tick_steps;
    try apply tick_frame_thread_unblock; try apply IH;
    try apply tick_frame_list_insert_ordered, tick_frame_priority_less.
Qed.

Lemma tick_frame_try_wake_up_sleeping_threads :
  preserves tick_frame try_wake_up_sleeping_threads.
Proof.
  unfold try_wake_up_sleeping_threads, timer_ticks.
  do 2 (tick_step; [tick_step|]). apply tick_frame_try_wake_up_loop.
Qed.

Lemma tick_frame_mlfq_update_queue i elems :
  preserves tick_frame (mlfq_update_queue i elems).
Proof.
  induction elems as [|t elems IH]; cbn [mlfq_update_queue]; tick_steps;
    try apply tick_frame_queue_at; try apply tick_frame_queue_set; try apply IH.
  all: unfold mlfq_get_priority; tick_steps.
Qed.

Lemma tick_frame_mlfq_update_from indices :
  preserves tick_frame (mlfq_update_from indices).
Proof.
  induction indices as [|i rest IH]; cbn [mlfq_update_from]; tick_steps;
    try apply tick_frame_queue_at; try apply tick_frame_mlfq_update_queue; try apply IH.
Qed.

Lemma tick_frame_recent_cpu_update_all elems :
  preserves tick_frame (recent_cpu_update_all elems).
Proof.
  induction elems as [|t elems IH]; cbn [recent_cpu_update_all]; tick_steps;
    try apply tick_frame_update; try apply IH.
Qed.

(** X10: what every timer tick does to the statistics and to the time
    slice, whatever else it wakes or recomputes.  One of the counters
    idle_ticks and kernel_ticks grows by one, idle_ticks exactly when the
    idle thread runs; user_ticks stays.  The slice counter thread_ticks
    grows by one (as an unsigned 32-bit number), and when it has reached
    TIME_SLICE a yield on return from the interrupt is requested;
    otherwise the request flag is left as it was.  The tick itself never
    switches threads, and it neither makes nor frees a thread. *)
Theorem thread_tick_slice (s s' : state) (c : thread) :
  current_is s c →
  thread_tick s = Some (tt, s') →
  esp_page s' = esp_page s
  ∧ idle_ticks s'
    = idle_ticks s + (if bool_decide (Some (esp_page s) = idle_thread s) then 1 else 0)
  ∧ kernel_ticks s'
    = kernel_ticks s + (if bool_decide (Some (esp_page s) = idle_thread s) then 0 else 1)
  ∧ user_ticks s' = user_ticks s
  ∧ thread_ticks s' = (thread_ticks s + 1) mod 2 ^ 32
  ∧ yield_on_return s'
    = (if thread_ticks s' >=? TIME_SLICE then true else yield_on_return s)
  ∧ all_list s' = all_list s
  ∧ free_pages s' = free_pages s
  ∧ next_tid s' = next_tid s.
Proof.
  intros Hc Hrun. unfold thread_tick in Hrun.
  apply bind_inv in Hrun as (t & s0 & H0 & Hrun).
  rewrite (thread_current_Some s c Hc) in H0. simplify_eq.
  apply bind_inv in Hrun as (idle & s0' & H0' & Hrun). cbn in H0'. simplify_eq.
  apply bind_inv in Hrun as ([] & s1 & H1 & Hrun).
  apply bind_inv in Hrun as ([] & s2 & H2 & Hrun).
  apply bind_inv in Hrun as (now & s3 & H3 & Hrun).
  apply bind_inv in Hrun as (mlfqs & s4 & H4 & Hrun).
  apply bind_inv in Hrun as ([] & s5 & H5 & Hrun).
  apply bind_inv in Hrun as ([] & s6 & H6 & Hrun).
  apply bind_inv in Hrun as (n & s7 & H7 & Hrun).
  apply bind_inv in Hrun as ([] & s8 & H8 & Hrun).
  assert (tick_frame s1 s2) as F2.
  { apply (preserves_run _ _ _ _ _ H2). tick_steps. }
  unfold timer_ticks in H3. cbn in H3, H4. simplify_eq.
  assert (tick_frame s4 s5) as F5.
  { apply (preserves_run _ _ _ _ _ H5). tick_step; [|tick_steps].
    do 4 (tick_step; [tick_step|]).
    tick_step; [apply tick_frame_recent_cpu_update_all|apply tick_frame_mlfq_update_from]. }
  pose proof (tick_frame_try_wake_up_sleeping_threads _ _ _ H6) as F6.
  pose proof (tick_frame_trans _ _ _ (tick_frame_trans _ _ _ F2 F5) F6) as F.
  clear F2 F5 F6 H2 H5 H6.
  apply tick_frame_fields in F
    as (Fesp & Fidle & Fkernel & Fuser & Fticks & Fyield & _ & Fall & Ffree & Ftid).
  cbn in H7, H8. simplify_eq.
  assert (esp_page s1 = esp_page s0' ∧ user_ticks s1 = user_ticks s0'
          ∧ thread_ticks s1 = thread_ticks s0' ∧ yield_on_return s1 = yield_on_return s0'
          ∧ all_list s1 = all_list s0' ∧ free_pages s1 = free_pages s0'
          ∧ next_tid s1 = next_tid s0'
          ∧ idle_ticks s1 = idle_ticks s0'
              + (if bool_decide (Some (esp_page s0') = idle_thread s0') then 1 else 0)
          ∧ kernel_ticks s1 = kernel_ticks s0'
              + (if bool_decide (Some (esp_page s0') = idle_thread s0') then 0 else 1))
    as (Gesp & Guser & Gticks & Gyield & Gall & Gfree & Gtid & Gidle & Gkernel).
  { destruct (bool_decide (Some (esp_page s0') = idle_thread s0'));
      cbn in H1; simplify_eq; cbn; split_and!; try done; lia. }
  clear H1.
  unfold intr_yield_on_return in Hrun.
  destruct ((thread_ticks s7 + 1) `mod` 2 ^ 32 >=? TIME_SLICE) eqn:Eslice;
    cbn in Hrun; simplify_eq; cbn; rewrite ?Eslice; split_and!; congruence.
Qed.


End Tick.

(** ** The size counter of the MLFQ *)

Section Counter.
Context `{FP : FixedPoint} `{CS : Constants}.

Lemma length_concat_insert (qs : list (list thread_ptr)) (j : nat) (q q' : list thread_ptr) :
  qs !! j = Some q →
  (length (concat (<[j := q']> qs)) + length q = length (concat qs) + length q')%nat.
Proof.
  revert j. induction qs as [|x qs IH]; intros [|j] E; try done; cbn in *.
  - simplify_eq. rewrite !length_app. lia.
  - specialize (IH j E). rewrite !length_app, <- !Nat.add_assoc. f_equal. exact IH.
Qed.

(** A bucket array holds no thread, or has a highest bucket that is not
    empty. *)
Lemma highest_bucket (qs : list (list thread_ptr)) :
  (∀ k, (k < length qs)%nat → qs !! k = Some [])
  ∨ ∃ j t q, qs !! j = Some (t :: q)
             ∧ ∀ k, (j < k < length qs)%nat → qs !! k = Some [].
Proof.
  induction qs as [|x qs IH] using rev_ind; [left; cbn; lia|].
  destruct x as [|t q].
  - destruct IH as [Hall|(j & t & q & Ej & Habove)].
    + left. intros k Hk. rewrite length_app in Hk. cbn in Hk.
      destruct (decide (k < length qs)%nat) as [Hlt|Hge].
      * rewrite lookup_app_l by done. by apply Hall.
      * rewrite lookup_app_r by lia. by replace (k - length qs)%nat with 0%nat by lia.
    + right. exists j, t, q. split.
      * rewrite lookup_app_l; [done|]. by eapply lookup_lt_Some.
      * intros k Hk. rewrite length_app in Hk. cbn in Hk.
        destruct (decide (k < length qs)%nat) as [Hlt|Hge].
        -- rewrite lookup_app_l by done. apply Habove. lia.
        -- rewrite lookup_app_r by lia. by replace (k - length qs)%nat with 0%nat by lia.
  - right. exists (length qs), t, q. split.
    + rewrite lookup_app_r by lia. by rewrite Nat.sub_diag.
    + intros k Hk. rewrite length_app in Hk. cbn in Hk. lia.
Qed.

Lemma concat_all_nil (qs : list (list thread_ptr)) :
  (∀ k, (k < length qs)%nat → qs !! k = Some []) → concat qs = [].
Proof.
  induction qs as [|x qs IH]; [done|]. intros Hall. cbn.
  pose proof (Hall 0%nat ltac:(cbn; lia)) as H0. cbn in H0. simplify_eq. cbn.
  apply IH. intros k Hk. apply (Hall (S k)). cbn. lia.
Qed.

(** X11: [next_thread_to_run] under MLFQ with a size counter that is not
    zero.  It returns the first thread of the highest bucket that is not
    empty, takes it out of the bucket and lowers the counter by one.
    When every bucket is empty although the counter is not zero, the scan
    runs off the array into NOT_REACHED and the kernel stops. *)
Theorem next_thread_to_run_highest_bucket (s : state) :
  thread_mlfqs s = true →
  mlfq_size (thread_mlfq s) ≠ 0 →
  (∀ j t q, (j < Z.to_nat MLFQ_QUEUE_SIZE)%nat →
            queues (thread_mlfq s) !! j = Some (t :: q) →
            (∀ k, (j < k < Z.to_nat MLFQ_QUEUE_SIZE)%nat →
                  queues (thread_mlfq s) !! k = Some []) →
            next_thread_to_run s = Some (Some t, popped_bucket j q s))
  ∧ ((∀ k, (k < Z.to_nat MLFQ_QUEUE_SIZE)%nat → queues (thread_mlfq s) !! k = Some []) →
     next_thread_to_run s = None).
Proof.
  intros Hpol Hsize. split.
  - intros j t q Hj Ej Habove. by apply next_thread_to_run_mlfq_run.
  - intros Hall. unfold next_thread_to_run. cbn. rewrite Hpol. cbn.
    destruct (Z.eqb_spec (mlfq_size (thread_mlfq s)) 0) as [|_]; [done|].
    apply mlfq_scan_none. apply Forall_forall.
    intros k Hk%elem_of_reverse%elem_of_seqZ.
    unfold MLFQ_QUEUE_SIZE, PRI_MAX, PRI_MIN in *. split; [lia|].
    apply Hall. lia.
Qed.

(** X12: the size counter as an invariant.  When the counter equals the
    number of threads in the 64 buckets, [next_thread_to_run] under MLFQ
    always returns (NOT_REACHED is not reached): the idle thread without
    any change when the counter is zero, and otherwise a thread that was
    in a bucket, with the counter one lower; and [thread_unblock] of a
    BLOCKED thread returns as well.  Both leave the counter equal to the
    number of threads in the buckets. *)
Theorem mlfq_counter_invariant (s : state) :
  thread_mlfqs s = true →
  mlfq_counted s →
  (∃ r s', next_thread_to_run s = Some (r, s')
           ∧ mlfq_counted s'
           ∧ (mlfq_size (thread_mlfq s) = 0 → r = idle_thread s ∧ s' = s)
           ∧ (mlfq_size (thread_mlfq s) ≠ 0 →
              ∃ t i, r = Some t ∧ in_bucket (queues (thread_mlfq s)) i t
                     ∧ mlfq_size (thread_mlfq s') = mlfq_size (thread_mlfq s) - 1))
  ∧ (∀ t th, thread_mem s !! t = Some th → magic th = THREAD_MAGIC →
             status th = THREAD_BLOCKED →
             ∃ s', thread_unblock t s = Some (tt, s') ∧ mlfq_counted s'
                   ∧ mlfq_size (thread_mlfq s') = mlfq_size (thread_mlfq s) + 1).
Proof.
  intros Hpol [Hlen Hsize]. split.
  - destruct (decide (mlfq_size (thread_mlfq s) = 0)) as [Hz|Hnz].
    + exists (idle_thread s), s. split_and!; [|done|done|done].
      unfold next_thread_to_run. cbn. rewrite Hpol. cbn. by rewrite Hz.
    + destruct (highest_bucket (queues (thread_mlfq s))) as [Hall|(j & t & q & Ej & Habove)].
      { apply concat_all_nil in Hall. rewrite Hall in Hsize. done. }
      assert (j < Z.to_nat MLFQ_QUEUE_SIZE)%nat as Hj.
      { rewrite <- Hlen. by eapply lookup_lt_Some. }
      rewrite Hlen in Habove.
      exists (Some t), (popped_bucket j q s). split_and!; [|split| |].
      * by apply next_thread_to_run_mlfq_run.
      * cbn. by rewrite length_insert.
      * cbn. pose proof (length_concat_insert _ j _ q Ej) as Hc. cbn in Hc. lia.
      * done.
      * intros _. exists t, j. split_and!; [done| |cbn; lia].
        exists (t :: q). split; [done|left].
  - intros t th Et Hm Hst.
    assert (ready_structure_ok s) as Hok.
    { unfold ready_structure_ok. by rewrite Hpol. }
    rewrite (thread_unblock_run s t th Et Hm Hst Hok).
    rewrite unblock_insert_mlfq by done.
    eexists. split; [done|]. unfold ready_insert. rewrite Hpol. cbn.
    destruct (bucket_exists (queues (thread_mlfq s)) th Hlen) as [q Eq].
    rewrite <- (list_insert_as_alter (λ q', q' ++ [t]) _ _ _ Eq).
    split; [split|done]; cbn.
    + by rewrite length_insert.
    + pose proof (length_concat_insert _ _ _ (q ++ [t]) Eq) as Hc.
      rewrite length_app in Hc. cbn in Hc. lia.
Qed.

End Counter.

(** ** Thread identifiers *)

Section Tids.
Context `{FP : FixedPoint} `{CS : Constants}.

Lemma tid_frame_refl s : tid_frame s s.
Proof. split; [done|]. intros t th E. by exists th. Qed.

Lemma tid_frame_trans s1 s2 s3 : tid_frame s1 s2 → tid_frame s2 s3 → tid_frame s1 s3.
Proof.
  intros [N1 H1] [N2 H2]. split; [congruence|].
  intros t th3 E3. destruct (H2 t th3 E3) as (th2 & E2 & T2).
  destruct (H1 t th2 E2) as (th1 & E1 & T1). exists th1. split; [done|congruence].
Qed.

(** A step that touches neither the thread records nor the counter. *)
Lemma tid_frame_same s s' :
  thread_mem s' = thread_mem s → next_tid s' = next_tid s → tid_frame s s'.
Proof. intros Hm Hn. split; [done|]. intros t th E. rewrite Hm in E. by exists th. Qed.

Lemma tid_frame_update t f :
  (∀ th, tid (f th) = tid th) → preserves tid_frame (update t f).
Proof.
  intros Hf s a s' Hrun. unfold update in Hrun. cbn in Hrun.
  destruct (thread_mem s !! t) as [th|] eqn:E; [|done]. simplify_eq.
  split; [done|]. cbn. intros x th' Ex.
  destruct (decide (t = x)) as [->|Hne].
  - rewrite lookup_insert_eq in Ex. simplify_eq. by exists th.
  - rewrite lookup_insert_ne in Ex by done. by exists th'.
Qed.

Lemma tid_frame_sched s s' : sched_frame s s' → tid_frame s s'.
Proof.
  intros H. split; [apply H|].
  intros t th' E. destruct (sf_no_new _ _ H t th' E) as (th & st & E0 & ->).
  exists th. split; [done|]. by destruct th.
Qed.

Ltac tid_step :=
  first
    [ apply tid_frame_update; intros []; reflexivity
    | apply (preserves_bind tid_frame tid_frame_trans); [|intros ?]
    | apply (preserves_ret tid_frame tid_frame_refl)
    | apply (preserves_gets tid_frame tid_frame_refl)
    | apply (preserves_ASSERT tid_frame tid_frame_refl)
    | apply (preserves_panic tid_frame)
    | apply (preserves_nonnull tid_frame tid_frame_refl)
    | apply (preserves_deref tid_frame tid_frame_refl)
    | apply (preserves_is_thread tid_frame tid_frame_refl tid_frame_trans)
    | apply (preserves_modify tid_frame); intros ?; by apply tid_frame_same
    | apply (preserves_if tid_frame) ].

Ltac tid_steps := repeat tid_step.

Lemma tid_frame_thread_current : preserves tid_frame thread_current.
Proof. unfold thread_current, running_thread. tid_steps. Qed.

Lemma tid_frame_intr_set_level l : preserves tid_frame (intr_set_level l).
Proof. unfold intr_set_level. tid_steps. Qed.

Lemma tid_frame_list_insert_ordered t l :
  preserves tid_frame (list_insert_ordered priority_thread_less_func t l).
Proof.
  induction l as [|e l IH]; cbn [list_insert_ordered]; tid_steps; try apply IH.
  all: unfold priority_thread_less_func, thread_get_effective_priority; tid_steps.
Qed.

Lemma tid_frame_mlfq_add_thread t : preserves tid_frame (mlfq_add_thread t).
Proof.
  unfold mlfq_add_thread, mlfq_size_add, mlfq_get_priority, queue_set, queue_at.
  tid_steps.
Qed.

Lemma tid_frame_thread_unblock t : preserves tid_frame (thread_unblock t).
Proof.
  unfold thread_unblock, intr_disable.
  do 6 (tid_step; [first [apply tid_frame_intr_set_level | tid_steps]|]).
  tid_step.
  { tid_step; [apply tid_frame_mlfq_add_thread|].
    tid_step; [tid_step|]. tid_step; [apply tid_frame_list_insert_ordered|].
    tid_step; tid_step. }
  tid_step; [tid_step|]. tid_step; [tid_step|].
  tid_step; [apply tid_frame_intr_set_level|tid_step].
Qed.

Lemma tid_frame_schedule : preserves tid_frame schedule.
Proof. intros s a s' Hrun. by eapply tid_frame_sched, preserves_schedule. Qed.

Lemma tid_frame_thread_yield : preserves tid_frame thread_yield.
Proof.
  unfold thread_yield, intr_context, intr_disable.
  tid_step; [apply tid_frame_thread_current|].
  tid_step; [tid_step|]. tid_step; [tid_step|].
  tid_step; [apply tid_frame_intr_set_level|].
  tid_step; [tid_step|].
  tid_step.
  { tid_step; [|tid_step]. tid_step; [tid_step|].
    tid_step; [apply tid_frame_mlfq_add_thread|].
    tid_step; [tid_step|]. tid_step; [apply tid_frame_list_insert_ordered|tid_step]. }
  tid_step; [tid_step|].
  tid_step; [apply tid_frame_schedule|].
  intros s x s' Hrun. by eapply tid_frame_sched, preserves_after_schedule.
Qed.

(** X13: the tids [thread_create] hands out are fresh.  When every
    thread has a tid below the counter, the counter is below INT_MAX
    (2^31 - 1, so that the increment of the [int] does not wrap) and a
    page is free, a call that returns gives the value of the counter as
    the tid and raises the counter by one; afterwards every thread still
    has a tid below the counter, and no thread other than the one on the
    new page has the tid returned. *)
Theorem thread_create_fresh_tid (s s' : state) (nm : string) (prio : Z)
    (f : option positive) (aux : Z) (t : thread_ptr) (pages : list thread_ptr) (r : Z) :
  tids_below s →
  next_tid s < 2 ^ 31 - 1 →
  free_pages s = t :: pages →
  thread_create nm prio f aux s = Some (r, s') →
  r = next_tid s
  ∧ next_tid s' = next_tid s + 1
  ∧ next_tid s' ≤ 2 ^ 31 - 1
  ∧ tids_below s'
  ∧ ∀ x th, thread_mem s' !! x = Some th → tid th = r → x = t.
Proof.
  intros Hbelow Hbound Hfree Hrun. unfold thread_create in Hrun.
  apply bind_inv in Hrun as ([] & s0 & H0 & Hrun).
  destruct f as [f|]; [|done]. cbn in H0. simplify_eq.
  apply bind_inv in Hrun as (p & s1 & H1 & Hrun).
  unfold palloc_get_page in H1. cbn in H1. rewrite Hfree in H1. cbn in H1. simplify_eq.
  apply bind_inv in Hrun as ([] & s2 & H2 & Hrun).
  assert (∀ x th, x ≠ t → thread_mem s2 !! x = Some th → thread_mem s0 !! x = Some th)
    as Hold.
  { unfold init_thread, intr_disable, intr_set_level in H2. cbn in H2.
    case_bool_decide; [|done]. cbn in H2. simplify_eq. cbn.
    intros x th Hx. by rewrite lookup_insert_ne. }
  assert (next_tid s2 = next_tid s0) as Hn2.
  { unfold init_thread, intr_disable, intr_set_level in H2. cbn in H2.
    case_bool_decide; [|done]. cbn in H2. by simplify_eq. }
  clear H2.
  apply bind_inv in Hrun as (cur1 & s3 & H3 & Hrun).
  apply bind_inv in Hrun as (c1 & s4 & H4 & Hrun).
  apply bind_inv in Hrun as ([] & s5 & H5 & Hrun).
  apply bind_inv in Hrun as (cur2 & s6 & H6 & Hrun).
  apply bind_inv in Hrun as (c2 & s7 & H7 & Hrun).
  apply bind_inv in Hrun as ([] & s8 & H8 & Hrun).
  assert (tid_frame s2 s8) as F28.
  { eapply tid_frame_trans; [apply (tid_frame_thread_current _ _ _ H3)|].
    eapply tid_frame_trans; [apply (preserves_run _ _ _ _ _ H4); tid_step|].
    eapply tid_frame_trans; [apply (preserves_run _ _ _ _ _ H5); tid_step|].
    eapply tid_frame_trans; [apply (tid_frame_thread_current _ _ _ H6)|].
    eapply tid_frame_trans; [apply (preserves_run _ _ _ _ _ H7); tid_step|].
    apply (preserves_run _ _ _ _ _ H8); tid_step. }
  clear H3 H4 H5 H6 H7 H8.
  apply bind_inv in Hrun as (new & s9 & H9 & Hrun).
  unfold allocate_tid in H9. cbn in H9. simplify_eq.
  apply bind_inv in Hrun as ([] & s10 & H10 & Hrun).
  unfold update in H10. cbn in H10.
  destruct (thread_mem s8 !! t) as [th8|] eqn:E8; [|done]. simplify_eq.
  apply bind_inv in Hrun as ([] & s11 & H11 & Hrun).
  apply bind_inv in Hrun as (cur3 & s12 & H12 & Hrun).
  apply bind_inv in Hrun as (c3 & s13 & H13 & Hrun).
  apply bind_inv in Hrun as (mlfqs & s14 & H14 & Hrun).
  apply bind_inv in Hrun as ([] & s15 & H15 & Hrun).
  cbn in Hrun. simplify_eq.
  match type of H11 with thread_unblock _ ?S = _ => set (s10 := S) in * end.
  assert (tid_frame s10 s') as F.
  { eapply tid_frame_trans; [apply (tid_frame_thread_unblock _ _ _ _ H11)|].
    eapply tid_frame_trans; [apply (tid_frame_thread_current _ _ _ H12)|].
    eapply tid_frame_trans; [apply (preserves_run _ _ _ _ _ H13); tid_step|].
    eapply tid_frame_trans; [apply (preserves_run _ _ _ _ _ H14); tid_step|].
    apply (preserves_run _ _ _ _ _ H15).
    tid_step; [apply tid_frame_thread_yield|tid_step]. }
  clear H11 H12 H13 H14 H15.
  destruct F28 as [N28 F28], F as [N F].
  assert (∀ x th, thread_mem s' !! x = Some th →
            (x = t ∧ tid th = next_tid s0) ∨ (x ≠ t ∧ tid th < next_tid s0)) as Hcases.
  { intros x th' E'. destruct (F x th' E') as (th10 & E10 & ->).
    subst s10. cbn in E10.
    destruct (decide (x = t)) as [->|Hne].
    - left. rewrite lookup_insert_eq in E10. split; [done|]. simplify_eq.
      rewrite N28, Hn2. by destruct th8.
    - right. split; [done|]. rewrite lookup_insert_ne in E10 by done.
      destruct (F28 x th10 E10) as (th2 & E2 & ->).
      apply (Hbelow x). by apply Hold. }
  assert (next_tid s' = next_tid s0 + 1) as Hn'.
  { rewrite N. subst s10. cbn. by rewrite N28, Hn2. }
  split_and!.
  - by rewrite N28, Hn2.
  - done.
  - rewrite Hn'. lia.
  - intros x th E. rewrite Hn'. destruct (Hcases x th E) as [[_ ->]|[_ ?]]; lia.
  - intros x th E Hr. rewrite N28, Hn2 in Hr.
    destruct (Hcases x th E) as [[-> _]|[_ ?]]; [done|lia].
Qed.

(** X14: what [schedule] leaves alone.  Whenever it returns, the sleep
    list, the list of all threads, the idle and the initial thread, the
    tid counter, the load average, the locks and the policy are as they
    were; the ready structures gained no thread; every thread that was
    not DYING is still there, not DYING, with a record that differs in
    its status at most; and no thread record appeared. *)
Theorem schedule_frame (s s' : state) :
  schedule s = Some (tt, s') → sched_frame s s'.
Proof. apply preserves_schedule. Qed.

End Tids.

(** ** The running thread and round trips *)

Section RoundTrips.
Context `{FP : FixedPoint} `{CS : Constants}.

(** X15: [thread_current] is a check as much as a getter.  It returns
    the thread whose page holds the stack pointer, without changing
    anything, when the record there carries the thread magic and is
    RUNNING; in every other case (no thread there, the magic overwritten
    as by a stack overflow, or a status other than RUNNING) it stops the
    kernel. *)
Theorem thread_current_checks (s : state) :
  (∀ c, current_is s c → thread_current s = Some (esp_page s, s))
  ∧ ((¬ ∃ c, current_is s c) → thread_current s = None)
  ∧ (∀ r, thread_current s = Some r → r = (esp_page s, s) ∧ ∃ c, current_is s c).
Proof.
  assert (∀ r, thread_current s = Some r → r = (esp_page s, s) ∧ ∃ c, current_is s c) as Hinv.
  { intros r Hrun. unfold thread_current, running_thread, is_thread in Hrun. cbn in Hrun.
    destruct (thread_mem s !! esp_page s) as [c|] eqn:Ec; [|done]. cbn in Hrun.
    case_bool_decide as Hm; [|done]. cbn in Hrun. rewrite Ec in Hrun. cbn in Hrun.
    case_bool_decide as Hs; [|done]. cbn in Hrun. simplify_eq.
    split; [done|]. by exists c. }
  split_and!; [|intros Hno|done].
  - intros c Hc. by apply (thread_current_Some s c).
  - destruct (thread_current s) as [r|] eqn:E; [|done].
    destruct (Hinv r eq_refl) as [_ Hc]. by destruct Hno.
Qed.

Lemma next_thread_to_run_length s r s1 :
  next_thread_to_run s = Some (r, s1) →
  length (queues (thread_mlfq s1)) = length (queues (thread_mlfq s))
  ∧ thread_mlfqs s1 = thread_mlfqs s
  ∧ ∀ x, x ∈ ready_list s1 → x ∈ ready_list s.
Proof.
  intros [(_ & -> & _)|[(_ & t & l & El & _ & ->)|(_ & _ & j & t & q & _ & _ & _ & _ & ->)]]%next_thread_to_run_inv.
  - done.
  - split_and!; [done..|]. cbn. intros x Hx. rewrite El. by right.
  - split_and!; [|done..]. cbn. by rewrite length_insert.
Qed.

Lemma unblocked_after_block c :
  unblocked (set_status THREAD_BLOCKED c) = unblocked c.
Proof. by destruct c. Qed.

Lemma queued_ready_insert s t th : ready_structure_ok s → queued (ready_insert s t th) t.
Proof.
  unfold ready_structure_ok, ready_insert, queued. intros Hok.
  destruct (thread_mlfqs s); cbn.
  - right. destruct (bucket_exists (queues (thread_mlfq s)) th Hok) as [q Eq].
    exists (Z.to_nat (mlfq_priority th)), (q ++ [t]). split.
    + by rewrite list_lookup_alter_eq, Eq.
    + apply elem_of_app. right. left.
  - left. apply elem_of_insert_before. by left.
Qed.

(** X16: blocking and unblocking as a round trip.  After a thread that
    is neither idle nor queued has blocked itself, [thread_unblock] on it
    (by whoever runs then) returns, does not preempt the thread on the
    CPU, and puts the blocked thread back into the ready structure with
    the record it had, READY instead of RUNNING and its blocked reason
    UNKNOWN; no other record changes. *)
Theorem thread_block_unblock_round_trip (s s1 : state) (c : thread) :
  current_is s c →
  thread_block s = Some (tt, s1) →
  idle_thread s ≠ Some (esp_page s) →
  ¬ queued s (esp_page s) →
  ready_structure_ok s →
  ∃ s2, thread_unblock (esp_page s) s1 = Some (tt, s2)
        ∧ esp_page s2 = esp_page s1
        ∧ thread_mem s2 !! esp_page s = Some (unblocked c)
        ∧ queued s2 (esp_page s)
        ∧ ∀ t, t ≠ esp_page s → thread_mem s2 !! t = thread_mem s1 !! t.
Proof.
  intros Hc Hrun Hidle Hq Hok. pose proof Hc as (Ec & Hmagic & Hst).
  destruct (thread_block_inv s s1 c Hc Hrun)
    as (_ & _ & n & s0 & nth & Hnext & En & _ & ->).
  pose proof (next_thread_to_run_picks _ _ _ Hnext) as Hpick. cbn in Hpick.
  destruct (next_thread_to_run_others _ _ _ Hnext) as (Hmem & _).
  destruct (next_thread_to_run_length _ _ _ Hnext) as (Hlen & Hpol & Hsub).
  cbn in Hmem, Hlen, Hpol, Hsub.
  assert (n ≠ esp_page s) as Hne.
  { intros ->. destruct Hpick as [Hi|Hi]; [by apply Hidle|by apply Hq]. }
  rewrite lookup_insert_ne in En by done.
  set (s1 := scheduled s0 (esp_page s) (set_status THREAD_BLOCKED c) n nth).
  assert (∀ x, thread_mem s1 !! x
               = if decide (x = n) then Some (set_status THREAD_RUNNING nth)
                 else if decide (x = esp_page s) then Some (set_status THREAD_BLOCKED c)
                 else thread_mem s !! x) as Hlook.
  { intros x. subst s1. rewrite scheduled_lookup, Hmem, reaps_not_dying by done.
    destruct (decide (x = n)); [done|].
    destruct (decide (x = esp_page s)) as [->|]; [by rewrite lookup_insert_eq|].
    by rewrite lookup_insert_ne. }
  assert (thread_mem s1 !! esp_page s = Some (set_status THREAD_BLOCKED c)) as E1.
  { rewrite Hlook. rewrite decide_False by congruence. by rewrite decide_True. }
  assert (ready_structure_ok s1) as Hok1.
  { revert Hok. unfold ready_structure_ok. subst s1.
    rewrite scheduled_thread_mlfqs, scheduled_thread_mlfq, scheduled_ready_list, Hpol, Hlen.
    destruct (thread_mlfqs s); [done|]. intros Hok.
    apply Forall_forall. intros x Hx%Hsub. eapply Forall_forall in Hok; [|exact Hx].
    unfold valid. rewrite Hlook.
    destruct (decide (x = n)); [by eexists|].
    destruct (decide (x = esp_page s)); [by eexists|]. exact Hok. }
  rewrite (thread_unblock_run s1 (esp_page s) (set_status THREAD_BLOCKED c) E1)
    by (done || by destruct c).
  eexists. split; [done|]. cbn. split_and!.
  - by rewrite unblock_insert_esp_page.
  - by rewrite lookup_insert_eq, unblocked_after_block.
  - unfold queued. cbn. rewrite unblock_insert_ready_list, unblock_insert_thread_mlfq.
    destruct (queued_ready_insert s1 (esp_page s) (set_status THREAD_BLOCKED c) Hok1)
      as [Hin|Hin]; [by left|by right].
  - intros t Ht. by rewrite lookup_insert_ne.
Qed.

End RoundTrips.

(** ** Taking turns *)

Section Turns.
Context `{FP : FixedPoint} `{CS : Constants}.

Lemma mode_frame_refl s : mode_frame s s.
Proof. done. Qed.

Lemma mode_frame_trans s1 s2 s3 : mode_frame s1 s2 → mode_frame s2 s3 → mode_frame s1 s3.
Proof. unfold mode_frame. congruence. Qed.

Ltac mode_step :=
  first
    [ apply (preserves_bind mode_frame mode_frame_trans); [|intros ?]
    | apply (preserves_ret mode_frame mode_frame_refl)
    | apply (preserves_gets mode_frame mode_frame_refl)
    | apply (preserves_ASSERT mode_frame mode_frame_refl)
    | apply (preserves_panic mode_frame)
    | apply (preserves_nonnull mode_frame mode_frame_refl)
    | apply (preserves_deref mode_frame mode_frame_refl)
    | apply (preserves_is_thread mode_frame mode_frame_refl mode_frame_trans)
    | apply (preserves_modify mode_frame); intros ?; reflexivity
    | apply (preserves_if mode_frame) ].

Ltac mode_steps := repeat mode_step.

Lemma mode_frame_list_insert_ordered t l :
  preserves mode_frame (list_insert_ordered priority_thread_less_func t l).
Proof.
  induction l as [|e l IH]; cbn [list_insert_ordered]; mode_steps; try apply IH.
  all: unfold priority_thread_less_func, thread_get_effective_priority; mode_steps.
Qed.

Lemma mode_frame_mlfq_scan indices : preserves mode_frame (mlfq_scan indices).
Proof.
  induction indices as [|i rest IH]; cbn [mlfq_scan]; mode_steps.
  destruct a as [|t q]; [apply IH|].
  unfold mlfq_size_add, queue_set, queue_at. mode_steps.
Qed.

Ltac mode_auto :=
  repeat first
    [ apply mode_frame_mlfq_scan
    | apply mode_frame_list_insert_ordered
    | mode_step
    | match goal with
      | |- preserves _ (match ?x with _ => _ end) => destruct x
      end ].

Lemma mode_frame_schedule : preserves mode_frame schedule.
Proof.
  unfold schedule, running_thread, intr_get_level, next_thread_to_run, switch_threads,
    thread_schedule_tail, update, palloc_free_page.
  mode_auto.
Qed.

Lemma mode_frame_thread_yield : preserves mode_frame thread_yield.
Proof.
  unfold thread_yield, thread_current, running_thread, intr_context, intr_disable,
    intr_set_level, update, mlfq_add_thread, mlfq_size_add, mlfq_get_priority,
    queue_set, queue_at, after_schedule.
  repeat first [apply mode_frame_schedule | mode_auto].
Qed.

Lemma mode_frame_fields s s' :
  mode_frame s s' →
  in_external_intr s' = in_external_intr s ∧ thread_mlfqs s' = thread_mlfqs s
  ∧ idle_thread s' = idle_thread s.
Proof. unfold mode_frame, mode_fixed. intros [= ]. by split_and!. Qed.

(** The front part of a split of [l] is empty when it holds threads of
    at least the key and [l] only threads below it. *)
Lemma split_all_below (key : thread_ptr → Z) (k : Z) (l l1 l2 : list thread_ptr) :
  l = l1 ++ l2 → (∀ x, x ∈ l1 → k ≤ key x) → (∀ x, x ∈ l → key x < k) → l1 = [].
Proof.
  intros -> H1 Hl. destruct l1 as [|x l1]; [done|].
  specialize (H1 x ltac:(left)). specialize (Hl x ltac:(left)). lia.
Qed.

(** X17: taking turns under the priority policy.  When the running
    thread and the first ready thread [e] have the same effective
    priority and every other ready thread a lower one, a yield of the
    running thread gives the CPU to [e] and queues the caller first; the
    next yield, by [e], gives the CPU back and leaves the ready list as
    it was at the start, with the first thread's record as it was. *)
Theorem thread_yield_takes_turns (s : state) (c : thread) (e : thread_ptr)
    (l : list thread_ptr) :
  current_is s c → in_external_intr s = false → thread_mlfqs s = false →
  Some (esp_page s) ≠ idle_thread s → Some e ≠ idle_thread s →
  ready_threads_ok s → ready_sorted s →
  ready_list s = e :: l → e ≠ esp_page s →
  eff_of s e = eff_of s (esp_page s) →
  (∀ x, x ∈ l → eff_of s x < eff_of s (esp_page s)) →
  ∃ s1 s2,
    thread_yield s = Some (tt, s1)
    ∧ esp_page s1 = e ∧ ready_list s1 = esp_page s :: l
    ∧ thread_yield s1 = Some (tt, s2)
    ∧ esp_page s2 = esp_page s ∧ ready_list s2 = e :: l
    ∧ thread_mem s2 !! esp_page s = Some c.
Proof.
  intros Hc Hint Hpol Hidle Hidle_e Hrdy Hsorted El Hne Heq Hlow.
  pose proof Hc as (Ec & Hmagic & Hst).
  destruct (thread_yield_priority_cases s c Hc Hint Hpol Hidle Hrdy Hsorted)
    as (s1 & Hrun1 & Hsorted1 & Hover1 & _).
  destruct (Hover1 e l El ltac:(lia))
    as (Hesp1 & (eth & Ee & Hmem1) & l1 & l2 & Hl & Hrl1 & Hl1 & _).
  assert (l1 = []) as ->
    by exact (split_all_below (eff_of s) (eff_of s (esp_page s)) l l1 l2 Hl Hl1 Hlow).
  cbn in Hl, Hrl1. subst l2.
  destruct (mode_frame_fields _ _ (mode_frame_thread_yield _ _ _ Hrun1))
    as (Hint1 & Hpol1 & Hidle1).
  rewrite Hint in Hint1. rewrite Hpol in Hpol1.
  unfold ready_threads_ok in Hrdy. rewrite El in Hrdy.
  apply Forall_cons in Hrdy as [(eth' & Ee' & Hme) Hrdy_l].
  assert (eth' = eth) as -> by congruence. clear Ee'.
  assert (∀ x, effective_priority <$> thread_mem s1 !! x
               = effective_priority <$> thread_mem s !! x) as Hprio.
  { intros x. rewrite Hmem1. destruct (decide (x = e)) as [->|Hx].
    { rewrite lookup_insert_eq, Ee. cbn. by rewrite effective_priority_set_status. }
    rewrite lookup_insert_ne by done.
    destruct (decide (x = esp_page s)) as [->|Hx'].
    { rewrite lookup_insert_eq, Ec. cbn. by rewrite effective_priority_set_status. }
    by rewrite lookup_insert_ne. }
  assert (∀ x, eff_of s1 x = eff_of s x) as Heff by (intros x; by apply eff_of_ext).
  assert (current_is s1 (set_status THREAD_RUNNING eth)) as Hc1.
  { split_and!; [|by destruct eth..]. by rewrite Hesp1, Hmem1, lookup_insert_eq. }
  assert (thread_mem s1 !! esp_page s = Some (set_status THREAD_READY c)) as Ec1.
  { rewrite Hmem1, lookup_insert_ne by done. apply lookup_insert_eq. }
  assert (ready_threads_ok s1) as Hrdy1.
  { unfold ready_threads_ok. rewrite Hrl1. constructor.
    - eexists. split; [exact Ec1|]. by destruct c.
    - eapply Forall_impl; [exact Hrdy_l|]. cbn. intros x (th & Ex & Hmx).
      rewrite Hmem1. destruct (decide (x = e)) as [->|Hx].
      { rewrite lookup_insert_eq. eexists. split; [done|]. by destruct eth. }
      rewrite lookup_insert_ne by done.
      destruct (decide (x = esp_page s)) as [->|Hx'].
      { rewrite lookup_insert_eq. eexists. split; [done|]. by destruct c. }
      rewrite lookup_insert_ne by done. by exists th. }
  destruct (thread_yield_priority_cases s1 _ Hc1 Hint1 Hpol1
              ltac:(by rewrite Hesp1, Hidle1) Hrdy1 Hsorted1)
    as (s2 & Hrun2 & _ & Hover2 & _).
  destruct (Hover2 (esp_page s) l Hrl1 ltac:(rewrite Hesp1, !Heff; lia))
    as (Hesp2 & (cth & Ec1' & Hmem2) & l1 & l2 & Hl & Hrl2 & Hl1' & _).
  rewrite Hesp1 in Hrl2, Hl1', Hmem2.
  assert (l1 = []) as ->.
  { eapply (split_all_below (eff_of s1) (eff_of s1 e)); [exact Hl|exact Hl1'|].
    intros x Hx. rewrite !Heff, Heq. by apply Hlow. }
  cbn in Hl, Hrl2. subst l2.
  exists s1, s2. split_and!; try done.
  rewrite Hmem2, lookup_insert_eq. assert (cth = set_status THREAD_READY c) as -> by congruence.
  rewrite set_status_set_status, <- Hst. by rewrite set_status_same.
Qed.

End Turns.

(** ** Yielding under MLFQ *)

Section YieldMlfq.
Context `{FP : FixedPoint} `{CS : Constants}.

(** X18: [thread_yield] under MLFQ always returns when the size counter
    counts the threads in the 64 buckets and these are threads (their
    records carry the magic): the scan of [next_thread_to_run] finds the
    caller at the latest.  The thread that gets the CPU is the caller or
    was in a bucket, and the counter still counts the threads in the
    buckets, with the value it had. *)
Theorem thread_yield_mlfq_returns (s : state) (c : thread) :
  current_is s c → in_external_intr s = false → thread_mlfqs s = true →
  Some (esp_page s) ≠ idle_thread s →
  mlfq_counted s →
  (∀ i t, in_bucket (queues (thread_mlfq s)) i t →
          ∃ th, thread_mem s !! t = Some th ∧ magic th = THREAD_MAGIC) →
  ∃ s', thread_yield s = Some (tt, s')
        ∧ mlfq_counted s'
        ∧ mlfq_size (thread_mlfq s') = mlfq_size (thread_mlfq s)
        ∧ (esp_page s' = esp_page s
           ∨ ∃ i, in_bucket (queues (thread_mlfq s)) i (esp_page s')).
Proof.
  intros Hc Hint Hpol Hidle [Hlen Hsize] Hvalid.
  pose proof Hc as (Ec & Hmagic & Hst).
  assert (Some (esp_page s) ≠ idle_thread s → ready_structure_ok s) as Hok.
  { intros _. unfold ready_structure_ok. by rewrite Hpol. }
  pose proof (yielding_thread_mem s c) as HYmem.
  pose proof (yielding_thread_mlfqs s c) as HYpol. rewrite Hpol in HYpol.
  pose proof (yielding_thread_mlfq s c Hpol Hidle) as HYq.
  destruct (bucket_exists (queues (thread_mlfq s)) c Hlen) as [q0 E0].
  set (j0 := Z.to_nat (mlfq_priority c)) in *.
  set (qs := alter (λ q, q ++ [esp_page s]) j0 (queues (thread_mlfq s))) in *.
  assert (qs = <[j0 := q0 ++ [esp_page s]]> (queues (thread_mlfq s))) as Hqs.
  { subst qs. symmetry. exact (list_insert_as_alter (λ q, q ++ [esp_page s]) _ _ _ E0). }
  assert (length qs = Z.to_nat MLFQ_QUEUE_SIZE) as Hlen'.
  { by rewrite Hqs, length_insert. }
  assert (Z.of_nat (length (concat qs)) = mlfq_size (thread_mlfq s) + 1) as Hsize'.
  { pose proof (length_concat_insert _ _ _ (q0 ++ [esp_page s]) E0) as Hcat.
    rewrite <- Hqs, length_app in Hcat. cbn in Hcat. lia. }
  destruct (highest_bucket qs) as [Hall|(j & t & q & Ej & Habove)].
  { apply concat_all_nil in Hall. rewrite Hall in Hsize'. cbn in Hsize'. lia. }
  assert (j < Z.to_nat MLFQ_QUEUE_SIZE)%nat as Hj.
  { rewrite <- Hlen'. by eapply lookup_lt_Some. }
  rewrite Hlen' in Habove.
  assert (t = esp_page s ∨ ∃ i, in_bucket (queues (thread_mlfq s)) i t) as Hwho.
  { rewrite Hqs in Ej. destruct (decide (j = j0)) as [->|Hjne].
    - rewrite list_lookup_insert_eq in Ej by (by eapply lookup_lt_Some).
      assert (t ∈ q0 ++ [esp_page s]) as Hin by (injection Ej as ->; left).
      apply elem_of_app in Hin as [Hin|Hin%list_elem_of_singleton]; [|by left].
      right. exists j0, q0. done.
    - rewrite list_lookup_insert_ne in Ej by done.
      right. exists j, (t :: q). split; [done|left]. }
  assert (∃ nth, thread_mem (yielding s c) !! t = Some nth ∧ magic nth = THREAD_MAGIC)
    as (nth & En & Hmn).
  { rewrite HYmem. destruct (decide (t = esp_page s)) as [->|Hne].
    - rewrite lookup_insert_eq. eexists. split; [done|by destruct c].
    - rewrite lookup_insert_ne by done.
      destruct Hwho as [?|(i & Hin)]; [done|]. by apply (Hvalid i). }
  eexists. split.
  { eapply (thread_yield_run s c t); [done..| |exact En|done].
    apply (next_thread_to_run_mlfq_run _ j t q); rewrite ?HYq; cbn; [done|lia|done..]. }
  rewrite resumed_esp_page, scheduled_esp_page.
  unfold mlfq_counted.
  rewrite resumed_thread_mlfq, scheduled_thread_mlfq. unfold popped_bucket.
  rewrite HYq. cbn. fold qs. split_and!.
  - by rewrite length_insert.
  - pose proof (length_concat_insert _ _ _ q Ej) as Hcat. cbn in Hcat. lia.
  - lia.
  - done.
Qed.

(** A thread of a bucket is among the threads of the buckets. *)
Lemma in_bucket_concat (qs : list (list thread_ptr)) (i : nat) (t : thread_ptr) :
  in_bucket qs i t → t ∈ concat qs.
Proof.
  intros (q & Hq & Hin). revert i Hq.
  induction qs as [|x qs IH]; intros [|i] Hq; try done; cbn in *; apply elem_of_app.
  - left. by simplify_eq.
  - right. by eapply IH.
Qed.

End YieldMlfq.

(** ** Going to sleep *)

Section Sleep.
Context `{FP : FixedPoint} `{CS : Constants}.

(** An ordered insertion with a comparator that only reads puts the
    node somewhere into the list and changes nothing else. *)
Lemma list_insert_ordered_inv less t l s l' s' :
  (∀ a b s0 r s1, less a b s0 = Some (r, s1) → s1 = s0) →
  list_insert_ordered less t l s = Some (l', s') →
  s' = s ∧ ∃ l1 l2, l = l1 ++ l2 ∧ l' = l1 ++ t :: l2.
Proof.
  intros Hless. revert l'. induction l as [|e l IH]; intros l' Hrun.
  - change (Some ([t], s) = Some (l', s')) in Hrun. simplify_eq.
    split; [done|]. by exists [], [].
  - change (list_insert_ordered less t (e :: l) s) with
      ((b <- less t e;;
        if b then ret (t :: e :: l)
        else (r <- list_insert_ordered less t l;; ret (e :: r))) s) in Hrun.
    apply bind_inv in Hrun as (b & s0 & Hb & Hrun).
    apply Hless in Hb as ->. destruct b.
    + cbn in Hrun. simplify_eq. split; [done|]. by exists [], (e :: l).
    + apply bind_inv in Hrun as (r & s1 & Hr & Hrun). cbn in Hrun. simplify_eq.
      destruct (IH r Hr) as (-> & l1 & l2 & -> & ->).
      split; [done|]. by exists (e :: l1), l2.
Qed.

Lemma sleeping_thread_less_func_reads a b s r s' :
  sleeping_thread_less_func a b s = Some (r, s') → s' = s.
Proof.
  unfold sleeping_thread_less_func. cbn.
  destruct (thread_mem s !! a); [|done]. cbn.
  destruct (thread_mem s !! b); [|done]. cbn. by intros [= _ <-].
Qed.

(** X19: [thread_sleep_until] puts its caller to sleep.  Whenever the
    model follows it to the hand-over, for a caller that is neither the
    idle thread nor in a ready structure: the call was made outside an
    interrupt handler; the caller is BLOCKED with reason SLEEPING and the
    wake-up tick it asked for; it is in the sleep list, whose other
    threads are in the order they had; another thread has the CPU, and
    interrupts are off. *)
Theorem thread_sleep_until_sleeps (s s' : state) (c : thread) (wakeup : Z) :
  current_is s c →
  thread_sleep_until wakeup s = Some (tt, s') →
  idle_thread s ≠ Some (esp_page s) →
  ¬ queued s (esp_page s) →
  in_external_intr s = false
  ∧ intr_level s' = INTR_OFF
  ∧ esp_page s' ≠ esp_page s
  ∧ thread_mem s' !! esp_page s = Some (slept wakeup c)
  ∧ ∃ l1 l2, blocked_sleeping_list s = l1 ++ l2
             ∧ blocked_sleeping_list s' = l1 ++ esp_page s :: l2.
Proof.
  intros Hc Hrun Hidle Hq. pose proof Hc as (Ec & Hmagic & Hst).
  unfold thread_sleep_until in Hrun.
  apply bind_inv in Hrun as (cur & sa & Ha & Hrun).
  rewrite (thread_current_Some s c Hc) in Ha. simplify_eq.
  apply bind_inv in Hrun as (b & sb & Hb & Hrun).
  unfold intr_context in Hb. cbn in Hb. simplify_eq.
  apply bind_inv in Hrun as ([] & sc & Hcx & Hrun).
  destruct (in_external_intr sb) eqn:Hint; [done|]. cbn in Hcx. simplify_eq.
  apply bind_inv in Hrun as (old & sd & Hd & Hrun).
  unfold intr_disable, intr_set_level in Hd. cbn in Hd. simplify_eq.
  apply bind_inv in Hrun as ([] & se & He & Hrun).
  unfold update in He. cbn in He. rewrite Ec in He. cbn in He. simplify_eq.
  apply bind_inv in Hrun as ([] & sf & Hf & Hrun).
  unfold update in Hf. cbn in Hf. rewrite lookup_insert_eq in Hf. cbn in Hf. simplify_eq.
  apply bind_inv in Hrun as ([] & sg & Hg & Hrun).
  unfold update in Hg. cbn in Hg. rewrite lookup_insert_eq in Hg. cbn in Hg. simplify_eq.
  rewrite !insert_insert_eq in Hrun.
  apply bind_inv in Hrun as (idle & sh & Hh & Hrun). cbn in Hh. simplify_eq.
  apply bind_inv in Hrun as ([] & Y & HY & Hrun).
  rewrite bool_decide_eq_true_2 in HY by congruence.
  apply bind_inv in HY as (l & si & Hi & HY). cbn in Hi. simplify_eq.
  apply bind_inv in HY as (l' & sj & Hj & HY).
  apply list_insert_ordered_inv in Hj as (-> & l1 & l2 & Hl & ->);
    [|apply sleeping_thread_less_func_reads].
  cbn in HY, Hl. simplify_eq.
  apply bind_inv in Hrun as ([] & S1 & Hsched & Hafter).
  apply schedule_inv in Hsched as (n & s1 & c' & nth & Hnext & _ & Ec' & _ & En & _ & ->).
  cbn in Ec', En. rewrite lookup_insert_eq in Ec'. simplify_eq.
  pose proof (next_thread_to_run_picks _ _ _ Hnext) as Hpick. cbn in Hpick.
  pose proof (next_thread_to_run_fields _ _ _ Hnext) as Hs1. cbn in Hs1.
  assert (n ≠ esp_page sc) as Hne.
  { intros ->. destruct Hpick as [Hi|Hi]; [by apply Hidle|by apply Hq]. }
  cbn in Hafter.
  unfold after_schedule, running_thread in Hafter. cbn [bind gets] in Hafter.
  rewrite scheduled_esp_page in Hafter.
  rewrite bool_decide_eq_false_2 in Hafter by done. cbn in Hafter. simplify_eq.
  rewrite scheduled_esp_page, scheduled_intr_level, scheduled_sleeping, scheduled_lookup.
  rewrite (decide_False (P := esp_page sc = n)) by congruence.
  rewrite (decide_True (P := esp_page sc = esp_page sc)) by done.
  rewrite reaps_not_dying by (by destruct c).
  rewrite Hs1. cbn. rewrite lookup_insert_eq.
  split_and!; try done. by exists l1, l2.
Qed.

End Sleep.

(** ** Boot *)

Section Boot.
Context `{FP : FixedPoint} `{CS : Constants}.

Lemma init_queues_run (indices : list Z) (qs : list (list thread_ptr)) (s : state) :
  Forall (λ i, 0 ≤ i ∧ (Z.to_nat i < length qs)%nat) indices →
  init_queues indices (set_queues qs s)
  = Some (tt, set_queues (foldl (λ qs i, <[i := []]> qs) qs (Z.to_nat <$> indices)) s).
Proof.
  intros Hi. revert qs Hi. induction indices as [|i rest IH]; intros qs Hi; [done|].
  apply Forall_cons in Hi as [[Hi0 Hi] Hrest].
  change (init_queues (i :: rest) (set_queues qs s))
    with ((queue_set i [];; init_queues rest) (set_queues qs s)).
  destruct (lookup_lt_is_Some_2 qs (Z.to_nat i) Hi) as [q Eq].
  cbn [bind]. rewrite (queue_set_set_queues qs s i q) by done.
  rewrite IH; [done|].
  eapply Forall_impl; [exact Hrest|]. cbn. intros j. by rewrite length_insert.
Qed.

(** Emptying the first [n] queues. *)
Lemma foldl_insert_empty (n : nat) (qs : list (list thread_ptr)) :
  (n ≤ length qs)%nat →
  foldl (λ qs i, <[i := []]> qs) qs (seq 0 n) = replicate n [] ++ drop n qs.
Proof.
  induction n as [|n IH]; intros Hn; [by rewrite drop_0|].
  rewrite seq_S, foldl_app. cbn [foldl Nat.add]. rewrite IH by lia.
  destruct (lookup_lt_is_Some_2 qs n ltac:(lia)) as [q Eq].
  rewrite (drop_S _ _ _ Eq).
  rewrite insert_app_r_alt by (rewrite length_replicate; lia).
  rewrite length_replicate, Nat.sub_diag.
  rewrite replicate_S_end, <- app_assoc. done.
Qed.

Lemma init_queues_all (s : state) :
  length (queues (thread_mlfq s)) = Z.to_nat MLFQ_QUEUE_SIZE →
  init_queues (seqZ PRI_MIN MLFQ_QUEUE_SIZE) s
  = Some (tt, set_queues (replicate (Z.to_nat MLFQ_QUEUE_SIZE) []) s).
Proof.
  intros Hlen. rewrite <- (set_queues_id s) at 1.
  rewrite init_queues_run.
  - assert (Z.to_nat <$> seqZ PRI_MIN MLFQ_QUEUE_SIZE = seq 0 (Z.to_nat MLFQ_QUEUE_SIZE))
      as -> by reflexivity.
    rewrite foldl_insert_empty by lia.
    by rewrite <- Hlen, drop_all, app_nil_r.
  - apply Forall_forall. intros i Hi%elem_of_seqZ. rewrite Hlen.
    unfold MLFQ_QUEUE_SIZE, PRI_MAX, PRI_MIN in *. lia.
Qed.

(** The state [thread_init] leaves. *)
Lemma thread_init_run (s : state) :
  intr_level s = INTR_OFF →
  length (queues (thread_mlfq s)) = Z.to_nat MLFQ_QUEUE_SIZE →
  thread_init s
  = Some (tt,
      with_next_tid (next_tid s + 1)
        (with_thread_mem (<[esp_page s := main_thread s]> (thread_mem s))
           (with_all_list [esp_page s]
              (with_initial_thread (Some (esp_page s))
                 (with_thread_mlfq
                    {| mlfq_size := 0; queues := replicate (Z.to_nat MLFQ_QUEUE_SIZE) [] |}
                    (with_blocked_sleeping_list [] (with_ready_list [] s))))))).
Proof.
  intros Hoff Hlen.
  unfold thread_init, intr_get_level, running_thread, allocate_tid. kstep.
  rewrite init_queues_all by done. kstep.
  rewrite init_thread_run by done. kstep.
  unfold update. kstep. rewrite !insert_insert_eq.
  by destruct s.
Qed.

(** X20: [thread_init], called with interrupts off, makes the running
    code the initial thread and establishes what the scheduler relies
    on.  Whatever the lists and queues held before: the thread on the CPU
    has a record with the magic, RUNNING, of priority PRI_DEFAULT, nice 0
    and the first tid, and it is the initial thread and the only member
    of the list of all threads; the ready list, the sleep list and the 64
    buckets are empty and the size counter is 0 (so the counter counts
    the buckets and the ready list is in order); the tid counter is one
    higher; and when no thread existed before, every thread has a tid
    below the counter.  Interrupts are still off. *)
Theorem thread_init_establishes (s : state) :
  intr_level s = INTR_OFF →
  length (queues (thread_mlfq s)) = Z.to_nat MLFQ_QUEUE_SIZE →
  ∃ s', thread_init s = Some (tt, s')
    ∧ esp_page s' = esp_page s
    ∧ thread_mem s' = <[esp_page s := main_thread s]> (thread_mem s)
    ∧ current_is s' (main_thread s)
    ∧ initial_thread s' = Some (esp_page s)
    ∧ all_list s' = [esp_page s]
    ∧ ready_list s' = [] ∧ blocked_sleeping_list s' = []
    ∧ (∀ i t, ¬ in_bucket (queues (thread_mlfq s')) i t)
    ∧ mlfq_counted s' ∧ mlfq_size (thread_mlfq s') = 0
    ∧ ready_sorted s' ∧ ready_threads_ok s'
    ∧ next_tid s' = next_tid s + 1
    ∧ (thread_mem s = ∅ → tids_below s')
    ∧ intr_level s' = INTR_OFF.
Proof.
  intros Hoff Hlen. pose proof (thread_init_run s Hoff Hlen) as Hrun.
  match type of Hrun with _ = Some (_, ?S) => remember S as s' eqn:Hs' end.
  assert (esp_page s' = esp_page s) as Hesp by (by subst s').
  assert (thread_mem s' = <[esp_page s := main_thread s]> (thread_mem s)) as Hmem
    by (by subst s').
  assert (initial_thread s' = Some (esp_page s)) as Hinit by (by subst s').
  assert (all_list s' = [esp_page s]) as Hall by (by subst s').
  assert (ready_list s' = []) as Hrl by (by subst s').
  assert (blocked_sleeping_list s' = []) as Hsl by (by subst s').
  assert (thread_mlfq s'
          = {| mlfq_size := 0; queues := replicate (Z.to_nat MLFQ_QUEUE_SIZE) [] |}) as Hq
    by (by subst s').
  assert (next_tid s' = next_tid s + 1) as Hn by (by subst s').
  assert (intr_level s' = INTR_OFF) as Hlvl by (by subst s').
  clear Hs'.
  exists s'.
  split_and!; [exact Hrun|exact Hesp|exact Hmem| |exact Hinit|exact Hall|exact Hrl
              |exact Hsl| | |by rewrite Hq| | |exact Hn| |exact Hlvl].
  - split_and!; [|done..]. rewrite Hesp, Hmem. apply lookup_insert_eq.
  - rewrite Hq. cbn. intros i t (q & Hq' & Hin). apply lookup_replicate in Hq' as [-> _].
    by apply elem_of_nil in Hin.
  - unfold mlfq_counted. rewrite Hq. cbn. split; [by rewrite length_replicate|].
    assert (∀ n, concat (replicate n ([] : list thread_ptr)) = []) as ->; [|done].
    induction n as [|n IH]; [done|]. by cbn.
  - unfold ready_sorted. rewrite Hrl. constructor.
  - unfold ready_threads_ok. rewrite Hrl. constructor.
  - intros Hempty t th. rewrite Hmem, Hn, Hempty.
    destruct (decide (t = esp_page s)) as [->|Hne].
    + rewrite lookup_insert_eq. intros [= <-]. cbn. lia.
    + rewrite lookup_insert_ne by done. by rewrite lookup_empty.
Qed.

End Boot.


(** ** Runs of the model on concrete kernels *)

Section Witnesses.
#[local] Existing Instance Concrete.fix_17_14.
#[local] Existing Instance Concrete.constants.
Import Concrete.

Lemma thread_set_nice_get_nice_witness :
  thread_set_nice 35 s_nice
  = Some (tt, with_thread_mem
                (<[1%positive := mk_thread 1 THREAD_RUNNING 31 0 20 0 not_blocked []]>
                   (thread_mem s_nice)) s_nice)
  ∧ thread_get_nice
      (with_thread_mem
         (<[1%positive := mk_thread 1 THREAD_RUNNING 31 0 20 0 not_blocked []]>
            (thread_mem s_nice)) s_nice)
    = Some (20, with_thread_mem
                  (<[1%positive := mk_thread 1 THREAD_RUNNING 31 0 20 0 not_blocked []]>
                     (thread_mem s_nice)) s_nice).
Proof.
  apply (thread_set_nice_get_nice 35 s_nice
           (mk_thread 1 THREAD_RUNNING 31 0 5 0 not_blocked [])).
  repeat split; reflexivity.
Defined.

Lemma thread_calculate_donated_priority_max_witness :
  ∃ r, thread_calculate_donated_priority 1%positive s_waiters = Some (r, s_waiters)
       ∧ 0 ≤ r
       ∧ (∀ w, w ∈ waiting_on_owned s_waiters 1%positive → eff_of s_waiters w ≤ r)
       ∧ (r = 0 ∨ ∃ w, w ∈ waiting_on_owned s_waiters 1%positive ∧ eff_of s_waiters w = r)
       ∧ (r = 0 ↔ ∀ w, w ∈ waiting_on_owned s_waiters 1%positive → eff_of s_waiters w ≤ 0)
       ∧ (waiting_on_owned s_waiters 1%positive = [] → r = 0).
Proof.
  apply (thread_calculate_donated_priority_max s_waiters 1%positive).
  exists (mk_thread 1 THREAD_RUNNING 31 50 0 0 not_blocked [1%positive; 2%positive]).
  split; [reflexivity|].
  repeat constructor; by eexists.
Defined.

(** On [s_waiter_min] thread 2 waits on the lock thread 1 holds, and the
    donated priority computed for thread 1 is 0 all the same. *)
Lemma donated_zero_with_a_waiter :
  thread_calculate_donated_priority 1%positive s_waiter_min = Some (0, s_waiter_min)
  ∧ waiting_on_owned s_waiter_min 1%positive = [2%positive]
  ∧ ¬ donated_zero_iff_no_waiter s_waiter_min 1%positive.
Proof.
  split_and!; [reflexivity..|].
  intros (r & Hr & _ & Hiff).
  assert (E : thread_calculate_donated_priority 1%positive s_waiter_min
              = Some (0, s_waiter_min)) by reflexivity.
  rewrite E in Hr. injection Hr as <-.
  destruct Hiff as [Hnil _]. specialize (Hnil eq_refl). discriminate Hnil.
Qed.



Lemma thread_create_yields_above_base_witness :
  current_is s_create (mk_thread 1 THREAD_RUNNING 10 30 0 0 not_blocked [1%positive])
  ∧ free_pages s_create = [3%positive]
  ∧ thread_mem s_create !! 3%positive = None
  ∧ ready_structure_ok s_create
  ∧ ∃ s1, current_is s1 (mk_thread 1 THREAD_RUNNING 10 30 0 0 not_blocked [1%positive])
          ∧ all_list s1 = [1%positive; 2%positive; 4%positive; 3%positive]
          ∧ thread_create "new" 20 (Some 9%positive) 0 s_create
            = (thread_yield;; ret 10) s1.
Proof.
  assert (Hc : current_is s_create
                 (mk_thread 1 THREAD_RUNNING 10 30 0 0 not_blocked [1%positive]))
    by (repeat split; reflexivity).
  assert (Hok : ready_structure_ok s_create) by (repeat constructor; by eexists).
  split_and!; [exact Hc|reflexivity|reflexivity|exact Hok|].
  destruct (thread_create_yields_above_base s_create "new" 20 9%positive 0
              _ 3%positive [] Hc eq_refl eq_refl ltac:(by cbn) Hok)
    as (s1 & _ & Hc1 & Hall & _ & Hrun).
  exists s1. split_and!; [exact Hc1|exact Hall|exact Hrun].
Defined.

(** On [s_create] the creator has base priority 10 and effective priority
    30 and creates a thread of priority 20: [thread_create] yields, and
    thread 2 takes the CPU. *)
Lemma thread_create_yields_below_effective :
  effective_priority (mk_thread 1 THREAD_RUNNING 10 30 0 0 not_blocked [1%positive]) = 30
  ∧ esp_page s_create = 1%positive
  ∧ (esp_page ∘ snd) <$> thread_create "new" 20 (Some 9%positive) 0 s_create
    = Some 2%positive
  ∧ (ready_list ∘ snd) <$> thread_create "new" 20 (Some 9%positive) 0 s_create
    = Some [1%positive; 3%positive]
  ∧ ¬ no_yield_up_to_effective s_create "new" 20 (Some 9%positive) 0.
Proof.
  assert (E : (esp_page ∘ snd) <$> thread_create "new" 20 (Some 9%positive) 0 s_create
              = Some 2%positive) by (vm_compute; reflexivity).
  split_and!; [reflexivity|reflexivity|exact E|vm_compute; reflexivity|].
  intros Hclaim.
  destruct (Hclaim (mk_thread 1 THREAD_RUNNING 10 30 0 0 not_blocked [1%positive]))
    as (tid & s' & Hrun & Hesp).
  - repeat split; reflexivity.
  - by cbn.
  - rewrite Hrun in E. cbn in E. rewrite Hesp in E. discriminate E.
Qed.

Lemma mlfq_update_settles_witness :
  length (queues (thread_mlfq s_mlfq)) = Z.to_nat MLFQ_QUEUE_SIZE
  ∧ Forall (Forall (valid s_mlfq)) (queues (thread_mlfq s_mlfq))
  ∧ mlfq_update s_mlfq
    = Some (tt, set_queues (buckets [(63%nat, [4%positive]);
                                     (61%nat, [3%positive]);
                                     (53%nat, [2%positive])]) s_mlfq)
  ∧ ∃ qs, mlfq_update s_mlfq = Some (tt, set_queues qs s_mlfq)
          ∧ ∀ i t, in_bucket qs i t →
              ∃ th, thread_mem s_mlfq !! t = Some th ∧ Z.of_nat i = mlfq_priority th.
Proof.
  assert (Hv : Forall (Forall (valid s_mlfq)) (queues (thread_mlfq s_mlfq))).
  { repeat constructor; by eexists. }
  split_and!; [reflexivity|exact Hv|reflexivity|].
  destruct (mlfq_update_settles s_mlfq eq_refl Hv) as (qs & Hrun & _ & Hset & _).
  exists qs. split; [exact Hrun|].
  intros i t Hin. destruct (Hset i t Hin) as (th & Eth & Hi & _). eauto.
Defined.

Lemma schedule_one_running_witness :
  ∃ s', schedule s_sched = Some (tt, s')
        ∧ esp_page s' = 2%positive
        ∧ thread_ticks s' = 0
        ∧ ∀ t th, thread_mem s' !! t = Some th → status th = THREAD_RUNNING → t = 2%positive.
Proof.
  assert (E : (esp_page ∘ snd) <$> schedule s_sched = Some 2%positive) by reflexivity.
  destruct (schedule s_sched) as [[[] s']|] eqn:Hrun; [|discriminate E].
  exists s'. split; [reflexivity|].
  destruct (schedule_one_running s_sched s' Hrun) as (_ & Ht & _ & Hone).
  { intros t th Ht%elem_of_list_to_map_2 Hs.
    repeat (apply elem_of_cons in Ht as [Ht|Ht]; [simplify_eq; discriminate Hs|]).
    by apply elem_of_nil in Ht. }
  cbn in E. injection E as E. rewrite E in Hone. by split_and!.
Defined.

Lemma schedule_reaps_dying_only_witness :
  ∃ s', schedule s_dying = Some (tt, s')
        ∧ thread_mem s' !! 2%positive = None
        ∧ is_Some (thread_mem s' !! 1%positive)
        ∧ free_pages s' = [2%positive].
Proof.
  assert (E : (free_pages ∘ snd) <$> schedule s_dying = Some [2%positive]) by reflexivity.
  destruct (schedule s_dying) as [[[] s']|] eqn:Hrun; [|discriminate E].
  exists s'. split; [reflexivity|].
  destruct (schedule_reaps_dying_only s_dying s'
              (mk_thread 2 THREAD_DYING 31 0 0 0 not_blocked []) Hrun eq_refl)
    as (Hothers & Hgone & Hfree & _).
  cbn in E. injection E as E. rewrite E in Hfree.
  destruct (decide (thread_mem s' !! esp_page s_dying = None)) as [Hnone|Hsome];
    [|discriminate Hfree].
  split_and!; [exact Hnone| |exact E].
  apply Hothers; [discriminate|]. by eexists.
Defined.

Lemma thread_unblock_keeps_order_witness :
  ready_sorted s_prio
  ∧ ∃ s', thread_unblock 4%positive s_prio = Some (tt, s')
          ∧ ready_sorted s'
          ∧ ready_list s' = [2%positive; 4%positive; 3%positive].
Proof.
  assert (Hsorted : ready_sorted s_prio).
  { repeat constructor; by apply Z.leb_le. }
  split; [exact Hsorted|].
  destruct (thread_unblock_keeps_order s_prio 4%positive
              (mk_thread 4 THREAD_BLOCKED 30 35 0 0 (sleeping 9) [])
              eq_refl eq_refl eq_refl eq_refl
              ltac:(repeat constructor; by eexists) Hsorted)
    as (s' & l1 & l2 & Hrun & Hs' & _).
  exists s'. split_and!; [exact Hrun|exact Hs'|].
  assert (E : ready_list <$> (snd <$> thread_unblock 4%positive s_prio)
              = Some [2%positive; 4%positive; 3%positive]) by reflexivity.
  rewrite Hrun in E. by injection E.
Defined.

Lemma thread_yield_by_priority_witness :
  ready_sorted s_yield
  ∧ ready_threads_ok s_yield
  ∧ ∃ s', thread_yield s_yield = Some (tt, s')
          ∧ ready_sorted s'
          ∧ esp_page s' = 2%positive
          ∧ ready_list s' = [1%positive; 3%positive].
Proof.
  assert (Hsorted : ready_sorted s_yield).
  { repeat constructor; by apply Z.leb_le. }
  assert (Hrdy : ready_threads_ok s_yield).
  { repeat constructor; by eexists. }
  split_and!; [exact Hsorted|exact Hrdy|].
  destruct (thread_yield_by_priority s_yield
              (mk_thread 1 THREAD_RUNNING 31 0 0 0 not_blocked [])
              ltac:(repeat split; reflexivity) eq_refl eq_refl ltac:(discriminate)
              Hrdy Hsorted)
    as (s' & Hrun & Hs' & Hover & _).
  destruct (Hover 2%positive [3%positive] eq_refl ltac:(by apply Z.leb_le)) as (Hesp & _).
  exists s'. split_and!; [exact Hrun|exact Hs'|exact Hesp|].
  assert (E : ready_list <$> (snd <$> thread_yield s_yield)
              = Some [1%positive; 3%positive]) by reflexivity.
  rewrite Hrun in E. by injection E.
Defined.

Lemma thread_yield_round_robin_witness :
  mlfq_priority (mk_thread 1 THREAD_RUNNING 31 0 0 (fix_int (FixedPoint := fix_17_14) 3) not_blocked []) = 62
  ∧ ∃ s', thread_yield s_mlfq = Some (tt, s')
          ∧ esp_page s' = 2%positive
          ∧ thread_mlfq s'
            = {| mlfq_size := 3;
                 queues := buckets [(63%nat, [4%positive]);
                                    (62%nat, [1%positive]);
                                    (10%nat, [3%positive])] |}.
Proof.
  split; [reflexivity|].
  destruct (thread_yield_round_robin s_mlfq
              (mk_thread 1 THREAD_RUNNING 31 0 0 (fix_int (FixedPoint := fix_17_14) 3) not_blocked [])
              (mk_thread 2 THREAD_READY 31 0 5 0 not_blocked [])
              63%nat 2%positive [4%positive]
              ltac:(repeat split; reflexivity) eq_refl eq_refl ltac:(discriminate)
              eq_refl ltac:(by apply Z.leb_le) ltac:(change (Z.to_nat MLFQ_QUEUE_SIZE) with 64%nat; lia) eq_refl
              ltac:(intros k Hk; exfalso; change (Z.to_nat MLFQ_QUEUE_SIZE) with 64%nat in Hk; lia)
              eq_refl eq_refl)
    as (s' & Hrun & Hesp & _ & Hq & _).
  exists s'. split_and!; [exact Hrun|exact Hesp|].
  rewrite Hq. reflexivity.
Defined.

Lemma thread_block_hands_over_witness :
  ∃ s', thread_block (with_intr_level INTR_OFF s_yield) = Some (tt, s')
        ∧ esp_page s' = 2%positive
        ∧ thread_mem s' !! 1%positive
          = Some (mk_thread 1 THREAD_BLOCKED 31 0 0 0 not_blocked [])
        ∧ intr_level s' = INTR_OFF.
Proof.
  assert (E : (esp_page ∘ snd) <$> thread_block (with_intr_level INTR_OFF s_yield)
              = Some 2%positive) by reflexivity.
  destruct (thread_block (with_intr_level INTR_OFF s_yield)) as [[[] s']|] eqn:Hrun;
    [|discriminate E].
  exists s'. split; [reflexivity|].
  destruct (thread_block_hands_over (with_intr_level INTR_OFF s_yield) s'
              (mk_thread 1 THREAD_RUNNING 31 0 0 0 not_blocked [])
              ltac:(repeat split; reflexivity) Hrun ltac:(discriminate))
    as (_ & _ & Hoff & _ & _ & Hc & _).
  { intros [Hin|(i & q & Hq & Hin)].
    - repeat (apply elem_of_cons in Hin as [Hin|Hin]; [discriminate Hin|]).
      by apply elem_of_nil in Hin.
    - apply lookup_replicate in Hq as [-> _]. by apply elem_of_nil in Hin. }
  cbn in E. injection E as E. by split_and!.
Defined.

Lemma thread_exit_destroys_witness :
  ∃ s', thread_exit s_exit = Some (tt, s')
        ∧ esp_page s' = 1%positive
        ∧ all_list s' = [1%positive]
        ∧ thread_mem s' !! 2%positive = None
        ∧ free_pages s' = [2%positive].
Proof.
  assert (E : (esp_page ∘ snd) <$> thread_exit s_exit = Some 1%positive) by reflexivity.
  destruct (thread_exit s_exit) as [[[] s']|] eqn:Hrun; [|discriminate E].
  exists s'. split; [reflexivity|].
  destruct (thread_exit_destroys s_exit s'
              (mk_thread 2 THREAD_RUNNING 31 0 0 0 not_blocked [])
              ltac:(repeat split; reflexivity) Hrun)
    as (_ & _ & _ & Hall & _ & Hgone).
  cbn in E. injection E as E.
  destruct (decide (Some (esp_page s_exit) = initial_thread s_exit)) as [Hi|_];
    [discriminate Hi|].
  destruct Hgone as [Hnone Hfree]. by split_and!.
Defined.

Lemma thread_set_priority_reschedules_witness :
  ∃ s', thread_set_priority 10 s_yield = Some (tt, s')
        ∧ esp_page s' = 2%positive
        ∧ thread_mem s' !! 1%positive
          = Some (mk_thread 1 THREAD_READY 10 0 0 0 not_blocked []).
Proof.
  destruct (thread_set_priority_reschedules s_yield
              (mk_thread 1 THREAD_RUNNING 31 0 0 0 not_blocked []) 10
              ltac:(repeat split; reflexivity) eq_refl eq_refl ltac:(discriminate)
              ltac:(repeat constructor; by eexists)
              ltac:(repeat constructor; by apply Z.leb_le))
    as (s' & Hrun & _ & Hover & _).
  { intros Hin.
    repeat (apply elem_of_cons in Hin as [Hin|Hin]; [discriminate Hin|]).
    by apply elem_of_nil in Hin. }
  destruct (Hover 2%positive [3%positive] eq_refl ltac:(by apply Z.leb_le)) as (Hesp & Hc).
  exists s'. by split_and!.
Defined.

Lemma thread_tick_slice_witness :
  ∃ s', thread_tick (with_thread_ticks 3 s_prio) = Some (tt, s')
        ∧ esp_page s' = 1%positive
        ∧ thread_ticks s' = 4
        ∧ yield_on_return s' = true
        ∧ kernel_ticks s' = 1
        ∧ idle_ticks s' = 0.
Proof.
  assert (E : (esp_page ∘ snd) <$> thread_tick (with_thread_ticks 3 s_prio)
              = Some 1%positive) by reflexivity.
  destruct (thread_tick (with_thread_ticks 3 s_prio)) as [[[] s']|] eqn:Hrun;
    [|discriminate E].
  exists s'. split; [reflexivity|].
  destruct (thread_tick_slice (with_thread_ticks 3 s_prio) s'
              (mk_thread 1 THREAD_RUNNING 50 0 0 0 not_blocked [])
              ltac:(repeat split; reflexivity) Hrun)
    as (Hesp & Hidle & Hkernel & _ & Hticks & Hyield & _).
  rewrite Hticks in Hyield. by split_and!.
Defined.

Lemma next_thread_to_run_highest_bucket_witness :
  next_thread_to_run s_mlfq
  = Some (Some 2%positive, popped_bucket 63 [4%positive] s_mlfq).
Proof.
  destruct (next_thread_to_run_highest_bucket s_mlfq eq_refl ltac:(cbn; lia))
    as [Hpick _].
  apply Hpick.
  - change (Z.to_nat MLFQ_QUEUE_SIZE) with 64%nat. lia.
  - reflexivity.
  - intros k Hk. exfalso. change (Z.to_nat MLFQ_QUEUE_SIZE) with 64%nat in Hk. lia.
Defined.

Lemma mlfq_counter_invariant_witness :
  mlfq_counted s_mlfq
  ∧ (∃ r s', next_thread_to_run s_mlfq = Some (r, s')
             ∧ mlfq_counted s' ∧ mlfq_size (thread_mlfq s') = 2)
  ∧ ∃ s', thread_unblock 5%positive s_mlfq = Some (tt, s')
          ∧ mlfq_counted s' ∧ mlfq_size (thread_mlfq s') = 4.
Proof.
  assert (Hcnt : mlfq_counted s_mlfq) by (split; reflexivity).
  destruct (mlfq_counter_invariant s_mlfq eq_refl Hcnt) as [Hnext Hunblock].
  split_and!; [exact Hcnt| |].
  - destruct Hnext as (r & s' & Hrun & Hcnt' & _ & Hsize).
    destruct (Hsize ltac:(cbn; lia)) as (t & i & _ & _ & Hs').
    exists r, s'. by split_and!.
  - destruct (Hunblock 5%positive
                (mk_thread 5 THREAD_BLOCKED 31 0 0 0 (sleeping 100) [])
                eq_refl eq_refl eq_refl) as (s' & Hrun & Hcnt' & Hs').
    exists s'. by split_and!.
Defined.

Lemma thread_create_fresh_tid_witness :
  tids_below s_create
  ∧ ∃ s', thread_create "new" 20 (Some 9%positive) 0 s_create = Some (10, s')
          ∧ next_tid s' = 11
          ∧ tids_below s'.
Proof.
  assert (Hbelow : tids_below s_create).
  { intros t th Ht%elem_of_list_to_map_2.
    repeat (apply elem_of_cons in Ht as [Ht|Ht]; [simplify_eq; by apply Z.ltb_lt|]).
    by apply elem_of_nil in Ht. }
  split; [exact Hbelow|].
  assert (E : fst <$> thread_create "new" 20 (Some 9%positive) 0 s_create = Some 10)
    by reflexivity.
  destruct (thread_create "new" 20 (Some 9%positive) 0 s_create) as [[r s']|] eqn:Hrun;
    [|discriminate E].
  cbn in E. injection E as ->.
  exists s'. split; [reflexivity|].
  destruct (thread_create_fresh_tid s_create s' "new" 20 (Some 9%positive) 0
              3%positive [] 10 Hbelow ltac:(by apply Z.ltb_lt) eq_refl Hrun)
    as (_ & Hn & _ & Hbelow' & _).
  by split.
Defined.

Lemma schedule_frame_witness :
  ∃ s', schedule s_sched = Some (tt, s')
        ∧ all_list s' = [1%positive; 2%positive]
        ∧ ∀ t, t ∈ ready_list s' → t ∈ [2%positive; 1%positive].
Proof.
  assert (E : (esp_page ∘ snd) <$> schedule s_sched = Some 2%positive) by reflexivity.
  destruct (schedule s_sched) as [[[] s']|] eqn:Hrun; [|discriminate E].
  exists s'. split; [reflexivity|].
  pose proof (schedule_frame s_sched s' Hrun) as Hframe.
  split; [apply Hframe|apply Hframe].
Defined.

Lemma thread_block_unblock_round_trip_witness :
  ∃ s1 s2, thread_block (with_intr_level INTR_OFF s_yield) = Some (tt, s1)
           ∧ thread_unblock 1%positive s1 = Some (tt, s2)
           ∧ esp_page s2 = 2%positive
           ∧ thread_mem s2 !! 1%positive
             = Some (mk_thread 1 THREAD_READY 31 0 0 0 not_blocked []).
Proof.
  assert (E : (esp_page ∘ snd) <$> thread_block (with_intr_level INTR_OFF s_yield)
              = Some 2%positive) by reflexivity.
  destruct (thread_block (with_intr_level INTR_OFF s_yield)) as [[[] s1]|] eqn:Hrun;
    [|discriminate E].
  cbn in E. injection E as E.
  destruct (thread_block_unblock_round_trip (with_intr_level INTR_OFF s_yield) s1
              (mk_thread 1 THREAD_RUNNING 31 0 0 0 not_blocked [])
              ltac:(repeat split; reflexivity) Hrun ltac:(discriminate))
    as (s2 & Hrun2 & Hesp & Hc & _).
  { intros [Hin|(i & q & Hq & Hin)].
    - repeat (apply elem_of_cons in Hin as [Hin|Hin]; [discriminate Hin|]).
      by apply elem_of_nil in Hin.
    - apply lookup_replicate in Hq as [-> _]. by apply elem_of_nil in Hin. }
  { repeat constructor; by eexists. }
  exists s1, s2. split_and!; [reflexivity|exact Hrun2|congruence|exact Hc].
Defined.

Lemma thread_yield_takes_turns_witness :
  ∃ s1 s2, thread_yield s_yield = Some (tt, s1)
           ∧ esp_page s1 = 2%positive
           ∧ ready_list s1 = [1%positive; 3%positive]
           ∧ thread_yield s1 = Some (tt, s2)
           ∧ esp_page s2 = 1%positive
           ∧ ready_list s2 = [2%positive; 3%positive].
Proof.
  destruct (thread_yield_takes_turns s_yield
              (mk_thread 1 THREAD_RUNNING 31 0 0 0 not_blocked [])
              2%positive [3%positive]
              ltac:(repeat split; reflexivity) eq_refl eq_refl
              ltac:(discriminate) ltac:(discriminate)
              ltac:(repeat constructor; by eexists)
              ltac:(repeat constructor; by apply Z.leb_le)
              eq_refl ltac:(discriminate) eq_refl)
    as (s1 & s2 & H1 & He1 & Hl1 & H2 & He2 & Hl2 & _).
  { intros x ->%list_elem_of_singleton. by apply Z.ltb_lt. }
  exists s1, s2. by split_and!.
Defined.

Lemma thread_yield_mlfq_returns_witness :
  mlfq_counted s_mlfq
  ∧ ∃ s', thread_yield s_mlfq = Some (tt, s')
          ∧ mlfq_counted s'
          ∧ mlfq_size (thread_mlfq s') = 3
          ∧ esp_page s' = 2%positive.
Proof.
  assert (Hcnt : mlfq_counted s_mlfq) by (split; reflexivity).
  split; [exact Hcnt|].
  destruct (thread_yield_mlfq_returns s_mlfq
              (mk_thread 1 THREAD_RUNNING 31 0 0 (fix_int (FixedPoint := fix_17_14) 3)
                 not_blocked [])
              ltac:(repeat split; reflexivity) eq_refl eq_refl ltac:(discriminate) Hcnt)
    as (s' & Hrun & Hcnt' & Hsize & _).
  { intros i t Hcat%in_bucket_concat.
    assert (concat (queues (thread_mlfq s_mlfq)) = [3%positive; 2%positive; 4%positive])
      as Hall by reflexivity.
    rewrite Hall in Hcat.
    repeat (apply elem_of_cons in Hcat as [->|Hcat]; [by eexists|]).
    by apply elem_of_nil in Hcat. }
  exists s'. split_and!; [exact Hrun|exact Hcnt'|exact Hsize|].
  assert (E : (esp_page ∘ snd) <$> thread_yield s_mlfq = Some 2%positive) by reflexivity.
  rewrite Hrun in E. by injection E.
Defined.

Lemma thread_sleep_until_sleeps_witness :
  ∃ s', thread_sleep_until 10 s_prio = Some (tt, s')
        ∧ esp_page s' = 2%positive
        ∧ blocked_sleeping_list s' = [4%positive; 1%positive; 5%positive]
        ∧ thread_mem s' !! 1%positive
          = Some (mk_thread 1 THREAD_BLOCKED 50 0 0 0 (sleeping 10) []).
Proof.
  assert (E : (λ r, (esp_page r.2, blocked_sleeping_list r.2)) <$> thread_sleep_until 10 s_prio
              = Some (2%positive, [4%positive; 1%positive; 5%positive])) by reflexivity.
  destruct (thread_sleep_until 10 s_prio) as [[[] s']|] eqn:Hrun; [|discriminate E].
  cbn in E. injection E as Hesp Hlist.
  exists s'. split; [reflexivity|].
  destruct (thread_sleep_until_sleeps s_prio s'
              (mk_thread 1 THREAD_RUNNING 50 0 0 0 not_blocked []) 10
              ltac:(repeat split; reflexivity) Hrun ltac:(discriminate))
    as (_ & _ & _ & Hc & _).
  { intros [Hin|(i & q & Hq & Hin)].
    - repeat (apply elem_of_cons in Hin as [Hin|Hin]; [discriminate Hin|]).
      by apply elem_of_nil in Hin.
    - apply lookup_replicate in Hq as [-> _]. by apply elem_of_nil in Hin. }
  by split_and!.
Defined.

Lemma thread_init_establishes_witness :
  ∃ s', thread_init s_boot = Some (tt, s')
        ∧ current_is s' (main_thread s_boot)
        ∧ tid (main_thread s_boot) = 10
        ∧ all_list s' = [1%positive]
        ∧ ready_list s' = []
        ∧ mlfq_counted s'
        ∧ tids_below s'.
Proof.
  destruct (thread_init_establishes s_boot eq_refl eq_refl)
    as (s' & Hrun & _ & _ & Hc & _ & Hall & Hrl & _ & _ & Hcnt & _ & _ & _ & _ & Hbelow & _).
  exists s'. split_and!; [exact Hrun|exact Hc|reflexivity|exact Hall|exact Hrl|exact Hcnt|].
  apply Hbelow. reflexivity.
Defined.

End Witnesses.
